(** * NutriAI meal-photo analyzer: a shallow embedding of [script.js]

    The development follows the pipeline of the script: the response
    extractor ([extractJson], a regular expression search followed by
    [JSON.parse]), the result renderer ([displayResults], a template
    literal over the parsed object) and the inference client
    ([analyzeImage], with its guard, its [try]/[catch] and
    [resetToInitialView]).

    Conventions of the model.
    - A JavaScript string is the list of its UTF-16 code units.
    - A finite number is kept as its decimal expansion (sign, significant
      digits, decimal exponent), the triple from which [Number::toString]
      prints; binary rounding of doubles is not modelled, overflow of a
      JSON literal to [Infinity] is.  [+0] and [-0] are one value: nothing
      in the script tells them apart.
    - Statements that can throw return a [result]; [try]/[catch] is a
      match on it. *)

From Stdlib Require Import String Ascii ZArith NArith PArith Bool Lia List.
From Stdlib Require Import DecimalN DecimalZ DecimalFacts.
Import ListNotations.

Local Open Scope N_scope.

(** ** Strings as code units *)

Abbreviation code_unit := N (only parsing).

Abbreviation text := (list N).

(** Code units of an ASCII literal. *)
Definition u (s : string) : text := map N_of_ascii (list_ascii_of_string s).

Arguments u : simpl never.

Fixpoint text_eqb (a b : text) : bool :=
  match a, b with
  | [], [] => true
  | x :: a', y :: b' => (x =? y) && text_eqb a' b'
  | _, _ => false
  end.

(** Literals of the examples: [js] writes the double quote as ['], [nl]
    is a line feed. *)
Definition js (s : string) : text :=
  map (fun c => if c =? 39 then 34 else c) (u s).

Definition nl : text := [10].

(** ** Exceptions *)

(** What a JavaScript statement can throw here: the engine's [TypeError]
    and [SyntaxError], a rejected [fetch], and the script's own
    [new Error(msg)]. *)
Inductive exn :=
| TypeError
| SyntaxError
| FetchRejected (msg : text)
| Error (msg : text).

Inductive result (A : Type) :=
| Ok (a : A)
| Throw (e : exn).

Arguments Ok {A} a.

Arguments Throw {A} e.

Definition bind {A B} (r : result A) (k : A -> result B) : result B :=
  match r with
  | Ok a => k a
  | Throw e => Throw e
  end.

Notation "x <- c ;; k" := (bind c (fun x => k))
  (at level 61, c at next level, right associativity).

(** ** Numbers *)

(** [Dec neg ds e] is [(-1)^neg * ds * 10^e], [ds] read as a decimal
    numeral, most significant digit first. *)
Inductive number :=
| NaN
| Infinity (neg : bool)
| Zero
| Dec (neg : bool) (ds : list N) (e : Z).

Definition digit_char (d : N) : code_unit := 48 + d.

Definition is_digit (c : code_unit) : bool := (48 <=? c) && (c <=? 57).

Definition digit_val (c : code_unit) : N := c - 48.

Fixpoint uint_digits (d : Decimal.uint) : list N :=
  match d with
  | Decimal.Nil => []
  | Decimal.D0 r => 0 :: uint_digits r
  | Decimal.D1 r => 1 :: uint_digits r
  | Decimal.D2 r => 2 :: uint_digits r
  | Decimal.D3 r => 3 :: uint_digits r
  | Decimal.D4 r => 4 :: uint_digits r
  | Decimal.D5 r => 5 :: uint_digits r
  | Decimal.D6 r => 6 :: uint_digits r
  | Decimal.D7 r => 7 :: uint_digits r
  | Decimal.D8 r => 8 :: uint_digits r
  | Decimal.D9 r => 9 :: uint_digits r
  end.

(** Digits above 9 do not occur; they are read as 9 to keep the function
    total. *)
Fixpoint digits_uint (ds : list N) : Decimal.uint :=
  match ds with
  | [] => Decimal.Nil
  | d :: r =>
      let t := digits_uint r in
      if d =? 0 then Decimal.D0 t else if d =? 1 then Decimal.D1 t
      else if d =? 2 then Decimal.D2 t else if d =? 3 then Decimal.D3 t
      else if d =? 4 then Decimal.D4 t else if d =? 5 then Decimal.D5 t
      else if d =? 6 then Decimal.D6 t else if d =? 7 then Decimal.D7 t
      else if d =? 8 then Decimal.D8 t else Decimal.D9 t
  end.

(** Digits of a natural number, and back. *)
Definition N_digits (n : N) : list N := uint_digits (N.to_uint n).

Definition digits_N (ds : list N) : N := N.of_uint (digits_uint ds).

Fixpoint strip_leading_zeros (ds : list N) : list N :=
  match ds with
  | [] => []
  | d :: r => if d =? 0 then strip_leading_zeros r else ds
  end.

(** Trailing zeros removed, with their count. *)
Fixpoint strip_trailing_zeros (ds : list N) : list N * Z :=
  match ds with
  | [] => ([], 0%Z)
  | d :: r =>
      let '(r', t) := strip_trailing_zeros r in
      match r' with
      | [] => if d =? 0 then ([], (t + 1)%Z) else ([d], t)
      | _ => (d :: r', t)
      end
  end.

(** The least magnitude that rounds to infinity as a double:
    2^1024 - 2^970. *)
Definition overflow_threshold : Z := (2 ^ 1024 - 2 ^ 970)%Z.

Definition overflows (ds : list N) (e : Z) : bool :=
  let m := Z.of_N (digits_N ds) in
  if (0 <=? e)%Z then (overflow_threshold <=? m * 10 ^ e)%Z
  else (overflow_threshold * 10 ^ (- e) <=? m)%Z.

(** The number denoted by the digits [ds] scaled by [10^e]. *)
Definition make_number (neg : bool) (ds : list N) (e : Z) : number :=
  match strip_leading_zeros ds with
  | [] => Zero
  | ds1 =>
      let '(ds2, t) := strip_trailing_zeros ds1 in
      if overflows ds2 (e + t) then Infinity neg else Dec neg ds2 (e + t)%Z
  end.

Definition number_of_Z (z : Z) : number :=
  make_number (z <? 0)%Z (N_digits (Z.abs_N z)) 0.

Definition digit_text (ds : list N) : text := map digit_char ds.

(** Decimal digits of the magnitude of an integer. *)
Definition Z_text (z : Z) : text := digit_text (N_digits (Z.abs_N z)).

(** [Number::toString] (radix 10): with [k] digits and the decimal point
    after [n] of them, the four layouts of the language specification. *)
Definition Number_toString (x : number) : text :=
  match x with
  | NaN => u "NaN"
  | Infinity neg => (if neg then u "-" else []) ++ u "Infinity"
  | Zero => u "0"
  | Dec neg ds e =>
      let k := Z.of_nat (length ds) in
      let n := (k + e)%Z in
      (if neg then u "-" else []) ++
      (if (k <=? n)%Z && (n <=? 21)%Z then
         digit_text ds ++ digit_text (repeat 0 (Z.to_nat (n - k)))
       else if (0 <? n)%Z && (n <=? 21)%Z then
         digit_text (firstn (Z.to_nat n) ds) ++ u "." ++
         digit_text (skipn (Z.to_nat n) ds)
       else if (-6 <? n)%Z && (n <=? 0)%Z then
         u "0." ++ digit_text (repeat 0 (Z.to_nat (- n))) ++ digit_text ds
       else
         let ex := u "e" ++ (if (0 <=? n - 1)%Z then u "+" else u "-")
                   ++ Z_text (n - 1) in
         match ds with
         | [] => ex
         | [d] => digit_char d :: ex
         | d :: r => digit_char d :: u "." ++ digit_text r ++ ex
         end)
  end.

(** [Math.round]: the integer nearest to [x], ties towards +infinity. *)
Definition Math_round (x : number) : number :=
  match x with
  | Dec neg ds e =>
      if (0 <=? e)%Z then x
      else
        let m := Z.of_N (digits_N ds) in
        let den := (10 ^ (- e))%Z in
        let num := if neg then (- m)%Z else m in
        number_of_Z ((2 * num + den) / (2 * den))
  | _ => x
  end.

(** [x > 0] on numbers. *)
Definition number_gt_zero (x : number) : bool :=
  match x with
  | Infinity false | Dec false _ _ => true
  | _ => false
  end.

(** ** Scanning numerals *)

Fixpoint scan_digits (s : text) : list N * text :=
  match s with
  | c :: r =>
      if is_digit c then let '(ds, r') := scan_digits r in (digit_val c :: ds, r')
      else ([], s)
  | [] => ([], [])
  end.

(** An optional exponent part [e±ddd]; [None] when [e] is not followed by
    a digit. *)
Definition scan_exponent (s : text) : option (Z * text) :=
  match s with
  | c :: r =>
      if (c =? 101) || (c =? 69) then
        let '(sg, r1) :=
          match r with
          | d :: r' =>
              if d =? 43 then (false, r') else if d =? 45 then (true, r')
              else (false, r)
          | [] => (false, r)
          end in
        let '(xs, r2) := scan_digits r1 in
        match xs with
        | [] => None
        | _ => let v := Z.of_N (digits_N xs) in
               Some (if sg then (- v)%Z else v, r2)
        end
      else Some (0%Z, s)
  | [] => Some (0%Z, [])
  end.

(** [\s] of regular expressions and the white space that
    [StringToNumber] trims: WhiteSpace and LineTerminator. *)
Definition is_space (c : code_unit) : bool :=
  ((9 <=? c) && (c <=? 13)) || (c =? 32) || (c =? 160) || (c =? 5760)
  || ((8192 <=? c) && (c <=? 8202)) || (c =? 8232) || (c =? 8233)
  || (c =? 8239) || (c =? 8287) || (c =? 12288) || (c =? 65279).

Fixpoint skip_space (s : text) : text :=
  match s with
  | c :: r => if is_space c then skip_space r else s
  | [] => []
  end.

Definition trim (s : text) : text := rev (skip_space (rev (skip_space s))).

(** Value of a digit in the given radix, for [0x], [0o] and [0b]. *)
Definition radix_digit (radix c : N) : option N :=
  let v := if is_digit c then Some (c - 48)
           else if (97 <=? c) && (c <=? 102) then Some (c - 87)
           else if (65 <=? c) && (c <=? 70) then Some (c - 55)
           else None in
  match v with
  | Some d => if d <? radix then Some d else None
  | None => None
  end.

Fixpoint radix_value (radix : N) (acc : N) (s : text) : option N :=
  match s with
  | [] => Some acc
  | c :: r =>
      match radix_digit radix c with
      | Some d => radix_value radix (acc * radix + d) r
      | None => None
      end
  end.

(** StrUnsignedDecimalLiteral, the whole of [s]; [NaN] when malformed. *)
Definition unsigned_decimal (neg : bool) (s : text) : number :=
  if text_eqb s (u "Infinity") then Infinity neg else
  let '(ip, s1) := scan_digits s in
  let '(fp, s2) :=
    match s1 with
    | c :: r => if c =? 46 then scan_digits r else ([], s1)
    | [] => ([], [])
    end in
  match ip ++ fp with
  | [] => NaN
  | ds =>
      match scan_exponent s2 with
      | Some (x, []) => make_number neg ds (x - Z.of_nat (length fp))
      | _ => NaN
      end
  end.

Definition StringToNumber (s : text) : number :=
  match trim s with
  | [] => Zero
  | c :: r =>
      if c =? 43 then unsigned_decimal false r
      else if c =? 45 then unsigned_decimal true r
      else
        let radix :=
          match r with
          | x :: _ =>
              if negb (c =? 48) then None
              else if (x =? 120) || (x =? 88) then Some 16
              else if (x =? 111) || (x =? 79) then Some 8
              else if (x =? 98) || (x =? 66) then Some 2
              else None
          | [] => None
          end in
        match radix, r with
        | Some b, _ :: ((_ :: _) as body) =>
            match radix_value b 0 body with
            | Some n => number_of_Z (Z.of_N n)
            | None => NaN
            end
        | Some _, _ => NaN
        | None, _ => unsigned_decimal false (c :: r)
        end
  end.

(** ** Values *)

(** The values [JSON.parse] builds, and [undefined] for what a property
    read finds missing.  An object lists its own properties in the order
    in which the language enumerates them. *)
#[warnings="-register-all"]
Inductive value :=
| JUndefined
| JNull
| JBool (b : bool)
| JNum (n : number)
| JStr (s : text)
| JArr (l : list value)
| JObj (m : list (text * value)).

Fixpoint lookup (k : text) (m : list (text * value)) : option value :=
  match m with
  | [] => None
  | (k', v) :: r => if text_eqb k k' then Some v else lookup k r
  end.

Definition has_own (k : text) (m : list (text * value)) : bool :=
  match lookup k m with Some _ => true | None => false end.

Definition number_of_nat (n : nat) : number := number_of_Z (Z.of_nat n).

(** [ToBoolean]. *)
Definition truthy (v : value) : bool :=
  match v with
  | JUndefined | JNull => false
  | JBool b => b
  | JNum NaN | JNum Zero => false
  | JNum _ => true
  | JStr [] => false
  | JStr _ => true
  | JArr _ | JObj _ => true
  end.

(** [a || b] and [a ?? b], the right operand being a constant. *)
Definition or_else (a b : value) : value := if truthy a then a else b.

Definition nullish (v : value) : bool :=
  match v with JUndefined | JNull => true | _ => false end.

Definition coalesce (a b : value) : value := if nullish a then b else a.

Fixpoint join (sep : text) (parts : list text) : text :=
  match parts with
  | [] => []
  | [p] => p
  | p :: r => p ++ sep ++ join sep r
  end.

Fixpoint sequence {A} (l : list (result A)) : result (list A) :=
  match l with
  | [] => Ok []
  | r :: t => x <- r ;; xs <- sequence t ;; Ok (x :: xs)
  end.

(** [ToString].  An array prints through [Array.prototype.join]; a plain
    object prints as [[object Object]] through the inherited [toString],
    unless an own [toString] property (never callable in parsed JSON)
    shadows it, and then the conversion throws. *)
Fixpoint ToString (v : value) : result text :=
  match v with
  | JUndefined => Ok (u "undefined")
  | JNull => Ok (u "null")
  | JBool true => Ok (u "true")
  | JBool false => Ok (u "false")
  | JNum n => Ok (Number_toString n)
  | JStr s => Ok s
  | JArr l =>
      parts <- sequence
        (map (fun e => if nullish e then Ok [] else ToString e) l) ;;
      Ok (join (u ",") parts)
  | JObj m =>
      if has_own (u "toString") m then Throw TypeError
      else Ok (u "[object Object]")
  end.

(** [ToNumber]; arrays and objects go through their string form. *)
Definition ToNumber (v : value) : result number :=
  match v with
  | JUndefined => Ok NaN
  | JNull => Ok Zero
  | JBool true => Ok (Dec false [1] 0)
  | JBool false => Ok Zero
  | JNum n => Ok n
  | JStr s => Ok (StringToNumber s)
  | JArr _ | JObj _ => s <- ToString v ;; Ok (StringToNumber s)
  end.

(** [o.name] for the property names the script reads: own properties of
    an object, [length] of an array or a string (nothing else that the
    script names is inherited from a prototype).  Reading a property of
    [undefined] or [null] throws. *)
Definition get (o : value) (k : text) : result value :=
  match o with
  | JUndefined | JNull => Throw TypeError
  | JObj m => Ok (match lookup k m with Some v => v | None => JUndefined end)
  | JArr l =>
      if text_eqb k (u "length") then Ok (JNum (number_of_nat (length l)))
      else Ok JUndefined
  | JStr s =>
      if text_eqb k (u "length") then Ok (JNum (number_of_nat (length s)))
      else Ok JUndefined
  | JBool _ | JNum _ => Ok JUndefined
  end.

(** [o[0]]. *)
Definition get_first (o : value) : result value :=
  match o with
  | JUndefined | JNull => Throw TypeError
  | JObj m => Ok (match lookup (u "0") m with Some v => v | None => JUndefined end)
  | JArr (x :: _) => Ok x
  | JStr (c :: _) => Ok (JStr [c])
  | _ => Ok JUndefined
  end.

(** [s.toLowerCase()] on the letters A-Z; other code units are kept. *)
Definition toLowerCase (s : text) : text :=
  map (fun c => if (65 <=? c) && (c <=? 90) then c + 32 else c) s.

(** ** The result renderer *)

(** What the template literal of [displayResults] interpolates, one field
    per [${...}], in the order of the template. *)
Record view := {
  total_calories_text : text;
  confidence_class : text;
  confidence_text : text;
  protein_text : text;
  carbs_text : text;
  fat_text : text;
  fiber_text : text;
  items_html : text;
  sugar_text : text;
  sodium_text : text;
  health_tips_text : text
}.

(** [Math.round(x)] on any value. *)
Definition round_value (v : value) : result value :=
  n <- ToNumber v ;; Ok (JNum (Math_round n)).

(** The callback of [items.map]:
    [<li>${item.item} (~${Math.round(item.calories)} kcal)</li>]. *)
Definition render_item (item : value) : result text :=
  name <- get item (u "item") ;;
  name_s <- ToString name ;;
  cal <- get item (u "calories") ;;
  cal_r <- round_value cal ;;
  cal_s <- ToString cal_r ;;
  Ok (u "<li>" ++ name_s ++ u " (~" ++ cal_s ++ u " kcal)</li>").

(** [items && items.length > 0 ? items.map(...).join('') : '<li>No
    specific items identified.</li>']; only an array has [map]. *)
Definition render_items (items : value) : result text :=
  nonempty <-
    (if truthy items then
       len <- get items (u "length") ;;
       n <- ToNumber len ;;
       Ok (number_gt_zero n)
     else Ok false) ;;
  if nonempty : bool then
    match items with
    | JArr l => lis <- sequence (map render_item l) ;; Ok (join [] lis)
    | _ => Throw TypeError
    end
  else Ok (u "<li>No specific items identified.</li>").

(** [(confidence_score || 'medium').toLowerCase()]; only a string has the
    method. *)
Definition confidence_class_of (confidence_score : value) : result text :=
  match or_else confidence_score (JStr (u "medium")) with
  | JStr s => Ok (toLowerCase s)
  | _ => Throw TypeError
  end.

Definition displayResults (data : value) : result view :=
  items <- get data (u "items") ;;
  nutrition_summary <- get data (u "nutrition_summary") ;;
  confidence_score <- get data (u "confidence_score") ;;
  health_tips <- get data (u "health_tips") ;;
  total_calories <- get nutrition_summary (u "total_calories") ;;
  macronutrients <- get nutrition_summary (u "macronutrients") ;;
  micronutrients <- get nutrition_summary (u "micronutrients") ;;
  cls <- confidence_class_of confidence_score ;;
  rounded <- round_value total_calories ;;
  total <- ToString (or_else rounded (JStr (u "N/A"))) ;;
  conf <- ToString (or_else confidence_score (JStr (u "Medium"))) ;;
  protein_g <- get macronutrients (u "protein_g") ;;
  protein <- ToString (or_else protein_g (JNum Zero)) ;;
  carbs_g <- get macronutrients (u "carbs_g") ;;
  carbs <- ToString (or_else carbs_g (JNum Zero)) ;;
  fat_g <- get macronutrients (u "fat_g") ;;
  fat <- ToString (or_else fat_g (JNum Zero)) ;;
  fiber_g <- get macronutrients (u "fiber_g") ;;
  fiber <- ToString (or_else fiber_g (JNum Zero)) ;;
  lis <- render_items items ;;
  sugar_g <- get micronutrients (u "sugar_g") ;;
  sugar <- ToString (coalesce sugar_g (JStr (u "N/A"))) ;;
  sodium_mg <- get micronutrients (u "sodium_mg") ;;
  sodium <- ToString (coalesce sodium_mg (JStr (u "N/A"))) ;;
  tips <- ToString (or_else health_tips (JStr (u "Enjoy your meal mindfully!"))) ;;
  Ok {| total_calories_text := total;
        confidence_class := cls;
        confidence_text := conf;
        protein_text := protein;
        carbs_text := carbs;
        fat_text := fat;
        fiber_text := fiber;
        items_html := lis;
        sugar_text := sugar;
        sodium_text := sodium;
        health_tips_text := tips |}.

(** ** Regular expressions *)

(** The fragment of the regular-expression language that [extractJson]
    uses: literals, a starred character class (greedy [c*] or lazy
    [c*?]), sequence, alternation and capture groups. *)
Inductive regex :=
| Lit (l : text)
| Star (greedy : bool) (cls : code_unit -> bool)
| Seq (r1 r2 : regex)
| Alt (r1 r2 : regex)
| Group (i : nat) (r : regex).

(** Captures by group number; [None] is [undefined]. *)
Definition captures := list (option text).

Fixpoint set_capture (i : nat) (t : text) (c : captures) : captures :=
  match i, c with
  | O, _ :: r => Some t :: r
  | O, [] => [Some t]
  | S j, x :: r => x :: set_capture j t r
  | S j, [] => None :: set_capture j t []
  end.

Definition capture (i : nat) (c : captures) : value :=
  match nth i c None with
  | Some t => JStr t
  | None => JUndefined
  end.

(** What was read between the input [s] and its suffix [s']. *)
Definition consumed (s s' : text) : text := firstn (length s - length s') s.

Fixpoint match_lit (l s : text) : option text :=
  match l, s with
  | [], _ => Some s
  | x :: l', y :: s' => if x =? y then match_lit l' s' else None
  | _ :: _, [] => None
  end.

Section Backtracking.
Context {R : Type}.

(** [c*]: as many as possible, giving back one at a time. *)
Fixpoint star_greedy (cls : code_unit -> bool) (k : text -> option R)
  (s : text) : option R :=
  match s with
  | c :: r =>
      if cls c then
        match star_greedy cls k r with
        | Some x => Some x
        | None => k s
        end
      else k s
  | [] => k []
  end.

(** [c*?]: as few as possible, taking one more at a time. *)
Fixpoint star_lazy (cls : code_unit -> bool) (k : text -> option R)
  (s : text) : option R :=
  match k s with
  | Some x => Some x
  | None =>
      match s with
      | c :: r => if cls c then star_lazy cls k r else None
      | [] => None
      end
  end.
End Backtracking.

(** The backtracking matcher, in continuation-passing style: [k] matches
    the rest of the pattern on the rest of the input. *)
Fixpoint run (r : regex) (s : text) (c : captures)
  (k : text -> captures -> option (text * captures)) : option (text * captures) :=
  match r with
  | Lit l =>
      match match_lit l s with
      | Some s' => k s' c
      | None => None
      end
  | Star g cls =>
      (if g then star_greedy else star_lazy) cls (fun s' => k s' c) s
  | Seq r1 r2 => run r1 s c (fun s1 c1 => run r2 s1 c1 k)
  | Alt r1 r2 =>
      match run r1 s c k with
      | Some x => Some x
      | None => run r2 s c k
      end
  | Group i r1 => run r1 s c (fun s' c' => k s' (set_capture i (consumed s s') c'))
  end.

(** The array that [String.prototype.match] returns for a pattern without
    the [g] flag (the match, then the groups), and its [index]. *)
Record match_result := {
  index : nat;
  groups : captures
}.

Definition match_here (re : regex) (s : text) : option (text * captures) :=
  run re s [None; None; None] (fun s' c => Some (s', c)).

(** The leftmost position at which the pattern matches. *)
Fixpoint search (re : regex) (pos : nat) (s : text) : option match_result :=
  match match_here re s with
  | Some (s', c) =>
      Some {| index := pos; groups := set_capture 0 (consumed s s') c |}
  | None =>
      match s with
      | [] => None
      | _ :: r => search re (S pos) r
      end
  end.

Definition String_match (s : text) (re : regex) : option match_result :=
  search re 0 s.

Definition any_unit (c : code_unit) : bool := true.

(** [/```json\s*([\s\S]*?)\s*```|({[\s\S]*})/] *)
Definition json_regex : regex :=
  Alt (Seq (Lit (u "```json"))
        (Seq (Star true is_space)
          (Seq (Group 1 (Star false any_unit))
            (Seq (Star true is_space) (Lit (u "```"))))))
      (Group 2 (Seq (Lit (u "{")) (Seq (Star true any_unit) (Lit (u "}"))))).

(** ** JSON *)

(** *** Object properties *)

(** The array index that a property key denotes, when it is the canonical
    numeral of an integer below 2^32 - 1. *)
Definition array_index (k : text) : option N :=
  match scan_digits k with
  | ((_ :: _) as ds, []) =>
      let n := digits_N ds in
      if text_eqb (digit_text (N_digits n)) k && (n <? 4294967295)
      then Some n else None
  | _ => None
  end.

Fixpoint obj_replace (k : text) (v : value) (m : list (text * value))
  : list (text * value) :=
  match m with
  | [] => []
  | (k', v') :: r =>
      if text_eqb k k' then (k', v) :: r else (k', v') :: obj_replace k v r
  end.

(** A new property with an array index goes among the indices, in
    ascending order; they come first. *)
Fixpoint insert_index (n : N) (k : text) (v : value) (m : list (text * value))
  : list (text * value) :=
  match m with
  | [] => [(k, v)]
  | (k', v') :: r =>
      match array_index k' with
      | Some n' =>
          if n' <? n then (k', v') :: insert_index n k v r else (k, v) :: m
      | None => (k, v) :: m
      end
  end.

(** [CreateDataProperty]: an existing property keeps its place, a new one
    is enumerated after the others, array indices apart. *)
Definition obj_set (m : list (text * value)) (k : text) (v : value)
  : list (text * value) :=
  if has_own k m then obj_replace k v m
  else match array_index k with
       | Some n => insert_index n k v m
       | None => m ++ [(k, v)]
       end.

(** *** Parsing *)

Definition is_json_space (c : code_unit) : bool :=
  (c =? 32) || (c =? 9) || (c =? 10) || (c =? 13).

Fixpoint skip_ws (s : text) : text :=
  match s with
  | c :: r => if is_json_space c then skip_ws r else s
  | [] => []
  end.

Definition hex_val (c : code_unit) : option N :=
  if is_digit c then Some (c - 48)
  else if (97 <=? c) && (c <=? 102) then Some (c - 87)
  else if (65 <=? c) && (c <=? 70) then Some (c - 55)
  else None.

Definition hex4 (a b c d : code_unit) : option code_unit :=
  match hex_val a, hex_val b, hex_val c, hex_val d with
  | Some x, Some y, Some z, Some w => Some (((x * 16 + y) * 16 + z) * 16 + w)
  | _, _, _, _ => None
  end.

(** The character a one-letter escape stands for. *)
Definition unescape (e : code_unit) : option code_unit :=
  if e =? 34 then Some 34 else if e =? 92 then Some 92
  else if e =? 47 then Some 47 else if e =? 98 then Some 8
  else if e =? 102 then Some 12 else if e =? 110 then Some 10
  else if e =? 114 then Some 13 else if e =? 116 then Some 9
  else None.

(** The characters of a string literal, after its opening quote, and what
    follows the closing quote. *)
Fixpoint parse_chars (s : text) : option (text * text) :=
  match s with
  | [] => None
  | c :: r =>
      if c =? 34 then Some ([], r)
      else if c =? 92 then
        match r with
        | [] => None
        | e :: r1 =>
            if e =? 117 then
              match r1 with
              | h1 :: h2 :: h3 :: h4 :: r2 =>
                  match hex4 h1 h2 h3 h4, parse_chars r2 with
                  | Some x, Some (str, rest) => Some (x :: str, rest)
                  | _, _ => None
                  end
              | _ => None
              end
            else
              match unescape e, parse_chars r1 with
              | Some x, Some (str, rest) => Some (x :: str, rest)
              | _, _ => None
              end
        end
      else if c <? 32 then None
      else
        match parse_chars r with
        | Some (str, rest) => Some (c :: str, rest)
        | None => None
        end
  end.

(** A number literal: an optional minus sign, an integer part without
    superfluous leading zero, an optional fraction and an optional
    exponent. *)
Definition parse_number (s : text) : option (number * text) :=
  let '(neg, s0) :=
    match s with
    | c :: r => if c =? 45 then (true, r) else (false, s)
    | [] => (false, s)
    end in
  let '(ip, s1) := scan_digits s0 in
  let leading_zero :=
    match ip with
    | d :: _ :: _ => d =? 0
    | _ => false
    end in
  match ip with
  | [] => None
  | _ =>
      if leading_zero then None
      else
        let frac :=
          match s1 with
          | c :: r =>
              if c =? 46 then
                match scan_digits r with
                | ([], _) => None
                | (fp, s2) => Some (fp, s2)
                end
              else Some ([], s1)
          | [] => Some ([], [])
          end in
        match frac with
        | None => None
        | Some (fp, s2) =>
            match scan_exponent s2 with
            | Some (x, s3) =>
                Some (make_number neg (ip ++ fp) (x - Z.of_nat (length fp)), s3)
            | None => None
            end
        end
  end.

Inductive parsed :=
| Parsed (v : value) (rest : text)
| Invalid
| OutOfFuel.

(** Recursive descent; [fuel] bounds the nesting of calls, and
    [JSON_parse] gives enough of it. *)
Fixpoint parse_value (fuel : nat) (s : text) : parsed :=
  match fuel with
  | O => OutOfFuel
  | S f =>
      match skip_ws s with
      | [] => Invalid
      | c :: r =>
          if c =? 123 then
            match skip_ws r with
            | c' :: r' =>
                if c' =? 125 then Parsed (JObj []) r' else parse_members f r []
            | [] => Invalid
            end
          else if c =? 91 then
            match skip_ws r with
            | c' :: r' =>
                if c' =? 93 then Parsed (JArr []) r' else parse_elements f r []
            | [] => Invalid
            end
          else if c =? 34 then
            match parse_chars r with
            | Some (str, rest) => Parsed (JStr str) rest
            | None => Invalid
            end
          else
            match match_lit (u "true") (c :: r), match_lit (u "false") (c :: r),
                  match_lit (u "null") (c :: r) with
            | Some rest, _, _ => Parsed (JBool true) rest
            | _, Some rest, _ => Parsed (JBool false) rest
            | _, _, Some rest => Parsed JNull rest
            | None, None, None =>
                match parse_number (c :: r) with
                | Some (n, rest) => Parsed (JNum n) rest
                | None => Invalid
                end
            end
      end
  end

(** Elements of an array, [acc] holding those read so far, last first. *)
with parse_elements (fuel : nat) (s : text) (acc : list value) : parsed :=
  match fuel with
  | O => OutOfFuel
  | S f =>
      match parse_value f s with
      | Parsed v rest =>
          match skip_ws rest with
          | c :: r =>
              if c =? 44 then parse_elements f r (v :: acc)
              else if c =? 93 then Parsed (JArr (rev (v :: acc))) r
              else Invalid
          | [] => Invalid
          end
      | other => other
      end
  end

(** Members of an object, [acc] being the object built so far. *)
with parse_members (fuel : nat) (s : text) (acc : list (text * value)) : parsed :=
  match fuel with
  | O => OutOfFuel
  | S f =>
      match skip_ws s with
      | c :: r =>
          if c =? 34 then
            match parse_chars r with
            | Some (key, rest) =>
                match skip_ws rest with
                | c1 :: r1 =>
                    if c1 =? 58 then
                      match parse_value f r1 with
                      | Parsed v rest2 =>
                          match skip_ws rest2 with
                          | c2 :: r2 =>
                              if c2 =? 44 then
                                parse_members f r2 (obj_set acc key v)
                              else if c2 =? 125 then
                                Parsed (JObj (obj_set acc key v)) r2
                              else Invalid
                          | [] => Invalid
                          end
                      | other => other
                      end
                    else Invalid
                | [] => Invalid
                end
            | None => Invalid
            end
          else Invalid
      | [] => Invalid
      end
  end.

(** [JSON.parse] of a string: one value, white space around it, nothing
    else; a [SyntaxError] otherwise. *)
Definition JSON_parse_text (s : text) : result value :=
  match parse_value (2 * length s + 1) s with
  | Parsed v rest =>
      match skip_ws rest with
      | [] => Ok v
      | _ => Throw SyntaxError
      end
  | _ => Throw SyntaxError
  end.

(** [JSON.parse(x)] converts its argument to a string first. *)
Definition JSON_parse (x : value) : result value :=
  s <- ToString x ;; JSON_parse_text s.

(** *** Serialization *)

Definition hex_digit (d : N) : code_unit := if d <? 10 then 48 + d else 87 + d.

Definition unicode_escape (c : code_unit) : text :=
  [92; 117; hex_digit (c / 4096); hex_digit ((c / 256) mod 16);
   hex_digit ((c / 16) mod 16); hex_digit (c mod 16)].

Definition is_high_surrogate (c : code_unit) : bool :=
  (55296 <=? c) && (c <=? 56319).

Definition is_low_surrogate (c : code_unit) : bool :=
  (56320 <=? c) && (c <=? 57343).

Definition quote_unit (c : code_unit) : text :=
  if c =? 8 then u "\b" else if c =? 9 then u "\t"
  else if c =? 10 then u "\n" else if c =? 12 then u "\f"
  else if c =? 13 then u "\r" else if c =? 34 then [92; 34]
  else if c =? 92 then [92; 92]
  else if c <? 32 then unicode_escape c
  else [c].

(** The inside of [QuoteJSONString]: short escapes, [\uXXXX] for the
    other control characters and for lone surrogates, the rest as is. *)
Fixpoint quote_chars (s : text) : text :=
  match s with
  | [] => []
  | c :: r =>
      if is_high_surrogate c then
        match r with
        | d :: r' =>
            if is_low_surrogate d then c :: d :: quote_chars r'
            else unicode_escape c ++ quote_chars r
        | [] => unicode_escape c
        end
      else if is_low_surrogate c then unicode_escape c ++ quote_chars r
      else quote_unit c ++ quote_chars r
  end.

Definition quote (s : text) : text := 34 :: quote_chars s ++ [34].

Definition finite (n : number) : bool :=
  match n with Zero | Dec _ _ _ => true | NaN | Infinity _ => false end.

Definition is_undefined (v : value) : bool :=
  match v with JUndefined => true | _ => false end.

(** [JSON.stringify] without indentation.  A number that is not finite
    is written [null]; [undefined] is written [null] in an array and
    leaves its property out of an object. *)
Fixpoint serialize (v : value) : text :=
  match v with
  | JUndefined | JNull => u "null"
  | JBool true => u "true"
  | JBool false => u "false"
  | JNum n => if finite n then Number_toString n else u "null"
  | JStr s => quote s
  | JArr l => u "[" ++ join (u ",") (map serialize l) ++ u "]"
  | JObj m =>
      u "{" ++
      join (u ",")
        (flat_map
           (fun kv : text * value =>
              let (k, x) := kv in
              if is_undefined x then []
              else [quote k ++ u ":" ++ serialize x]) m)
      ++ u "}"
  end.


(** ** The response extractor *)

(** [match[1] || match[2]] when the pattern matches: the string handed
    to [JSON.parse], or [undefined]. *)
Definition candidate (t : text) : option value :=
  match String_match t json_regex with
  | None => None
  | Some m => Some (or_else (capture 1 (groups m)) (capture 2 (groups m)))
  end.

Definition extractJson_text (t : text) : value :=
  match candidate t with
  | None => JNull
  | Some jsonString =>
      match JSON_parse jsonString with
      | Ok v => v
      | Throw _ => JNull
      end
  end.

(** [text.match] exists on strings only. *)
Definition extractJson (content : value) : result value :=
  match content with
  | JStr t => Ok (extractJson_text t)
  | _ => Throw TypeError
  end.

(** Whether [extractJson] reports a parse error on the console. *)
Definition extractJson_logs_error (t : text) : bool :=
  match candidate t with
  | None => false
  | Some jsonString =>
      match JSON_parse jsonString with
      | Ok _ => false
      | Throw _ => true
      end
  end.

(** ** The page and the inference client *)

Definition API_KEY_placeholder : text := u "__NUTRI_AI_API_KEY__".

Definition API_URL : text :=
  u "https://models.inference.ai.azure.com/chat/completions".

Definition AI_PROMPT : text :=
  js "Analyze the meal in the image. Respond ONLY with a valid JSON object. Do not include markdown or text outside the JSON. The structure must be: {'items': [{'item': 'string', 'calories': number}], 'nutrition_summary': {'total_calories': number, 'macronutrients': {'protein_g': number, 'carbs_g': number, 'fat_g': number, 'fiber_g': number}, 'micronutrients': {'sugar_g': number, 'sodium_mg': number}}, 'general_summary': 'string', 'confidence_score': 'string (High, Medium, or Low)', 'health_tips': 'string'}".

(** The elements of class [view]. *)
Inductive screen := InitialView | CameraView | LoadingView | ResultsView.

(** What the script does to the world outside the page. *)
Inductive effect :=
| Alert (msg : text)
| ConsoleError (label : text) (e : exn)
| Fetch (url : text) (authorization : text) (body : text).

(** A media stream is the list of its tracks, [true] for a live track;
    the page refers to streams by their position in [streams]. *)
Record page := {
  streams : list (list bool);
  currentStream : option nat;
  cameraStream_srcObject : option nat;
  imagePreview_src : text;
  uploadPhotoInput_value : text;
  resultsContent_innerHTML : option view;
  results_view_visible : bool;
  active_view : option screen;
  effects : list effect
}.

Definition emit (e : effect) (p : page) : page :=
  {| streams := streams p;
     currentStream := currentStream p;
     cameraStream_srcObject := cameraStream_srcObject p;
     imagePreview_src := imagePreview_src p;
     uploadPhotoInput_value := uploadPhotoInput_value p;
     resultsContent_innerHTML := resultsContent_innerHTML p;
     results_view_visible := results_view_visible p;
     active_view := active_view p;
     effects := effects p ++ [e] |}.

Definition showView (viewId : screen) (p : page) : page :=
  {| streams := streams p;
     currentStream := currentStream p;
     cameraStream_srcObject := cameraStream_srcObject p;
     imagePreview_src := imagePreview_src p;
     uploadPhotoInput_value := uploadPhotoInput_value p;
     resultsContent_innerHTML := resultsContent_innerHTML p;
     results_view_visible := results_view_visible p;
     active_view := Some viewId;
     effects := effects p |}.

(** [stream.getTracks().forEach(track => track.stop())] on stream [i]. *)
Fixpoint stop_tracks (i : nat) (ss : list (list bool)) : list (list bool) :=
  match i, ss with
  | _, [] => []
  | O, tracks :: r => map (fun _ => false) tracks :: r
  | S j, tracks :: r => tracks :: stop_tracks j r
  end.

Definition resetToInitialView (p : page) : page :=
  showView InitialView
    {| streams :=
         match currentStream p with
         | Some i => stop_tracks i (streams p)
         | None => streams p
         end;
       currentStream := None;
       cameraStream_srcObject := None;
       imagePreview_src := [];
       uploadPhotoInput_value := [];
       resultsContent_innerHTML := None;
       results_view_visible := false;
       active_view := active_view p;
       effects := effects p |}.

(** The two DOM writes that end [displayResults]; the class [visible]
    is added by a timer 50 ms later, [results_timer]. *)
Definition show_results (v : view) (p : page) : page :=
  showView ResultsView
    {| streams := streams p;
       currentStream := currentStream p;
       cameraStream_srcObject := cameraStream_srcObject p;
       imagePreview_src := imagePreview_src p;
       uploadPhotoInput_value := uploadPhotoInput_value p;
       resultsContent_innerHTML := Some v;
       results_view_visible := results_view_visible p;
       active_view := active_view p;
       effects := effects p |}.

Definition results_timer (p : page) : page :=
  {| streams := streams p;
     currentStream := currentStream p;
     cameraStream_srcObject := cameraStream_srcObject p;
     imagePreview_src := imagePreview_src p;
     uploadPhotoInput_value := uploadPhotoInput_value p;
     resultsContent_innerHTML := resultsContent_innerHTML p;
     results_view_visible := true;
     active_view := active_view p;
     effects := effects p |}.

(** How the awaited [fetch] settles: rejected (network failure), or a
    response with its status line and body. *)
Inductive fetch_outcome :=
| Rejected (msg : text)
| Responded (status : N) (statusText : text) (body : text).

(** [response.ok]. *)
Definition response_ok (status : N) : bool := (200 <=? status) && (status <=? 299).

(** The request body, before [JSON.stringify]. *)
Definition payload (base64Image : text) : value :=
  JObj [ (u "model", JStr (u "gpt-4-vision-preview"));
         (u "max_tokens", JNum (number_of_Z 1024));
         (u "messages",
          JArr [ JObj [ (u "role", JStr (u "user"));
                        (u "content",
                         JArr [ JObj [ (u "type", JStr (u "text"));
                                       (u "text", JStr AI_PROMPT) ];
                                JObj [ (u "type", JStr (u "image_url"));
                                       (u "image_url",
                                        JObj [ (u "url", JStr base64Image) ]) ] ]) ] ]) ].

(** [data.choices[0].message.content]. *)
Definition completion_content (data : value) : result value :=
  choices <- get data (u "choices") ;;
  choice <- get_first choices ;;
  msg <- get choice (u "message") ;;
  get msg (u "content").

Section Pipeline.
(** The credential constant of the deployed script, and the engine's
    wording of the errors it raises itself. *)
Variable API_KEY : text.
Variable engine_message : exn -> text.

(** [error.message]. *)
Definition message (e : exn) : text :=
  match e with
  | Error msg | FetchRejected msg => msg
  | _ => engine_message e
  end.

(** The body of the [try] block after the request is sent: the view to
    display, or what is thrown. *)
Definition attempt (net : fetch_outcome) : result view :=
  match net with
  | Rejected msg => Throw (FetchRejected msg)
  | Responded status statusText body =>
      if negb (response_ok status) then
        Throw (Error (u "API Error: " ++ Number_toString (number_of_Z (Z.of_N status))
                      ++ u " " ++ statusText))
      else
        data <- JSON_parse_text body ;;
        content <- completion_content data ;;
        jsonData <- extractJson content ;;
        if truthy jsonData then displayResults jsonData
        else Throw (Error (u "Failed to parse JSON from AI response."))
  end.

(** Console output of [extractJson] during the attempt, if it is
    reached. *)
Definition attempt_console (net : fetch_outcome) : list effect :=
  match net with
  | Rejected _ => []
  | Responded status _ body =>
      if negb (response_ok status) then []
      else
        match (data <- JSON_parse_text body ;; completion_content data) with
        | Ok (JStr t) =>
            if extractJson_logs_error t
            then [ConsoleError (u "JSON parsing error:") SyntaxError]
            else []
        | _ => []
        end
  end.

Definition analyzeImage (base64Image : text) (net : fetch_outcome)
  (p : page) : page :=
  if text_eqb API_KEY (u "__API_KEY__") then
    resetToInitialView
      (emit (Alert (u "API key is not configured. Please set it up in your deployment process.")) p)
  else
    let sent :=
      emit (Fetch API_URL (u "Bearer " ++ API_KEY) (serialize (payload base64Image))) p in
    let logged :=
      {| streams := streams sent;
         currentStream := currentStream sent;
         cameraStream_srcObject := cameraStream_srcObject sent;
         imagePreview_src := imagePreview_src sent;
         uploadPhotoInput_value := uploadPhotoInput_value sent;
         resultsContent_innerHTML := resultsContent_innerHTML sent;
         results_view_visible := results_view_visible sent;
         active_view := active_view sent;
         effects := effects sent ++ attempt_console net |} in
    match attempt net with
    | Ok v => show_results v logged
    | Throw error =>
        resetToInitialView
          (emit (Alert (u "Analysis failed: " ++ message error))
             (emit (ConsoleError (u "Analysis failed:") error) logged))
    end.

(** [takePhoto], given the data URL that the canvas yields, and the
    [onloadend] handler of [handleFileUpload], given the file read. *)
Definition takePhoto (imageDataUrl : text) (net : fetch_outcome)
  (p : page) : page :=
  analyzeImage imageDataUrl net (showView LoadingView (resetToInitialView p)).

Definition handleFileUpload (readerResult : text) (net : fetch_outcome)
  (p : page) : page :=
  analyzeImage readerResult net (showView LoadingView p).
End Pipeline.

(** ** Notions of the statements *)

(** *** About the renderer *)

(** A property read that cannot fail the caller: [undefined] where the
    read finds nothing. *)
Definition field (o : value) (k : text) : value :=
  match get o k with
  | Ok v => v
  | Throw _ => JUndefined
  end.

Definition nutrition_summary_of (data : value) : value :=
  field data (u "nutrition_summary").

Definition total_calories_of (data : value) : value :=
  field (nutrition_summary_of data) (u "total_calories").

Definition macronutrients_of (data : value) : value :=
  field (nutrition_summary_of data) (u "macronutrients").

Definition micronutrients_of (data : value) : value :=
  field (nutrition_summary_of data) (u "micronutrients").

(** The macronutrient cell: [${m.x || 0}]. *)
Definition macro_cell (m : value) (k : text) : result text :=
  ToString (or_else (field m k) (JNum Zero)).

(** The micronutrient cell: [${m.x ?? 'N/A'}]. *)
Definition micro_cell (m : value) (k : text) : result text :=
  ToString (coalesce (field m k) (JStr (u "N/A"))).

(** The total-calories cell: [${Math.round(total_calories) || 'N/A'}]. *)
Definition total_cell (total_calories : value) : result text :=
  rounded <- round_value total_calories ;;
  ToString (or_else rounded (JStr (u "N/A"))).

(** How a macronutrient cell reads its field: 0 and a missing value both
    show [0], another number shows as given. *)
Definition shows_macro (m : value) (k : text) (cell : text) : Prop :=
  (field m k = JNum Zero -> cell = u "0") /\
  (field m k = JUndefined -> cell = u "0") /\
  (forall x, field m k = JNum x -> truthy (JNum x) = true ->
     cell = Number_toString x).

(** How a micronutrient cell reads its field: the marker [N/A] for a
    missing ([undefined] or [null]) value and for nothing else, any
    other value as given, so 0 as [0]. *)
Definition shows_micro (m : value) (k : text) (cell : text) : Prop :=
  (nullish (field m k) = true -> cell = u "N/A") /\
  (nullish (field m k) = false -> ToString (field m k) = Ok cell) /\
  (forall x, field m k = JNum x -> cell = Number_toString x) /\
  (field m k = JNum Zero -> cell = u "0") /\
  (field m k = JUndefined -> cell = u "N/A" /\ cell <> u "0").

Definition primitive (v : value) : bool :=
  match v with JArr _ | JObj _ => false | _ => true end.

Definition optional_string (v : value) : bool :=
  match v with JUndefined | JNull | JStr _ => true | _ => false end.

Definition item_ok (it : value) : bool :=
  negb (nullish it) && primitive (field it (u "item"))
  && primitive (field it (u "calories")).

Definition items_ok (items : value) : bool :=
  match items with
  | JUndefined | JNull => true
  | JArr l => forallb item_ok l
  | _ => false
  end.

(** The three containers are there; every leaf is missing or a
    primitive, the confidence label missing or a string, the items
    missing or an array of objects with primitive fields. *)
Definition renderable (data : value) : bool :=
  negb (nullish (nutrition_summary_of data))
  && negb (nullish (macronutrients_of data))
  && negb (nullish (micronutrients_of data))
  && optional_string (field data (u "confidence_score"))
  && primitive (field data (u "health_tips"))
  && primitive (total_calories_of data)
  && primitive (field (macronutrients_of data) (u "protein_g"))
  && primitive (field (macronutrients_of data) (u "carbs_g"))
  && primitive (field (macronutrients_of data) (u "fat_g"))
  && primitive (field (macronutrients_of data) (u "fiber_g"))
  && primitive (field (micronutrients_of data) (u "sugar_g"))
  && primitive (field (micronutrients_of data) (u "sodium_mg"))
  && items_ok (field data (u "items")).

(** *** About the inference client *)

(** The state in which [resetToInitialView] leaves the page [before]:
    initial screen, no stream held, the tracks of the stream that was
    held all stopped, no image left in the preview or the file input, no
    results. *)
Definition fully_reset (before after : page) : Prop :=
  active_view after = Some InitialView /\
  currentStream after = None /\
  cameraStream_srcObject after = None /\
  imagePreview_src after = [] /\
  uploadPhotoInput_value after = [] /\
  resultsContent_innerHTML after = None /\
  results_view_visible after = false /\
  (forall i tracks, currentStream before = Some i ->
     nth_error (streams before) i = Some tracks ->
     nth_error (streams after) i = Some (repeat false (length tracks))).

(** A transport failure: the request is rejected, or the response has a
    status outside 200-299. *)
Definition transport_failed (net : fetch_outcome) : bool :=
  match net with
  | Rejected _ => true
  | Responded status _ _ => negb (response_ok status)
  end.

(** What the notification says about it: the rejection's own message, or
    the status code and text. *)
Definition status_detail (net : fetch_outcome) : text :=
  match net with
  | Rejected msg => msg
  | Responded status statusText _ =>
      u "API Error: " ++ Number_toString (number_of_Z (Z.of_N status))
      ++ u " " ++ statusText
  end.

(** *** The selection rule in the words of the specification *)







(** *** About the parser *)

(** A parse that has an outcome, and that consumed something when it
    read a value. *)
Definition progresses (s : text) (r : parsed) : Prop :=
  match r with
  | OutOfFuel => False
  | Invalid => True
  | Parsed _ rest => (length rest < length s)%nat
  end.

(** Significant digits: at least one, none above 9, no zero in front or
    at the end. *)
Definition normal_digits (ds : list N) : Prop :=
  ds <> [] /\ Forall (fun d => d < 10) ds /\ hd 0 ds <> 0 /\ last ds 0 <> 0.

Definition wf_number (n : number) : Prop :=
  match n with
  | NaN => False
  | Infinity _ | Zero => True
  | Dec _ ds e => normal_digits ds /\ overflows ds e = false
  end.

(** What may follow a number literal: nothing that would continue it. *)
Definition number_stop (rest : text) : Prop :=
  match rest with
  | [] => True
  | c :: _ => is_digit c = false /\ c <> 46 /\ c <> 101 /\ c <> 69
  end.

(** The text of a number literal, from its parts. *)
Definition exp_text (ex : option Z) : text :=
  match ex with
  | None => []
  | Some x => u "e" ++ (if (0 <=? x)%Z then u "+" else u "-") ++ Z_text x
  end.

Definition literal_text (neg : bool) (ip fp : list N) (ex : option Z) : text :=
  (if neg then u "-" else []) ++ digit_text ip
  ++ match fp with [] => [] | _ => u "." ++ digit_text fp end
  ++ exp_text ex.

(** One more character in front of what [parse_chars] reads. *)
Definition and_then (c : N) (r : option (text * text)) : option (text * text) :=
  match r with
  | Some (str, rest) => Some (c :: str, rest)
  | None => None
  end.

(** The first character of a serialized value: no white space and no
    punctuation of the enclosing array or object. *)
Definition value_start (c : N) : Prop :=
  is_json_space c = false /\ c <> 93 /\ c <> 125.

(** The order in which an object enumerates its keys: array indices
    first, in ascending order, then the other keys; no key twice. *)
Fixpoint ordered_keys (ks : list text) : Prop :=
  match ks with
  | [] => True
  | k :: r =>
      ~ In k r /\
      match array_index k with
      | Some n =>
          Forall (fun k' => match array_index k' with
                            | Some n' => n < n'
                            | None => True
                            end) r
      | None => Forall (fun k' => array_index k' = None) r
      end /\
      ordered_keys r
  end.

(** Well-formed values: no [undefined], numbers in normal form, objects
    in enumeration order. *)
Fixpoint wf (v : value) : Prop :=
  match v with
  | JUndefined => False
  | JNull | JBool _ | JStr _ => True
  | JNum n => wf_number n
  | JArr l =>
      (fix all (l : list value) : Prop :=
         match l with
         | [] => True
         | x :: r => wf x /\ all r
         end) l
  | JObj m =>
      ordered_keys (map fst m) /\
      (fix all (m : list (text * value)) : Prop :=
         match m with
         | [] => True
         | (_, x) :: r => wf x /\ all r
         end) m
  end.

(** No [Infinity] anywhere in the value. *)
Fixpoint all_finite (v : value) : bool :=
  match v with
  | JNum n => finite n
  | JArr l =>
      (fix all (l : list value) : bool :=
         match l with
         | [] => true
         | x :: r => all_finite x && all r
         end) l
  | JObj m =>
      (fix all (m : list (text * value)) : bool :=
         match m with
         | [] => true
         | (_, x) :: r => all_finite x && all r
         end) m
  | _ => true
  end.

(** Fuel that suffices to read a value back from its serialization. *)
Fixpoint needed (v : value) : nat :=
  match v with
  | JArr l =>
      S ((fix sum (l : list value) : nat :=
            match l with
            | [] => O
            | x :: r => S (needed x + sum r)
            end) l)
  | JObj m =>
      S ((fix sum (m : list (text * value)) : nat :=
            match m with
            | [] => O
            | (_, x) :: r => S (needed x + sum r)
            end) m)
  | _ => 1%nat
  end.

Definition needed_elements (l : list value) : nat :=
  fold_right (fun x n => S (needed x + n)) O l.

Definition needed_members (m : list (text * value)) : nat :=
  fold_right (fun kv n => S (needed (snd kv) + n)) O m.

(** The text of one member of an object. *)
Definition member_text (kv : text * value) : text :=
  quote (fst kv) ++ u ":" ++ serialize (snd kv).

(** A value is read back from its serialization, whatever follows that
    cannot continue it. *)
Definition reads_back (v : value) : Prop :=
  forall f rest, (needed v <= f)%nat -> number_stop rest ->
    parse_value f (serialize v ++ rest) = Parsed v rest.

(** ** Sample inputs *)

(** The completion text of the specification's extraction example. *)
Definition fenced_meal_text : text :=
  u "```json" ++ nl ++
  js "{'items':[],'nutrition_summary':{'total_calories':500,'macronutrients':{'protein_g':10,'carbs_g':50,'fat_g':20,'fiber_g':5},'micronutrients':{'sugar_g':5,'sodium_mg':300}},'general_summary':'ok','confidence_score':'High','health_tips':'tip'}"
  ++ nl ++ u "```".

(** A glass of water: every quantity is zero, sodium is not reported. *)
Definition water_text : text :=
  js "{'items':[{'item':'Water','calories':0}],'nutrition_summary':{'total_calories':0,'macronutrients':{'protein_g':0,'carbs_g':0,'fat_g':0},'micronutrients':{'sugar_g':0}},'confidence_score':'High'}".

(** Replies without a [nutrition_summary], and without its two inner
    objects. *)
Definition no_summary_text : text := js "{'items':[],'confidence_score':'Low'}".

Definition no_macros_text : text :=
  js "{'nutrition_summary':{'total_calories':120,'micronutrients':{'sugar_g':1}}}".

Definition no_micros_text : text :=
  js "{'nutrition_summary':{'total_calories':120,'macronutrients':{'protein_g':1}}}".

(** A calorie count given as a string. *)
Definition string_total_text : text :=
  js "{'nutrition_summary':{'total_calories':'500','macronutrients':{},'micronutrients':{}}}".





(** A response body whose completion is the given text. *)
Definition response_body (content : text) : text :=
  serialize
    (JObj [ (u "choices",
             JArr [ JObj [ (u "message",
                            JObj [ (u "role", JStr (u "assistant"));
                                   (u "content", JStr content) ]) ] ]) ]).

(** A page in the loading state that still holds a camera stream with
    one live track, and a file name in the file input. *)
Definition busy_page : page :=
  {| streams := [[true]];
     currentStream := Some 0%nat;
     cameraStream_srcObject := Some 0%nat;
     imagePreview_src := u "data:image/jpeg;base64,AAAA";
     uploadPhotoInput_value := u "meal.jpg";
     resultsContent_innerHTML := None;
     results_view_visible := false;
     active_view := Some LoadingView;
     effects := [] |}.

Definition sample_image : text := u "data:image/jpeg;base64,AAAA".

(** Wording of the engine's own errors, for the examples. *)
Definition sample_engine_message (e : exn) : text :=
  match e with
  | TypeError => u "TypeError"
  | SyntaxError => u "SyntaxError"
  | FetchRejected m | Error m => m
  end.

(** ** The PIN gate *)

Definition CORRECT_PIN_placeholder : text := u "__NUTRI_AI_PIN__".

(** The lock screen: the digits entered, the class [filled] of each dot
    of the display, the classes [hidden], [visible] and [shake], and the
    timers that [checkPin] has set and that have not fired yet. *)
Record lock := {
  enteredPin : text;
  pinDots : list bool;
  lockScreen_hidden : bool;
  appContainer_visible : bool;
  pinDisplay_shake : bool;
  shake_timers : nat
}.

(** [dot.classList.toggle('filled', index < enteredPin.length)] on every
    dot. *)
Definition updatePinDisplay (l : lock) : lock :=
  {| enteredPin := enteredPin l;
     pinDots :=
       map (fun index => Nat.ltb index (length (enteredPin l)))
           (seq 0 (length (pinDots l)));
     lockScreen_hidden := lockScreen_hidden l;
     appContainer_visible := appContainer_visible l;
     pinDisplay_shake := pinDisplay_shake l;
     shake_timers := shake_timers l |}.

Definition set_enteredPin (pin : text) (l : lock) : lock :=
  {| enteredPin := pin;
     pinDots := pinDots l;
     lockScreen_hidden := lockScreen_hidden l;
     appContainer_visible := appContainer_visible l;
     pinDisplay_shake := pinDisplay_shake l;
     shake_timers := shake_timers l |}.

(** The callback that [checkPin] hands to [setTimeout]. *)
Definition shake_timeout (l : lock) : lock :=
  updatePinDisplay
    {| enteredPin := [];
       pinDots := pinDots l;
       lockScreen_hidden := lockScreen_hidden l;
       appContainer_visible := appContainer_visible l;
       pinDisplay_shake := false;
       shake_timers := shake_timers l |}.

Section PinGate.
Variable CORRECT_PIN : text.

Definition checkPin (l : lock) : lock :=
  if text_eqb (enteredPin l) CORRECT_PIN then
    {| enteredPin := enteredPin l;
       pinDots := pinDots l;
       lockScreen_hidden := true;
       appContainer_visible := true;
       pinDisplay_shake := pinDisplay_shake l;
       shake_timers := shake_timers l |}
  else
    {| enteredPin := enteredPin l;
       pinDots := pinDots l;
       lockScreen_hidden := lockScreen_hidden l;
       appContainer_visible := appContainer_visible l;
       pinDisplay_shake := true;
       shake_timers := S (shake_timers l) |}.

(** [key] is [e.target.dataset.key]: [None] where the attribute is
    missing. *)
Definition handleKeypadClick (key : option text) (l : lock) : lock :=
  match key with
  | None | Some [] => l
  | Some k =>
      let l1 :=
        if text_eqb k (u "backspace") then
          set_enteredPin (removelast (enteredPin l)) l
        else if Nat.ltb (length (enteredPin l)) 4 then
          set_enteredPin (enteredPin l ++ k) l
        else l in
      let l2 := updatePinDisplay l1 in
      if Nat.eqb (length (enteredPin l2)) 4 then checkPin l2 else l2
  end.

(** What happens on the lock screen: a click on the keypad, or a timer
    of [checkPin] firing. *)
Inductive lock_event :=
| KeyClick (key : option text)
| ShakeTimeout.

Definition lock_step (l : lock) (ev : lock_event) : lock :=
  match ev with
  | KeyClick key => handleKeypadClick key l
  | ShakeTimeout =>
      match shake_timers l with
      | O => l
      | S n =>
          shake_timeout
            {| enteredPin := enteredPin l;
               pinDots := pinDots l;
               lockScreen_hidden := lockScreen_hidden l;
               appContainer_visible := appContainer_visible l;
               pinDisplay_shake := pinDisplay_shake l;
               shake_timers := n |}
      end
  end.

Definition lock_run (l : lock) (evs : list lock_event) : lock :=
  fold_left lock_step evs l.
End PinGate.

(** The lock screen as the page loads, with [n] dots. *)
Definition initial_lock (n : nat) : lock :=
  {| enteredPin := [];
     pinDots := repeat false n;
     lockScreen_hidden := false;
     appContainer_visible := false;
     pinDisplay_shake := false;
     shake_timers := O |}.

(** A keypad whose keys carry one character each, or [backspace]. *)
Definition keypad_key (ev : lock_event) : Prop :=
  match ev with
  | KeyClick (Some k) => length k = 1%nat \/ k = u "backspace"
  | _ => True
  end.

(** The dots show how many digits are entered. *)
Definition dots_show_length (l : lock) : Prop :=
  pinDots l =
    map (fun index => Nat.ltb index (length (enteredPin l)))
        (seq 0 (length (pinDots l))).

(** ** The camera *)

(** How the awaited [getUserMedia] settles: a stream of so many live
    tracks, or a rejection (or, with no [mediaDevices], the [TypeError]
    of the call itself). *)
Inductive camera_outcome :=
| Granted (tracks : nat)
| Refused (err : exn).

Definition startCamera (o : camera_outcome) (p : page) : page :=
  match o with
  | Granted tracks =>
      showView CameraView
        {| streams := streams p ++ [repeat true tracks];
           currentStream := Some (length (streams p));
           cameraStream_srcObject := Some (length (streams p));
           imagePreview_src := imagePreview_src p;
           uploadPhotoInput_value := uploadPhotoInput_value p;
           resultsContent_innerHTML := resultsContent_innerHTML p;
           results_view_visible := results_view_visible p;
           active_view := active_view p;
           effects := effects p |}
  | Refused err =>
      emit (Alert (u "Could not access the camera. Please ensure permissions are granted."))
        (emit (ConsoleError (u "Error accessing camera: ") err) p)
  end.

(** *** About the effects *)

Definition is_alert (e : effect) : bool :=
  match e with Alert _ => true | _ => false end.

Definition is_fetch (e : effect) : bool :=
  match e with Fetch _ _ _ => true | _ => false end.

(** Some track of stream [i] is live. *)
Definition live (i : nat) (p : page) : Prop :=
  exists tracks, nth_error (streams p) i = Some tracks /\ In true tracks.

(** Replies whose JSON is read without error and is falsy. *)
Definition zero_reply : text := u "```json" ++ nl ++ u "0" ++ nl ++ u "```".

(** A reply with an empty fenced block before the object. *)
Definition empty_fence_reply : text :=
  u "```json" ++ nl ++ u "```" ++ nl ++ js "{'items':[]}".


(** *** About the list of items *)

(** The line of one item:
    [<li>${item.item} (~${Math.round(item.calories)} kcal)</li>]. *)
Definition item_line (name : text) (calories : number) : text :=
  u "<li>" ++ name ++ u " (~" ++ Number_toString (Math_round calories)
  ++ u " kcal)</li>".

(** An item that names a dish and gives its calories as a number. *)
Definition item_row (it : value) (row : text * number) : Prop :=
  nullish it = false /\
  field it (u "item") = JStr (fst row) /\
  field it (u "calories") = JNum (snd row).

(** A reply in which the confidence is a number. *)
Definition numeric_confidence_text : text :=
  js "{'items':[],'nutrition_summary':{'total_calories':95,'macronutrients':{},'micronutrients':{}},'confidence_score':0.9}".

(** A reply of two items, one of them with markup in its name. *)
Definition two_items_text : text :=
  js "{'items':[{'item':'Rice <b>bowl</b>','calories':320.5},{'item':'Tea','calories':2}],'nutrition_summary':{'total_calories':322.5,'macronutrients':{},'micronutrients':{}}}".

(** ** The listeners of the application *)

(** [analyzeImage] suspends where it awaits [fetch] (line 165).  Up to
    that point it runs the guard and issues the request; from the
    moment the request settles it runs the rest of the [try] block and
    the [catch] block.  Between its two awaits it touches nothing on the
    page. *)
Section Suspension.
Variable API_KEY : text.
Variable engine_message : exn -> text.

Definition analyzeImage_begin (base64Image : text) (p : page) : page :=
  if text_eqb API_KEY (u "__API_KEY__") then
    resetToInitialView
      (emit (Alert (u "API key is not configured. Please set it up in your deployment process.")) p)
  else
    emit (Fetch API_URL (u "Bearer " ++ API_KEY) (serialize (payload base64Image))) p.

Definition analyzeImage_end (net : fetch_outcome) (p : page) : page :=
  let logged :=
    {| streams := streams p;
       currentStream := currentStream p;
       cameraStream_srcObject := cameraStream_srcObject p;
       imagePreview_src := imagePreview_src p;
       uploadPhotoInput_value := uploadPhotoInput_value p;
       resultsContent_innerHTML := resultsContent_innerHTML p;
       results_view_visible := results_view_visible p;
       active_view := active_view p;
       effects := effects p ++ attempt_console net |} in
  match attempt net with
  | Ok v => show_results v logged
  | Throw error =>
      resetToInitialView
        (emit (Alert (u "Analysis failed: " ++ message engine_message error))
           (emit (ConsoleError (u "Analysis failed:") error) logged))
  end.

(** The uninterrupted runs of script between which the page can be
    observed: [getUserMedia] settles and [startCamera] resumes (lines
    107-113); [takePhoto] runs up to the await of [analyzeImage]; the
    file chosen has been read and the [onloadend] handler of
    [handleFileUpload] runs up to that await; a request settles and
    [analyzeImage] resumes; the back button.  A click on the camera
    button itself changes nothing before its await. *)
Inductive page_event :=
| CameraSettles (o : camera_outcome)
| PhotoTaken (imageDataUrl : text)
| FileRead (readerResult : text)
| RequestSettles (net : fetch_outcome)
| Back.

Definition page_step (p : page) (ev : page_event) : page :=
  match ev with
  | CameraSettles o => startCamera o p
  | PhotoTaken imageDataUrl =>
      analyzeImage_begin imageDataUrl
        (showView LoadingView (resetToInitialView p))
  | FileRead readerResult =>
      analyzeImage_begin readerResult (showView LoadingView p)
  | RequestSettles net => analyzeImage_end net p
  | Back => resetToInitialView p
  end.

Definition page_run (p : page) (evs : list page_event) : page :=
  fold_left page_step evs p.

(** Every grant of the camera arrives while no stream is held. *)
Fixpoint granted_when_free (p : page) (evs : list page_event) : Prop :=
  match evs with
  | [] => True
  | ev :: r =>
      match ev with
      | CameraSettles (Granted _) => currentStream p = None
      | _ => True
      end /\ granted_when_free (page_step p ev) r
  end.
End Suspension.

(** The stream held exists, and no other stream has a live track. *)
Definition streams_tidy (p : page) : Prop :=
  (forall i, currentStream p = Some i -> (i < length (streams p))%nat) /\
  (forall j tracks,
     currentStream p <> Some j ->
     nth_error (streams p) j = Some tracks ->
     Forall (fun track => track = false) tracks).

(** A session: the camera; a photo; a second camera request is
    refused while the analysis is pending; the analysis fails; the
    camera again, and back; then a file, whose analysis fails too. *)
Definition sample_session : list page_event :=
  [CameraSettles (Granted 1);
   PhotoTaken sample_image;
   CameraSettles (Refused TypeError);
   RequestSettles (Rejected (u "Failed to fetch"));
   CameraSettles (Granted 2);
   Back;
   FileRead sample_image;
   RequestSettles (Responded 500 (u "Internal Server Error") [])].

(** The page as it loads. *)
Definition fresh_page : page :=
  {| streams := [];
     currentStream := None;
     cameraStream_srcObject := None;
     imagePreview_src := [];
     uploadPhotoInput_value := [];
     resultsContent_innerHTML := None;
     results_view_visible := false;
     active_view := Some InitialView;
     effects := [] |}.

(** A reply in which prose with a closing brace follows the object. *)
Definition trailing_brace_reply : text :=
  js "{'items':[]}" ++ u " (all values are estimates :-})".

(** The first character of the text, white space apart, does not start
    a number. *)
Definition no_number_start (s : text) : Prop :=
  match skip_ws s with
  | c :: _ => c <> 45 /\ is_digit c = false
  | [] => True
  end.

(** A reply whose fence carries no label. *)
Definition plain_fence_reply : text :=
  u "```" ++ nl ++ js "{'items':[]}" ++ nl ++ u "```".

(** A response in which the service declines: the content is null. *)
Definition refusal_body : text :=
  js "{'choices':[{'message':{'role':'assistant','content':null}}]}".

(** ** Further notions of the statements *)






(** Replies for which the containers matter: protein 0 without
    [micronutrients]; sugar 0 without [macronutrients]. *)
Definition zero_protein_text : text :=
  js "{'nutrition_summary':{'total_calories':120,'macronutrients':{'protein_g':0}}}".

Definition zero_sugar_text : text :=
  js "{'nutrition_summary':{'total_calories':120,'micronutrients':{'sugar_g':0}}}".


(** * Properties *)

Lemma text_eqb_spec a b : reflect (a = b) (text_eqb a b).
Proof.
  revert b; induction a as [|x a IH]; intros [|y b]; simpl;
    try (constructor; congruence).
  destruct (N.eqb_spec x y) as [->|Hn]; simpl.
  - destruct (IH b) as [->|Hn]; constructor; congruence.
  - constructor; congruence.
Qed.

Lemma text_eqb_refl a : text_eqb a a = true.
Proof. destruct (text_eqb_spec a a); congruence. Qed.

Lemma get_field o k v : get o k = Ok v -> field o k = v.
Proof. unfold field; intros ->; reflexivity. Qed.

Lemma get_Ok_present o k v : get o k = Ok v -> nullish o = false.
Proof. destruct o; simpl; congruence. Qed.

Lemma get_present o k : nullish o = false -> get o k = Ok (field o k).
Proof.
  unfold field; destruct o; simpl; try discriminate; intros _;
    try reflexivity; destruct (text_eqb k (u "length")); reflexivity.
Qed.

Ltac bind_inv H :=
  repeat match type of H with
  | bind ?c _ = Ok _ =>
      let E := fresh "E" in
      destruct c eqn:E; simpl in H; [|discriminate H]
  end.

(** Every step of [displayResults] throws a [TypeError] or nothing. *)
Lemma sequence_TypeError {A} (l : list (result A)) e :
  Forall (fun r => forall e', r = Throw e' -> e' = TypeError) l ->
  sequence l = Throw e -> e = TypeError.
Proof.
  induction 1 as [|r l Hr _ IH]; simpl; [discriminate|].
  destruct r as [a|e0]; simpl.
  - destruct (sequence l); simpl; [discriminate|].
    intros [= <-]; apply IH; reflexivity.
  - intros [= <-]; apply Hr; reflexivity.
Qed.

Lemma ToString_TypeError v e : ToString v = Throw e -> e = TypeError.
Proof.
  revert e.
  refine ((fix F (v : value) : forall e, ToString v = Throw e -> e = TypeError :=
            match v with
            | JArr l => _
            | JObj m => _
            | JBool b => _
            | _ => _
            end) v); simpl; try discriminate.
  - destruct b; discriminate.
  - intros e H.
    destruct (sequence _) eqn:E in H; simpl in H; [discriminate|].
    injection H as <-.
    eapply sequence_TypeError; [|exact E].
    clear E. induction l as [|x l IH]; simpl; constructor; auto.
    destruct (nullish x); [discriminate|]. apply F.
  - intros e. destruct (has_own _ _); congruence.
Qed.

Lemma ToNumber_TypeError v e : ToNumber v = Throw e -> e = TypeError.
Proof.
  destruct v as [| |[|]| | | |]; simpl; try discriminate;
    destruct (sequence _) eqn:E || destruct (has_own _ _) eqn:E;
    simpl; try discriminate; intros [= <-].
  - apply (ToString_TypeError (JArr l)). simpl. rewrite E. reflexivity.
  - reflexivity.
Qed.

Lemma get_TypeError o k e : get o k = Throw e -> e = TypeError.
Proof.
  destruct o; simpl; try congruence;
    destruct (text_eqb k (u "length")); discriminate.
Qed.

Lemma round_value_TypeError v e : round_value v = Throw e -> e = TypeError.
Proof.
  unfold round_value. destruct (ToNumber v) eqn:E; simpl; [discriminate|].
  intros [= <-]. eapply ToNumber_TypeError; eassumption.
Qed.

Lemma render_item_TypeError item e : render_item item = Throw e -> e = TypeError.
Proof.
  unfold render_item. intros H.
  repeat match type of H with
  | bind ?c _ = Throw _ =>
      let E := fresh "E" in
      destruct c eqn:E; simpl in H;
      [| injection H as <-;
         first [ eapply get_TypeError; eassumption
               | eapply ToString_TypeError; eassumption
               | eapply round_value_TypeError; eassumption ] ]
  end.
  discriminate.
Qed.

Lemma render_items_TypeError items e :
  render_items items = Throw e -> e = TypeError.
Proof.
  unfold render_items. intros H.
  destruct (truthy items).
  - destruct (get items (u "length")) eqn:E1; simpl in H;
      [| injection H as <-; eapply get_TypeError; eassumption].
    destruct (ToNumber a) eqn:E2; simpl in H;
      [| injection H as <-; eapply ToNumber_TypeError; eassumption].
    destruct (number_gt_zero a0); [|discriminate].
    destruct items; try (injection H as <-; reflexivity).
    destruct (sequence _) eqn:E3 in H; simpl in H; [discriminate|].
    injection H as <-. eapply sequence_TypeError; [|exact E3].
    apply Forall_forall. intros r Hr. apply in_map_iff in Hr.
    destruct Hr as (x & <- & _). apply render_item_TypeError.
  - simpl in H. discriminate.
Qed.

(** What a view returned by [displayResults] holds, cell by cell. *)
Lemma displayResults_inv data v :
  displayResults data = Ok v ->
  nullish (nutrition_summary_of data) = false /\
  nullish (macronutrients_of data) = false /\
  nullish (micronutrients_of data) = false /\
  total_cell (total_calories_of data) = Ok (total_calories_text v) /\
  macro_cell (macronutrients_of data) (u "protein_g") = Ok (protein_text v) /\
  macro_cell (macronutrients_of data) (u "carbs_g") = Ok (carbs_text v) /\
  macro_cell (macronutrients_of data) (u "fat_g") = Ok (fat_text v) /\
  macro_cell (macronutrients_of data) (u "fiber_g") = Ok (fiber_text v) /\
  micro_cell (micronutrients_of data) (u "sugar_g") = Ok (sugar_text v) /\
  micro_cell (micronutrients_of data) (u "sodium_mg") = Ok (sodium_text v) /\
  render_items (field data (u "items")) = Ok (items_html v).
Proof.
  unfold displayResults. intros H. bind_inv H. injection H as <-. simpl.
  unfold total_calories_of, macronutrients_of, micronutrients_of,
    nutrition_summary_of, macro_cell, micro_cell, total_cell.
  repeat match goal with
  | G : get _ _ = Ok _ |- _ =>
      pose proof (get_Ok_present _ _ _ G); apply get_field in G
  end.
  subst. unfold bind.
  repeat match goal with
  | G : _ = Ok _ |- _ => rewrite G; clear G
  end.
  repeat split; assumption.
Qed.

Lemma confidence_class_of_TypeError c e :
  confidence_class_of c = Throw e -> e = TypeError.
Proof.
  unfold confidence_class_of.
  destruct (or_else c (JStr (u "medium"))); congruence.
Qed.

Lemma displayResults_TypeError data e :
  displayResults data = Throw e -> e = TypeError.
Proof.
  unfold displayResults. intros H.
  repeat match type of H with
  | bind ?c _ = Throw _ =>
      let E := fresh "E" in
      destruct c eqn:E; simpl in H;
      [| injection H as <-;
         first [ eapply get_TypeError; eassumption
               | eapply ToString_TypeError; eassumption
               | eapply round_value_TypeError; eassumption
               | eapply confidence_class_of_TypeError; eassumption
               | eapply render_items_TypeError; eassumption ] ]
  end.
  discriminate.
Qed.

Lemma ToString_primitive v :
  primitive v = true -> exists s, ToString v = Ok s.
Proof. destruct v as [| |[|]| | | |]; simpl; try discriminate; eauto. Qed.

Lemma ToNumber_primitive v :
  primitive v = true -> exists n, ToNumber v = Ok n.
Proof. destruct v as [| |[|]| | | |]; simpl; try discriminate; eauto. Qed.

Lemma or_else_primitive a b :
  primitive a = true -> primitive b = true -> primitive (or_else a b) = true.
Proof. unfold or_else; destruct (truthy a); auto. Qed.

Lemma coalesce_primitive a b :
  primitive a = true -> primitive b = true -> primitive (coalesce a b) = true.
Proof. unfold coalesce; destruct (nullish a); auto. Qed.

Lemma round_value_primitive v :
  primitive v = true -> exists n, round_value v = Ok (JNum n).
Proof.
  intros H. destruct (ToNumber_primitive v H) as [n E].
  unfold round_value. rewrite E. simpl. eauto.
Qed.

Lemma render_item_ok it : item_ok it = true -> exists s, render_item it = Ok s.
Proof.
  unfold item_ok, render_item. intros H.
  apply andb_prop in H. destruct H as [H H3].
  apply andb_prop in H. destruct H as [H1 H2].
  apply negb_true_iff in H1.
  rewrite !(get_present it) by assumption. cbn [bind].
  destruct (ToString_primitive _ H2) as [s1 ->]. cbn [bind].
  destruct (round_value_primitive _ H3) as [n ->]. simpl.
  eauto.
Qed.

Lemma render_items_ok items :
  items_ok items = true -> exists s, render_items items = Ok s.
Proof.
  unfold render_items.
  destruct items; simpl; try discriminate; eauto.
  intros H. destruct (number_gt_zero _); cbn [bind]; eauto.
  assert (exists lis, sequence (map render_item l) = Ok lis) as [lis ->].
  { induction l as [|x l IH]; simpl in *; eauto.
    apply andb_prop in H. destruct H as [Hx Hl].
    destruct (render_item_ok x Hx) as [s ->].
    destruct (IH Hl) as [lis ->]. simpl. eauto. }
  simpl. eauto.
Qed.

Lemma field_present_parent o k : nullish (field o k) = false -> nullish o = false.
Proof. destruct o; simpl; auto. Qed.

(** A renderable object is rendered: [displayResults] returns a view. *)
Lemma displayResults_renderable data :
  renderable data = true -> exists v, displayResults data = Ok v.
Proof.
  unfold renderable. intros H.
  repeat match type of H with
  | _ && _ = true => let G := fresh "G" in apply andb_prop in H; destruct H as [H G]
  end.
  rewrite negb_true_iff in *.
  assert (Hd : nullish data = false) by (eapply field_present_parent; exact H).
  unfold displayResults, total_calories_of, macronutrients_of,
    micronutrients_of, nutrition_summary_of in *.
  rewrite !(get_present data) by assumption. cbn [bind].
  rewrite !(get_present (field data (u "nutrition_summary"))) by assumption.
  cbn [bind].
  assert (exists c, confidence_class_of (field data (u "confidence_score")) = Ok c)
    as [c ->].
  { unfold confidence_class_of, or_else.
    destruct (field data (u "confidence_score")) as [| | | |[|]| |];
      simpl in *; try discriminate; eauto. }
  cbn [bind].
  destruct (round_value_primitive _ G6) as [n ->]. cbn [bind].
  repeat
    (rewrite ?get_present by assumption; cbn [bind];
     match goal with
     | |- exists v, bind (ToString ?x) _ = Ok v =>
         let s := fresh "s" in
         let E := fresh "E" in
         assert (exists s, ToString x = Ok s) as [s E];
         [ apply ToString_primitive;
           first [ apply or_else_primitive | apply coalesce_primitive ];
           solve [ assumption | reflexivity
                 | destruct (field data (u "confidence_score"));
                   simpl in *; congruence ]
         | rewrite E; cbn [bind] ]
     | |- exists v, bind (render_items ?x) _ = Ok v =>
         let s := fresh "s" in
         let E := fresh "E" in
         destruct (render_items_ok x) as [s E]; [assumption|];
         rewrite E; cbn [bind]
     end).
  eauto.
Qed.

(** ** The result renderer *)

Lemma total_cell_spec tc s :
  total_cell tc = Ok s ->
  exists n, ToNumber tc = Ok n /\
    s = if truthy (JNum (Math_round n)) then Number_toString (Math_round n)
        else u "N/A".
Proof.
  unfold total_cell, round_value. intros H.
  destruct (ToNumber tc) as [n|] eqn:E; simpl in H; [|discriminate].
  exists n. split; [reflexivity|].
  unfold or_else in H. destruct (truthy (JNum (Math_round n)));
    simpl in H; congruence.
Qed.

(** C2, as the script has it: whenever a view is produced, the
    total-calories field holds the rounded value of [total_calories]
    converted to a number, unless that rounded value is zero or not a
    number, in which case it holds the marker [N/A].  So a number whose
    rounded value is not zero is shown rounded; an absent or [null]
    value, the number 0 and every number that rounds to 0 show [N/A]. *)
Theorem total_calories_shown (data : value) (v : view)
  (Hview : displayResults data = Ok v) :
  (exists n, ToNumber (total_calories_of data) = Ok n /\
     total_calories_text v =
       if truthy (JNum (Math_round n)) then Number_toString (Math_round n)
       else u "N/A") /\
  (forall x, total_calories_of data = JNum x ->
     total_calories_text v =
       match Math_round x with
       | Zero | NaN => u "N/A"
       | r => Number_toString r
       end) /\
  (nullish (total_calories_of data) = true -> total_calories_text v = u "N/A").
Proof.
  apply displayResults_inv in Hview.
  destruct Hview as (_ & _ & _ & Ht & _).
  destruct (total_cell_spec _ _ Ht) as (n & En & Es).
  split; [eauto|]. split.
  - intros x Hx. rewrite Hx in En. simpl in En. injection En as <-.
    rewrite Es. destruct (Math_round x); reflexivity.
  - intros Hn. destruct (total_calories_of data); try discriminate;
      simpl in En; injection En as <-; exact Es.
Qed.

(** A view of the sample reply: 500 kcal is shown as [500]. *)
Lemma total_calories_shown_witness :
  exists v, displayResults (extractJson_text fenced_meal_text) = Ok v /\
    total_calories_text v = u "500".
Proof.
  destruct (displayResults (extractJson_text fenced_meal_text)) as [v|] eqn:E;
    [|vm_compute in E; discriminate].
  exists v. split; [reflexivity|].
  destruct (total_calories_shown _ v E) as (_ & H & _).
  rewrite (H (Dec false [5] 2) eq_refl). reflexivity.
Defined.

(** C2 as stated fails: a total of 0 is a number, and the field shows
    the marker [N/A], not [0]. *)
Lemma total_calories_zero_shows_marker :
  total_calories_of (extractJson_text water_text) = JNum Zero /\
  exists v, displayResults (extractJson_text water_text) = Ok v /\
    total_calories_text v = u "N/A" /\
    total_calories_text v <> Number_toString (Math_round Zero).
Proof.
  split; [reflexivity|].
  eexists. split; [vm_compute; reflexivity|].
  split; [reflexivity|]. vm_compute. discriminate.
Qed.

Lemma nullish_container_throws data :
  nullish (nutrition_summary_of data) = true \/
  nullish (macronutrients_of data) = true \/
  nullish (micronutrients_of data) = true ->
  displayResults data = Throw TypeError.
Proof.
  intros H. destruct (displayResults data) as [v|e] eqn:E.
  - apply displayResults_inv in E. destruct E as (H1 & H2 & H3 & _).
    destruct H as [H|[H|H]]; congruence.
  - f_equal. eapply displayResults_TypeError; eassumption.
Qed.

Lemma macro_cell_spec m k cell :
  macro_cell m k = Ok cell -> shows_macro m k cell.
Proof.
  unfold macro_cell, shows_macro, or_else. intros H. repeat split.
  - intros E. rewrite E in H. simpl in H. congruence.
  - intros E. rewrite E in H. simpl in H. congruence.
  - intros x E T. rewrite E, T in H. simpl in H. congruence.
Qed.

Lemma micro_cell_spec m k cell :
  micro_cell m k = Ok cell -> shows_micro m k cell.
Proof.
  unfold micro_cell, shows_micro, coalesce. intros H.
  split; [|split; [|split; [|split]]].
  - intros E. rewrite E in H. simpl in H. congruence.
  - intros E. rewrite E in H. exact H.
  - intros x E. rewrite E in H. simpl in H. congruence.
  - intros E. rewrite E in H. simpl in H. congruence.
  - intros E. rewrite E in H. simpl in H. injection H as <-.
    split; [reflexivity|]. vm_compute. discriminate.
Qed.

(** ** The inference client *)

Lemma stop_tracks_nth i ss tracks :
  nth_error ss i = Some tracks ->
  nth_error (stop_tracks i ss) i = Some (repeat false (length tracks)).
Proof.
  revert ss; induction i as [|i IH]; intros [|t ss]; simpl; try discriminate.
  - intros [= ->]. f_equal. induction tracks; simpl; congruence.
  - apply IH.
Qed.

Lemma resetToInitialView_fully_reset p : fully_reset p (resetToInitialView p).
Proof.
  unfold fully_reset, resetToInitialView; simpl. repeat split.
  intros i tracks -> H. apply stop_tracks_nth; assumption.
Qed.

Ltac page_fields :=
  unfold show_results, resetToInitialView, showView, emit;
  cbn [streams currentStream cameraStream_srcObject imagePreview_src
       uploadPhotoInput_value resultsContent_innerHTML results_view_visible
       active_view effects].

(** What [analyzeImage] does to the outside world once past its guard. *)
Lemma analyzeImage_effects API_KEY em img net p :
  text_eqb API_KEY (u "__API_KEY__") = false ->
  effects (analyzeImage API_KEY em img net p) =
    effects p
    ++ [Fetch API_URL (u "Bearer " ++ API_KEY) (serialize (payload img))]
    ++ attempt_console net
    ++ match attempt net with
       | Ok _ => []
       | Throw e => [ConsoleError (u "Analysis failed:") e;
                     Alert (u "Analysis failed: " ++ message em e)]
       end.
Proof.
  intros Hk. unfold analyzeImage. rewrite Hk.
  destruct (attempt net); page_fields.
  - rewrite List.app_nil_r, <- List.app_assoc. reflexivity.
  - rewrite <- !List.app_assoc. reflexivity.
Qed.

(** The page on which the [catch] block of [analyzeImage] ends. *)
Lemma analyzeImage_catch API_KEY em img net p e :
  text_eqb API_KEY (u "__API_KEY__") = false ->
  attempt net = Throw e ->
  fully_reset p (analyzeImage API_KEY em img net p).
Proof.
  intros Hk He. unfold analyzeImage. rewrite Hk, He.
  match goal with
  | |- fully_reset _ (resetToInitialView ?q) =>
      pose proof (resetToInitialView_fully_reset q) as H
  end.
  unfold fully_reset in *. revert H. page_fields. exact (fun H => H).
Qed.

Lemma attempt_console_no_alert net msg : ~ In (Alert msg) (attempt_console net).
Proof.
  unfold attempt_console. intros Hin.
  repeat match type of Hin with
  | In _ (match ?x with _ => _ end) => destruct x
  | In _ (if ?x then _ else _) => destruct x
  end; cbn [In] in Hin; intuition discriminate.
Qed.

(** C1 read on the script: the constant of line 23 is
    [__NUTRI_AI_API_KEY__], the guard of [analyzeImage] compares with
    [__API_KEY__]; with the placeholder never replaced the guard lets
    every image through and the request is sent with the placeholder as
    bearer credential; the configuration alert is not raised. *)
Theorem placeholder_key_is_sent (em : exn -> text) (img : text)
  (net : fetch_outcome) (p : page) :
  let p' := analyzeImage API_KEY_placeholder em img net p in
  (exists rest,
     effects p' =
       effects p
       ++ Fetch API_URL (u "Bearer __NUTRI_AI_API_KEY__") (serialize (payload img))
       :: rest) /\
  (forall msg, In (Alert msg) (effects p') ->
     In (Alert msg) (effects p) \/
     exists e, attempt net = Throw e /\
               msg = u "Analysis failed: " ++ message em e).
Proof.
  assert (Hk : text_eqb API_KEY_placeholder (u "__API_KEY__") = false)
    by reflexivity.
  cbv zeta. rewrite (analyzeImage_effects _ em img net p Hk). split.
  - eexists. reflexivity.
  - intros msg Hin.
    apply in_app_or in Hin. destruct Hin as [Hin|Hin]; [auto|].
    apply in_app_or in Hin. destruct Hin as [Hin|Hin];
      [cbn [In] in Hin; intuition discriminate|].
    apply in_app_or in Hin. destruct Hin as [Hin|Hin];
      [exfalso; eapply attempt_console_no_alert; eassumption|].
    destruct (attempt net) as [v|e]; cbn [In] in Hin; [tauto|].
    right. exists e. split; [reflexivity|].
    destruct Hin as [Hin|[Hin|[]]]; congruence.
Qed.

(** The guard does fire for the other constant, [__API_KEY__]: no
    request, the alert, the reset. *)
Lemma guard_constant_blocks em img net p :
  let p' := analyzeImage (u "__API_KEY__") em img net p in
  effects p' =
    effects p ++
    [Alert (u "API key is not configured. Please set it up in your deployment process.")]
  /\ fully_reset p p'.
Proof.
  unfold analyzeImage.
  replace (text_eqb (u "__API_KEY__") (u "__API_KEY__")) with true by reflexivity.
  split; [reflexivity|].
  match goal with
  | |- fully_reset _ (resetToInitialView ?q) =>
      pose proof (resetToInitialView_fully_reset q) as H
  end.
  unfold fully_reset in *. revert H. page_fields. exact (fun H => H).
Qed.

(** C9: an analysis attempt that fails in transport (the request is
    rejected, or the status is not a success) logs the error, notifies
    the user with the status detail, and resets the page: initial
    screen, the stream held (if any) with all its tracks stopped and
    dropped, nothing left in the preview or the file input. *)
Theorem transport_failure_resets (API_KEY : text) (em : exn -> text)
  (img : text) (net : fetch_outcome) (p : page)
  (Hkey : text_eqb API_KEY (u "__API_KEY__") = false)
  (Hfail : transport_failed net = true) :
  let p' := analyzeImage API_KEY em img net p in
  (exists e,
     effects p' =
       effects p ++
       [Fetch API_URL (u "Bearer " ++ API_KEY) (serialize (payload img));
        ConsoleError (u "Analysis failed:") e;
        Alert (u "Analysis failed: " ++ status_detail net)]) /\
  fully_reset p p'.
Proof.
  assert (Ha : exists e, attempt net = Throw e /\
                         message em e = status_detail net /\
                         attempt_console net = []).
  { destruct net as [msg|status statusText body]; simpl in *.
    - eauto.
    - rewrite Hfail. eauto. }
  destruct Ha as (e & Ha & Hm & Hc). cbv zeta. split.
  - exists e. rewrite analyzeImage_effects by assumption.
    rewrite Ha, Hc, Hm. reflexivity.
  - eapply analyzeImage_catch; eassumption.
Qed.

(** A simulated HTTP 500 on a page that holds a live camera stream. *)
Lemma transport_failure_resets_witness :
  let p' := analyzeImage (u "sk-live-key") sample_engine_message sample_image
              (Responded 500 (u "Internal Server Error") []) busy_page in
  (exists e,
     effects p' =
       [Fetch API_URL (u "Bearer sk-live-key") (serialize (payload sample_image));
        ConsoleError (u "Analysis failed:") e;
        Alert (u "Analysis failed: API Error: 500 Internal Server Error")]) /\
  fully_reset busy_page p'.
Proof.
  exact (transport_failure_resets (u "sk-live-key") sample_engine_message
           sample_image (Responded 500 (u "Internal Server Error") [])
           busy_page eq_refl eq_refl).
Defined.

Lemma extraction_fails t :
  candidate t = None \/
  (exists c e, candidate t = Some c /\ JSON_parse c = Throw e) ->
  extractJson_text t = JNull.
Proof.
  unfold extractJson_text. intros [->|(c & e & -> & ->)]; reflexivity.
Qed.

(** C5: when the completion text holds no candidate, or the candidate
    is not valid JSON, [extractJson] returns [null], and the caller
    takes the failure path of a failed inference: it notifies the user
    and resets to the initial screen. *)
Theorem extraction_failure_resets (API_KEY : text) (em : exn -> text)
  (img : text) (status : N) (statusText body : text) (data : value)
  (t : text) (p : page)
  (Hkey : text_eqb API_KEY (u "__API_KEY__") = false)
  (Hok : response_ok status = true)
  (Hbody : JSON_parse_text body = Ok data)
  (Hcontent : completion_content data = Ok (JStr t))
  (Hfail : candidate t = None \/
           exists c e, candidate t = Some c /\ JSON_parse c = Throw e) :
  let net := Responded status statusText body in
  let p' := analyzeImage API_KEY em img net p in
  extractJson (JStr t) = Ok JNull /\
  effects p' =
    effects p
    ++ [Fetch API_URL (u "Bearer " ++ API_KEY) (serialize (payload img))]
    ++ attempt_console net
    ++ [ConsoleError (u "Analysis failed:")
          (Error (u "Failed to parse JSON from AI response."));
        Alert (u "Analysis failed: Failed to parse JSON from AI response.")] /\
  (forall msg, ~ In (Alert msg) (attempt_console net)) /\
  fully_reset p p'.
Proof.
  pose proof (extraction_fails t Hfail) as Hx.
  assert (Ha : attempt (Responded status statusText body) =
               Throw (Error (u "Failed to parse JSON from AI response."))).
  { unfold attempt. rewrite Hok, Hbody. cbn [negb bind].
    rewrite Hcontent. cbn [bind extractJson]. rewrite Hx. reflexivity. }
  cbv zeta. split; [simpl; congruence|]. split.
  - rewrite analyzeImage_effects by assumption. rewrite Ha. reflexivity.
  - split; [intros msg; apply attempt_console_no_alert|].
    eapply analyzeImage_catch; eassumption.
Qed.

(** A refusal in prose, with no brace in it. *)
Lemma extraction_failure_resets_witness :
  let net := Responded 200 (u "OK") (response_body (u "Sorry, I cannot help.")) in
  let p' := analyzeImage (u "sk-live-key") sample_engine_message sample_image
              net busy_page in
  extractJson (JStr (u "Sorry, I cannot help.")) = Ok JNull /\
  effects p' =
    effects busy_page
    ++ [Fetch API_URL (u "Bearer " ++ u "sk-live-key")
          (serialize (payload sample_image))]
    ++ attempt_console net
    ++ [ConsoleError (u "Analysis failed:")
          (Error (u "Failed to parse JSON from AI response."));
        Alert (u "Analysis failed: Failed to parse JSON from AI response.")] /\
  (forall msg, ~ In (Alert msg) (attempt_console net)) /\
  fully_reset busy_page p'.
Proof.
  eapply (extraction_failure_resets (u "sk-live-key") sample_engine_message
            sample_image 200 (u "OK")
            (response_body (u "Sorry, I cannot help."))
            _ (u "Sorry, I cannot help.") busy_page eq_refl eq_refl).
  - vm_compute. reflexivity.
  - vm_compute. reflexivity.
  - left. vm_compute. reflexivity.
Defined.

(** ** The regular expression of [extractJson] *)

Lemma consumed_app (a b : text) : consumed (a ++ b) b = a.
Proof.
  unfold consumed. rewrite length_app.
  replace (length a + length b - length b)%nat with (length a) by lia.
  rewrite firstn_app, Nat.sub_diag, firstn_all. simpl.
  apply List.app_nil_r.
Qed.

Lemma match_lit_head x l c s : x <> c -> match_lit (x :: l) (c :: s) = None.
Proof. intros H. simpl. destruct (N.eqb_spec x c); congruence. Qed.

Lemma json_regex_needs_opener c r :
  c <> 96 -> c <> 123 -> match_here json_regex (c :: r) = None.
Proof.
  intros H1 H2. unfold match_here, json_regex. cbn [run].
  change (u "```json") with (96 :: u "``json").
  change (u "{") with [123].
  rewrite !match_lit_head by congruence. reflexivity.
Qed.

Lemma search_skip re pos pre s :
  Forall (fun c => forall r, match_here re (c :: r) = None) pre ->
  search re pos (pre ++ s) = search re (pos + length pre) s.
Proof.
  intros H. revert pos. induction H as [|c pre Hc _ IH]; intros pos; simpl.
  - rewrite Nat.add_0_r. reflexivity.
  - destruct (pre ++ s) eqn:E; rewrite Hc, IH; f_equal; lia.
Qed.


Section Stars.
Context {R : Type} (k : text -> option R).

(** A greedy star over any character gives back down to the last
    position at which the continuation succeeds. *)
Lemma star_greedy_fails post :
  (forall a b, post = a ++ b -> k b = None) ->
  star_greedy any_unit k post = None.
Proof.
  induction post as [|c post IH]; intros H; simpl.
  - apply (H [] []). reflexivity.
  - rewrite IH.
    + apply (H [] (c :: post)). reflexivity.
    + intros a b ->. apply (H (c :: a) b). reflexivity.
Qed.

Lemma star_greedy_last mid x post r :
  (forall a b, post = a ++ b -> k b = None) ->
  k (x :: post) = Some r ->
  star_greedy any_unit k (mid ++ x :: post) = Some r.
Proof.
  intros Hpost Hx. induction mid as [|c mid IH]; simpl.
  - rewrite star_greedy_fails by assumption. exact Hx.
  - rewrite IH. reflexivity.
Qed.

(** A greedy star over a class reads the whole run when the
    continuation succeeds after it. *)
Lemma star_greedy_run cls ws s r :
  Forall (fun c => cls c = true) ws ->
  match s with [] => True | c :: _ => cls c = false end ->
  k s = Some r ->
  star_greedy cls k (ws ++ s) = Some r.
Proof.
  intros Hws Hs Hk. induction Hws as [|c ws Hc _ IH]; simpl.
  - destruct s as [|c s]; [exact Hk|]. simpl. rewrite Hs. exact Hk.
  - rewrite Hc, IH. reflexivity.
Qed.

(** A lazy star stops at the first position at which the continuation
    succeeds. *)
Lemma star_lazy_first a s r :
  (forall a1 c a2, a = a1 ++ c :: a2 -> k (c :: a2 ++ s) = None) ->
  k s = Some r ->
  star_lazy any_unit k (a ++ s) = Some r.
Proof.
  intros Ha Hk. induction a as [|c a IH]; simpl.
  - destruct s; simpl; rewrite Hk; reflexivity.
  - rewrite (Ha [] c a eq_refl). simpl. apply IH.
    intros a1 c' a2 ->. apply (Ha (c :: a1) c' a2). reflexivity.
Qed.
End Stars.

(** The brace alternative, at an opening brace: up to the last closing
    brace of the text. *)
Lemma brace_match_here mid post :
  ~ In 125 post ->
  match_here json_regex (123 :: mid ++ 125 :: post) =
    Some (post, [None; None; Some (123 :: mid ++ [125])]).
Proof.
  intros Hpost. unfold match_here, json_regex. cbn [run].
  change (u "```json") with (96 :: u "``json").
  rewrite match_lit_head by discriminate.
  change (u "{") with [123]. change (u "}") with [125].
  cbn [match_lit]. rewrite N.eqb_refl.
  apply star_greedy_last.
  - intros a b ->. destruct b as [|c b]; [reflexivity|].
    cbn [match_lit]. destruct (N.eqb_spec 125 c) as [<-|]; [|reflexivity].
    exfalso. apply Hpost. apply in_or_app. right. left. reflexivity.
  - cbn [match_lit]. rewrite N.eqb_refl.
    change (123 :: mid ++ 125 :: post) with ((123 :: mid) ++ 125 :: post).
    replace ((123 :: mid) ++ 125 :: post) with (((123 :: mid) ++ [125]) ++ post)
      by (rewrite <- List.app_assoc; reflexivity).
    rewrite consumed_app. reflexivity.
Qed.

(** With an opening brace before any backtick, the candidate runs from
    that brace to the last closing brace. *)
Lemma candidate_brace_span pre mid post :
  ~ In 96 pre -> ~ In 123 pre -> ~ In 125 post ->
  candidate (pre ++ 123 :: mid ++ 125 :: post) = Some (JStr (123 :: mid ++ [125])).
Proof.
  intros H1 H2 H3. unfold candidate, String_match.
  rewrite search_skip.
  - cbn [search]. rewrite brace_match_here by assumption. reflexivity.
  - apply Forall_forall. intros c Hc r. apply json_regex_needs_opener; intros ->; contradiction.
Qed.


Lemma match_lit_app l s : match_lit l (l ++ s) = Some s.
Proof.
  induction l as [|x l IH]; simpl; [destruct s; reflexivity|].
  rewrite N.eqb_refl. exact IH.
Qed.





Ltac not_in :=
  let H := fresh in
  intros H; unfold js, u in H; cbn in H;
  repeat (destruct H as [H|H]; [discriminate H|]); exact H.


(** ** [JSON.parse] has enough fuel *)

Lemma skip_ws_length s : (length (skip_ws s) <= length s)%nat.
Proof.
  induction s as [|c s IH]; simpl; [lia|].
  destruct (is_json_space c); simpl; lia.
Qed.

Lemma scan_digits_length s :
  (length (fst (scan_digits s)) + length (snd (scan_digits s)) = length s)%nat.
Proof.
  induction s as [|c s IH]; simpl; [reflexivity|].
  destruct (is_digit c); simpl; [|reflexivity].
  destruct (scan_digits s); simpl in *; lia.
Qed.

Lemma scan_exponent_length s x r :
  scan_exponent s = Some (x, r) -> (length r <= length s)%nat.
Proof.
  unfold scan_exponent. destruct s as [|c s]; [intros [= <- <-]; simpl; lia|].
  destruct ((c =? 101) || (c =? 69)); [|intros [= <- <-]; lia].
  assert (H : forall t, (length t <= length s)%nat ->
     match scan_digits t with
     | (xs, r2) => match xs with
                   | [] => True
                   | _ => (length r2 <= length (c :: s))%nat
                   end
     end).
  { intros t Ht. pose proof (scan_digits_length t) as L.
    destruct (scan_digits t) as [xs r2]; simpl in *.
    destruct xs; simpl in *; [exact Logic.I|lia]. }
  destruct s as [|d s'].
  - simpl. discriminate.
  - destruct (d =? 43); [|destruct (d =? 45)];
      match goal with
      | |- context [scan_digits ?t] =>
          let L := fresh in
          assert (L : (length t <= length (d :: s'))%nat) by (simpl; lia);
          specialize (H t L); destruct (scan_digits t) as [xs r2]
      end;
      (destruct xs; [discriminate|]; intros [= <- <-]; exact H).
Qed.

Lemma match_lit_length l s r :
  match_lit l s = Some r -> (length r + length l = length s)%nat.
Proof.
  revert s; induction l as [|x l IH]; intros s; simpl.
  - intros [= <-]. lia.
  - destruct s as [|y s]; [discriminate|].
    destruct (x =? y); [|discriminate].
    intros H. apply IH in H. simpl. lia.
Qed.

Lemma parse_chars_length s str rest :
  parse_chars s = Some (str, rest) -> (length rest < length s)%nat.
Proof.
  remember (length s) as n eqn:En. revert s str rest En.
  induction n as [n IH] using lt_wf_ind. intros s str rest En. subst n.
  destruct s as [|c s]; simpl; [discriminate|].
  destruct (c =? 34); [intros [= <- <-]; simpl; lia|].
  destruct (c =? 92).
  - destruct s as [|e r1]; [discriminate|].
    destruct (e =? 117).
    + destruct r1 as [|h1 [|h2 [|h3 [|h4 r2]]]]; try discriminate.
      destruct (hex4 h1 h2 h3 h4); [|discriminate].
      destruct (parse_chars r2) as [[str' rest']|] eqn:E; [|discriminate].
      intros [= <- <-].
      eapply (IH (length r2)) in E; [|simpl; lia|reflexivity].
      simpl. lia.
    + destruct (unescape e); [|discriminate].
      destruct (parse_chars r1) as [[str' rest']|] eqn:E; [|discriminate].
      intros [= <- <-].
      eapply (IH (length r1)) in E; [|simpl; lia|reflexivity].
      simpl. lia.
  - destruct (c <? 32); [discriminate|].
    destruct (parse_chars s) as [[str' rest']|] eqn:E; [|discriminate].
    intros [= <- <-].
    eapply (IH (length s)) in E; [|simpl; lia|reflexivity].
    simpl. lia.
Qed.

Lemma parse_number_length s n rest :
  parse_number s = Some (n, rest) -> (length rest < length s)%nat.
Proof.
  unfold parse_number.
  set (sg := match s with
             | c :: r => if c =? 45 then (true, r) else (false, s)
             | [] => (false, s)
             end).
  assert (Hs0 : (length (snd sg) <= length s)%nat).
  { subst sg. destruct s as [|c r]; simpl; [lia|].
    destruct (c =? 45); simpl; lia. }
  destruct sg as [neg s0]. simpl in Hs0.
  pose proof (scan_digits_length s0) as L0.
  destruct (scan_digits s0) as [ip s1]. simpl in L0.
  destruct ip as [|d ip]; [discriminate|].
  match goal with |- context [if ?b then None else _] => destruct b end;
    [discriminate|].
  match goal with
  | |- match ?f with Some _ => _ | None => None end = _ -> _ =>
      assert (Hf : forall fp s2, f = Some (fp, s2) -> (length s2 <= length s1)%nat);
      [|destruct f as [[fp s2]|]; [|discriminate]]
  end.
  { intros fp s2. destruct s1 as [|c r]; [intros [= <- <-]; lia|].
    destruct (c =? 46); [|intros [= <- <-]; lia].
    pose proof (scan_digits_length r) as L1.
    destruct (scan_digits r) as [[|x xs] r']; [discriminate|].
    intros [= <- <-]. simpl in *. lia. }
  specialize (Hf fp s2 eq_refl).
  destruct (scan_exponent s2) as [[x s3]|] eqn:E; [|discriminate].
  apply scan_exponent_length in E.
  intros [= <- <-]. simpl in *. lia.
Qed.

Lemma progresses_weaken s s' r :
  progresses s' r -> (length s' <= length s)%nat -> progresses s r.
Proof. destruct r; simpl; auto; lia. Qed.

Lemma skip_ws_cons s c r :
  skip_ws s = c :: r -> (length r < length s)%nat.
Proof. intros H. pose proof (skip_ws_length s) as L. rewrite H in L. simpl in L. lia. Qed.

(** With fuel above twice the length of the input, the parser never
    runs out of it, and a value it reads is not empty. *)
Lemma parse_fuel fuel :
  (forall s, (2 * length s + 1 <= fuel)%nat ->
     progresses s (parse_value fuel s)) /\
  (forall s acc, (2 * length s + 2 <= fuel)%nat ->
     progresses s (parse_elements fuel s acc)) /\
  (forall s acc, (2 * length s + 2 <= fuel)%nat ->
     progresses s (parse_members fuel s acc)).
Proof.
  induction fuel as [|f (IHv & IHe & IHm)]; [repeat split; intros; lia|].
  split; [|split].
  - intros s Hf. cbn [parse_value].
    destruct (skip_ws s) as [|c r] eqn:Es; [exact Logic.I|].
    apply skip_ws_cons in Es.
    destruct (c =? 123).
    { destruct (skip_ws r) as [|c' r'] eqn:Er; [exact Logic.I|].
      apply skip_ws_cons in Er.
      destruct (c' =? 125); [simpl; lia|].
      eapply progresses_weaken; [apply IHm|]; lia. }
    destruct (c =? 91).
    { destruct (skip_ws r) as [|c' r'] eqn:Er; [exact Logic.I|].
      apply skip_ws_cons in Er.
      destruct (c' =? 93); [simpl; lia|].
      eapply progresses_weaken; [apply IHe|]; lia. }
    destruct (c =? 34).
    { destruct (parse_chars r) as [[str rest]|] eqn:E; [|exact Logic.I].
      apply parse_chars_length in E. simpl. lia. }
    destruct (match_lit (u "true") (c :: r)) eqn:E1;
      [apply match_lit_length in E1; simpl in *; lia|].
    destruct (match_lit (u "false") (c :: r)) eqn:E2;
      [apply match_lit_length in E2; simpl in *; lia|].
    destruct (match_lit (u "null") (c :: r)) eqn:E3;
      [apply match_lit_length in E3; simpl in *; lia|].
    destruct (parse_number (c :: r)) as [[n rest]|] eqn:E; [|exact Logic.I].
    apply parse_number_length in E. simpl in *. lia.
  - intros s acc Hf. cbn [parse_elements].
    pose proof (IHv s) as Hv.
    destruct (parse_value f s) as [v rest| |]; [|exact Logic.I|apply Hv; lia].
    assert (Hr : (length rest < length s)%nat) by (apply Hv; lia).
    destruct (skip_ws rest) as [|c r] eqn:Er; [exact Logic.I|].
    apply skip_ws_cons in Er.
    destruct (c =? 44).
    { eapply progresses_weaken; [apply IHe|]; lia. }
    destruct (c =? 93); [simpl; lia|exact Logic.I].
  - intros s acc Hf. cbn [parse_members].
    destruct (skip_ws s) as [|c r] eqn:Es; [exact Logic.I|].
    apply skip_ws_cons in Es.
    destruct (c =? 34); [|exact Logic.I].
    destruct (parse_chars r) as [[key rest]|] eqn:E; [|exact Logic.I].
    apply parse_chars_length in E.
    destruct (skip_ws rest) as [|c1 r1] eqn:Er; [exact Logic.I|].
    apply skip_ws_cons in Er.
    destruct (c1 =? 58); [|exact Logic.I].
    pose proof (IHv r1) as Hv.
    destruct (parse_value f r1) as [v rest2| |]; [|exact Logic.I|apply Hv; lia].
    assert (Hr : (length rest2 < length r1)%nat) by (apply Hv; lia).
    destruct (skip_ws rest2) as [|c2 r2] eqn:Er2; [exact Logic.I|].
    apply skip_ws_cons in Er2.
    destruct (c2 =? 44).
    { eapply progresses_weaken; [apply IHm|]; lia. }
    destruct (c2 =? 125); [simpl; lia|exact Logic.I].
Qed.

Lemma JSON_parse_has_fuel s : parse_value (2 * length s + 1) s <> OutOfFuel.
Proof.
  intros H. pose proof (proj1 (parse_fuel (2 * length s + 1)) s (le_n _)) as P.
  rewrite H in P. exact P.
Qed.


(** ** Numbers are read back as written *)

Lemma digit_char_spec d :
  d < 10 -> is_digit (digit_char d) = true /\ digit_val (digit_char d) = d.
Proof.
  intros H. unfold is_digit, digit_char, digit_val. split.
  - apply andb_true_intro. split; apply N.leb_le; lia.
  - lia.
Qed.

Lemma scan_digits_text ds rest :
  Forall (fun d => d < 10) ds ->
  match rest with [] => True | c :: _ => is_digit c = false end ->
  scan_digits (digit_text ds ++ rest) = (ds, rest).
Proof.
  intros Hds Hrest. induction Hds as [|d ds Hd _ IH]; simpl.
  - destruct rest as [|c rest]; [reflexivity|]. simpl. rewrite Hrest. reflexivity.
  - destruct (digit_char_spec d Hd) as [-> ->]. rewrite IH. reflexivity.
Qed.

Lemma uint_digits_lt10 d : Forall (fun x => x < 10) (uint_digits d).
Proof. induction d; simpl; constructor; auto; lia. Qed.

Lemma digits_uint_digits d : digits_uint (uint_digits d) = d.
Proof. induction d; simpl; congruence. Qed.

Lemma digits_N_digits n : digits_N (N_digits n) = n.
Proof.
  unfold digits_N, N_digits. rewrite digits_uint_digits.
  apply DecimalN.Unsigned.of_to.
Qed.

Lemma N_digits_nonempty n : N_digits n <> [].
Proof.
  unfold N_digits. destruct n as [|p]; [cbv; discriminate|].
  pose proof (DecimalPos.Unsigned.to_uint_nonnil p) as H.
  change (N.to_uint (N.pos p)) with (Pos.to_uint p).
  destruct (Pos.to_uint p); simpl; congruence.
Qed.

Lemma strip_trailing_repeat j :
  strip_trailing_zeros (repeat 0 j) = ([], Z.of_nat j).
Proof.
  induction j as [|j IH]; [reflexivity|].
  cbn [repeat strip_trailing_zeros]. rewrite IH. simpl. f_equal. lia.
Qed.

Lemma strip_trailing_normal ds j :
  ds <> [] -> last ds 0 <> 0 ->
  strip_trailing_zeros (ds ++ repeat 0 j) = (ds, Z.of_nat j).
Proof.
  induction ds as [|d ds IH]; [congruence|]. intros _ Hlast.
  cbn [app strip_trailing_zeros]. destruct ds as [|d' ds].
  - cbn [app]. rewrite strip_trailing_repeat. simpl in Hlast.
    destruct (N.eqb_spec d 0); [congruence|reflexivity].
  - rewrite IH; [reflexivity|discriminate|exact Hlast].
Qed.

Lemma strip_leading_head ds :
  hd 0 ds <> 0 -> strip_leading_zeros ds = ds.
Proof.
  destruct ds as [|d ds]; [reflexivity|]. simpl. intros H.
  destruct (N.eqb_spec d 0); congruence.
Qed.

Lemma strip_leading_repeat j ds :
  strip_leading_zeros (repeat 0 j ++ ds) = strip_leading_zeros ds.
Proof. induction j as [|j IH]; [reflexivity|exact IH]. Qed.

(** A number in normal form is what [make_number] makes of its own
    digits, with zeros in front and zeros behind. *)
Lemma make_number_normal neg ds e i j :
  normal_digits ds -> overflows ds e = false ->
  make_number neg (repeat 0 i ++ ds ++ repeat 0 j) (e - Z.of_nat j) = Dec neg ds e.
Proof.
  intros (Hne & _ & Hhd & Hlast) Hov. unfold make_number.
  rewrite strip_leading_repeat.
  rewrite strip_leading_head
    by (destruct ds; [congruence|exact Hhd]).
  destruct (ds ++ repeat 0 j) eqn:E; [destruct ds; [congruence|discriminate]|].
  rewrite <- E. rewrite strip_trailing_normal by assumption.
  replace (e - Z.of_nat j + Z.of_nat j)%Z with e by lia.
  rewrite Hov. reflexivity.
Qed.

Lemma number_stop_digit rest :
  number_stop rest -> match rest with [] => True | c :: _ => is_digit c = false end.
Proof. destruct rest; simpl; tauto. Qed.

Lemma scan_exponent_none rest :
  number_stop rest -> scan_exponent rest = Some (0%Z, rest).
Proof.
  destruct rest as [|c rest]; [reflexivity|]. simpl. intros (_ & _ & H1 & H2).
  destruct (N.eqb_spec c 101); [congruence|].
  destruct (N.eqb_spec c 69); [congruence|]. reflexivity.
Qed.

Lemma scan_exponent_some x rest :
  match rest with [] => True | c :: _ => is_digit c = false end ->
  scan_exponent (exp_text (Some x) ++ rest) = Some (x, rest).
Proof.
  intros Hrest. unfold exp_text, Z_text.
  assert (Hs : scan_digits (digit_text (N_digits (Z.abs_N x)) ++ rest) =
               (N_digits (Z.abs_N x), rest))
    by (apply scan_digits_text; [apply uint_digits_lt10|exact Hrest]).
  pose proof (N_digits_nonempty (Z.abs_N x)) as Hne.
  change (u "e") with [101]. change (u "+") with [43]. change (u "-") with [45].
  destruct (Z.leb_spec 0 x) as [Hx|Hx];
    cbn -[scan_digits N_digits digits_N]; rewrite Hs;
    (destruct (N_digits (Z.abs_N x)) eqn:E; [congruence|]);
    rewrite <- E, digits_N_digits; do 2 f_equal; lia.
Qed.

(** Reading a literal laid out from an integer part, a fraction and an
    exponent. *)
Lemma parse_number_literal neg ip fp ex rest :
  ip <> [] -> Forall (fun d => d < 10) ip -> Forall (fun d => d < 10) fp ->
  match ip with d :: _ :: _ => d <> 0 | _ => True end ->
  number_stop rest ->
  parse_number (literal_text neg ip fp ex ++ rest) =
    Some (make_number neg (ip ++ fp)
            (match ex with Some x => x | None => 0 end - Z.of_nat (length fp)),
          rest).
Proof.
  intros Hne Hip Hfp Hlead Hrest. unfold parse_number, literal_text.
  set (tail := match fp with [] => [] | _ => u "." ++ digit_text fp end
               ++ exp_text ex).
  (* the sign *)
  assert (Hsign :
    match ((if neg then u "-" else []) ++ digit_text ip ++ tail) ++ rest with
    | c :: r => if c =? 45 then (true, r)
                else (false, ((if neg then u "-" else []) ++ digit_text ip ++ tail) ++ rest)
    | [] => (false, ((if neg then u "-" else []) ++ digit_text ip ++ tail) ++ rest)
    end = (neg, digit_text ip ++ tail ++ rest)).
  { destruct neg;
      [change (u "-") with [45]; cbn [app]; rewrite N.eqb_refl, <- List.app_assoc;
       reflexivity|].
    cbn [app]. rewrite <- List.app_assoc.
    destruct ip as [|d ip]; [congruence|]. cbn [digit_text map app].
    inversion Hip as [|? ? Hd _]; subst.
    unfold digit_char. destruct (N.eqb_spec (48 + d) 45); [lia|reflexivity]. }
  rewrite Hsign. clear Hsign.
  (* the integer part *)
  assert (Htail : match tail ++ rest with
                  | [] => True | c :: _ => is_digit c = false end).
  { subst tail. destruct fp; [|reflexivity].
    destruct ex; [reflexivity|]. apply number_stop_digit. exact Hrest. }
  rewrite scan_digits_text by assumption.
  destruct ip as [|d ip]; [congruence|].
  replace (match d :: ip with y :: _ :: _ => y =? 0 | _ => false end)
    with false
    by (destruct ip; [reflexivity|]; destruct (N.eqb_spec d 0); congruence).
  (* the fraction *)
  assert (Hexp : match exp_text ex ++ rest with
                 | [] => True | c :: _ => is_digit c = false end).
  { destruct ex; [reflexivity|]. apply number_stop_digit. exact Hrest. }
  assert (Hfrac :
    match tail ++ rest with
    | c :: r =>
        if c =? 46 then
          match scan_digits r with
          | ([], _) => None
          | (fp', s2) => Some (fp', s2)
          end
        else Some ([], tail ++ rest)
    | [] => Some ([], [])
    end = Some (fp, exp_text ex ++ rest)).
  { subst tail. destruct fp as [|f fp].
    - cbn [app]. destruct ex as [x|]; [reflexivity|].
      cbn [exp_text app]. destruct rest as [|c rest]; [reflexivity|].
      destruct Hrest as (_ & H46 & _).
      destruct (N.eqb_spec c 46); [congruence|reflexivity].
    - change ((u "." ++ digit_text (f :: fp)) ++ exp_text ex)
        with (46 :: (digit_text (f :: fp) ++ exp_text ex)).
      cbn [app]. rewrite N.eqb_refl, <- List.app_assoc.
      rewrite scan_digits_text by assumption. reflexivity. }
  rewrite Hfrac. clear Hfrac.
  (* the exponent *)
  destruct ex as [x|].
  - rewrite scan_exponent_some by (apply number_stop_digit; exact Hrest).
    reflexivity.
  - cbn [exp_text app]. rewrite scan_exponent_none by assumption. reflexivity.
Qed.

Lemma repeat_zero_lt10 j : Forall (fun d => d < 10) (repeat 0 j).
Proof. induction j; simpl; constructor; auto; lia. Qed.

Lemma read_literal neg ds e ip fp ex rest i j :
  Number_toString (Dec neg ds e) = literal_text neg ip fp ex ->
  ip ++ fp = repeat 0 i ++ ds ++ repeat 0 j ->
  (match ex with Some x => x | None => 0 end - Z.of_nat (length fp) =
   e - Z.of_nat j)%Z ->
  ip <> [] ->
  match ip with d :: _ :: _ => d <> 0 | _ => True end ->
  normal_digits ds -> overflows ds e = false -> number_stop rest ->
  parse_number (Number_toString (Dec neg ds e) ++ rest) = Some (Dec neg ds e, rest).
Proof.
  intros Ht Hd He Hne Hlead Hn Hov Hrest.
  assert (Hall : Forall (fun d => d < 10) (ip ++ fp)).
  { rewrite Hd. repeat (apply Forall_app; split);
      [apply repeat_zero_lt10|apply Hn|apply repeat_zero_lt10]. }
  apply Forall_app in Hall. destruct Hall as [Hip Hfp].
  rewrite Ht, parse_number_literal by assumption.
  rewrite Hd, He, make_number_normal by assumption. reflexivity.
Qed.

Lemma digit_text_app a b : digit_text (a ++ b) = digit_text a ++ digit_text b.
Proof. apply map_app. Qed.

(** [JSON.parse] reads a finite number back from [Number::toString]. *)
Lemma Number_toString_reads_back neg ds e rest :
  normal_digits ds -> overflows ds e = false -> number_stop rest ->
  parse_number (Number_toString (Dec neg ds e) ++ rest) = Some (Dec neg ds e, rest).
Proof.
  intros Hn Hov Hrest. pose proof Hn as (Hne & Hlt & Hhd & Hlast).
  set (k := Z.of_nat (length ds)). set (n := (k + e)%Z).
  assert (Hk : (0 < k)%Z) by (subst k; destruct ds; [congruence|simpl; lia]).
  destruct ((k <=? n)%Z && (n <=? 21)%Z) eqn:C1.
  { (* digits, then zeros *)
    pose proof C1 as C1b.
    apply andb_prop in C1b. destruct C1b as [C1b _]. apply Z.leb_le in C1b.
    apply (read_literal neg ds e (ds ++ repeat 0 (Z.to_nat (n - k))) [] None
             rest 0 (Z.to_nat (n - k))); try assumption.
    - unfold Number_toString, literal_text. fold k. fold n.
      rewrite C1, digit_text_app. cbn [exp_text]. rewrite !List.app_nil_r. reflexivity.
    - rewrite List.app_nil_r. reflexivity.
    - simpl. subst n. lia.
    - intros X. destruct ds; [congruence|discriminate X].
    - destruct ds as [|d [|d' ds]]; [congruence| |exact Hhd].
      destruct (Z.to_nat (n - k)); [exact Logic.I|exact Hhd]. }
  destruct ((0 <? n)%Z && (n <=? 21)%Z) eqn:C2.
  { (* a decimal point inside the digits *)
    pose proof C2 as C2b.
    apply andb_prop in C2b. destruct C2b as [C2b C2c]. apply Z.ltb_lt in C2b.
    assert (Hnk : (n < k)%Z).
    { destruct (Z.leb_spec k n); [|assumption]. rewrite C2c in C1.
      discriminate. }
    assert (Hlen : length (skipn (Z.to_nat n) ds) = (length ds - Z.to_nat n)%nat)
      by apply length_skipn.
    apply (read_literal neg ds e (firstn (Z.to_nat n) ds) (skipn (Z.to_nat n) ds)
             None rest 0 0); try assumption.
    - unfold Number_toString, literal_text. fold k. fold n. rewrite C1.
      rewrite C2.
      destruct (skipn (Z.to_nat n) ds) eqn:E;
        [simpl in Hlen; subst k; lia|].
      rewrite <- E. cbn [exp_text]. rewrite !List.app_nil_r. reflexivity.
    - rewrite firstn_skipn. cbn [repeat app]. rewrite List.app_nil_r. reflexivity.
    - rewrite Hlen. subst n k. lia.
    - destruct ds as [|d ds]; [congruence|].
      destruct (Z.to_nat n) eqn:E; [lia|intros X; discriminate X].
    - destruct ds as [|d ds]; [congruence|].
      destruct (Z.to_nat n) as [|[|m]] eqn:E; [lia|exact Logic.I|].
      destruct ds as [|d' ds]; [exact Logic.I|exact Hhd]. }
  destruct ((-6 <? n)%Z && (n <=? 0)%Z) eqn:C3.
  { (* zeros after the decimal point, then the digits *)
    pose proof C3 as C3b.
    apply andb_prop in C3b. destruct C3b as [_ C3b]. apply Z.leb_le in C3b.
    apply (read_literal neg ds e [0] (repeat 0 (Z.to_nat (- n)) ++ ds)
             None rest (S (Z.to_nat (- n))) 0); try assumption.
    - unfold Number_toString, literal_text. fold k. fold n. rewrite C1, C2.
      rewrite C3.
      destruct (repeat 0 (Z.to_nat (- n)) ++ ds) eqn:E;
        [destruct (repeat 0 (Z.to_nat (- n))); [simpl in E; congruence|discriminate E]|].
      rewrite <- E, digit_text_app. cbn [exp_text].
      rewrite !List.app_nil_r. reflexivity.
    - cbn [repeat app]. rewrite List.app_nil_r. reflexivity.
    - rewrite length_app, repeat_length. cbn [Z.of_nat]. subst n k. lia.
    - intros X; discriminate X.
    - exact Logic.I. }
  (* exponent notation *)
  destruct ds as [|d [|d' r]]; [congruence| |].
  - apply (read_literal neg [d] e [d] [] (Some (n - 1)%Z) rest 0 0);
      try assumption.
    + unfold Number_toString, literal_text. fold k. fold n. rewrite C1, C2, C3.
      reflexivity.
    + reflexivity.
    + subst n k. cbn [length]. lia.
    + exact Logic.I.
  - apply (read_literal neg (d :: d' :: r) e [d] (d' :: r) (Some (n - 1)%Z)
             rest 0 0); try assumption.
    + unfold Number_toString, literal_text. fold k. fold n. rewrite C1, C2, C3.
      cbn [digit_text map app]. rewrite <- !List.app_assoc. reflexivity.
    + cbn [repeat app]. rewrite List.app_nil_r. reflexivity.
    + subst n k. cbn [length]. lia.
    + intros X; discriminate X.
    + exact Logic.I.
Qed.

(** ** Strings are read back as quoted *)

Lemma hex_val_digit d : d < 16 -> hex_val (hex_digit d) = Some d.
Proof.
  intros H.
  assert (E : d = 0 \/ d = 1 \/ d = 2 \/ d = 3 \/ d = 4 \/ d = 5 \/ d = 6 \/
              d = 7 \/ d = 8 \/ d = 9 \/ d = 10 \/ d = 11 \/ d = 12 \/
              d = 13 \/ d = 14 \/ d = 15) by lia.
  repeat (destruct E as [->|E]; [reflexivity|]). subst. reflexivity.
Qed.

Lemma hex4_escape c :
  c < 65536 ->
  hex4 (hex_digit (c / 4096)) (hex_digit ((c / 256) mod 16))
       (hex_digit ((c / 16) mod 16)) (hex_digit (c mod 16)) = Some c.
Proof.
  intros H. unfold hex4.
  rewrite !hex_val_digit;
    try (apply N.mod_lt; lia);
    try (apply N.Div0.div_lt_upper_bound; lia).
  f_equal.
  pose proof (N.div_mod c 16 ltac:(lia)).
  pose proof (N.div_mod (c / 16) 16 ltac:(lia)).
  pose proof (N.div_mod (c / 256) 16 ltac:(lia)).
  replace (c / 16 / 16) with (c / 256) in *
    by (rewrite N.Div0.div_div; reflexivity).
  replace (c / 256 / 16) with (c / 4096) in *
    by (rewrite N.Div0.div_div; reflexivity).
  lia.
Qed.

Lemma parse_chars_literal c r :
  c <> 34 -> c <> 92 -> 32 <= c ->
  parse_chars (c :: r) = and_then c (parse_chars r).
Proof.
  intros H1 H2 H3. cbn [parse_chars].
  destruct (N.eqb_spec c 34); [congruence|].
  destruct (N.eqb_spec c 92); [congruence|].
  destruct (N.ltb_spec c 32); [lia|]. reflexivity.
Qed.

Lemma parse_chars_escape e x r :
  unescape e = Some x ->
  parse_chars (92 :: e :: r) = and_then x (parse_chars r).
Proof.
  intros H. cbn [parse_chars]. cbn [N.eqb Pos.eqb].
  destruct (N.eqb_spec e 117) as [->|]; [discriminate H|].
  rewrite H. reflexivity.
Qed.

Lemma parse_chars_unicode c r :
  c < 65536 ->
  parse_chars (unicode_escape c ++ r) = and_then c (parse_chars r).
Proof.
  intros H. unfold unicode_escape. cbn [app parse_chars]. cbn [N.eqb Pos.eqb].
  rewrite hex4_escape by assumption. reflexivity.
Qed.

Lemma quote_unit_reads_back c r :
  is_high_surrogate c = false -> is_low_surrogate c = false ->
  parse_chars (quote_unit c ++ r) = and_then c (parse_chars r).
Proof.
  intros _ _. unfold quote_unit.
  destruct (N.eqb_spec c 8) as [->|]; [apply (parse_chars_escape 98 8); reflexivity|].
  destruct (N.eqb_spec c 9) as [->|]; [apply (parse_chars_escape 116 9); reflexivity|].
  destruct (N.eqb_spec c 10) as [->|]; [apply (parse_chars_escape 110 10); reflexivity|].
  destruct (N.eqb_spec c 12) as [->|]; [apply (parse_chars_escape 102 12); reflexivity|].
  destruct (N.eqb_spec c 13) as [->|]; [apply (parse_chars_escape 114 13); reflexivity|].
  destruct (N.eqb_spec c 34) as [->|]; [apply (parse_chars_escape 34 34); reflexivity|].
  destruct (N.eqb_spec c 92) as [->|]; [apply (parse_chars_escape 92 92); reflexivity|].
  destruct (N.ltb_spec c 32).
  - apply parse_chars_unicode. lia.
  - apply parse_chars_literal; assumption.
Qed.

Lemma parse_quote_chars s rest :
  parse_chars (quote_chars s ++ 34 :: rest) = Some (s, rest).
Proof.
  remember (length s) as n eqn:En. revert s En.
  induction n as [n IH] using lt_wf_ind. intros s En. subst n.
  destruct s as [|c r]; [reflexivity|]. cbn [quote_chars].
  destruct (is_high_surrogate c) eqn:Hh.
  - unfold is_high_surrogate in Hh. apply andb_prop in Hh.
    destruct Hh as [Hh1 Hh2]. apply N.leb_le in Hh1, Hh2.
    destruct r as [|d r'].
    + rewrite parse_chars_unicode by lia. reflexivity.
    + destruct (is_low_surrogate d) eqn:Hl.
      * unfold is_low_surrogate in Hl. apply andb_prop in Hl.
        destruct Hl as [Hl1 Hl2]. apply N.leb_le in Hl1, Hl2.
        cbn [app]. rewrite !parse_chars_literal by lia.
        rewrite (IH (length r')); [reflexivity|simpl; lia|reflexivity].
      * rewrite <- List.app_assoc, parse_chars_unicode by lia.
        rewrite (IH (length (d :: r'))); [reflexivity|simpl; lia|reflexivity].
  - destruct (is_low_surrogate c) eqn:Hl.
    + unfold is_low_surrogate in Hl. apply andb_prop in Hl.
      destruct Hl as [Hl1 Hl2]. apply N.leb_le in Hl1, Hl2.
      rewrite <- List.app_assoc, parse_chars_unicode by lia.
      rewrite (IH (length r)); [reflexivity|simpl; lia|reflexivity].
    + rewrite <- List.app_assoc, quote_unit_reads_back by assumption.
      rewrite (IH (length r)); [reflexivity|simpl; lia|reflexivity].
Qed.

(** ** Values are read back as serialized *)

Lemma value_ind' (P : value -> Prop) :
  P JUndefined -> P JNull -> (forall b, P (JBool b)) ->
  (forall n, P (JNum n)) -> (forall s, P (JStr s)) ->
  (forall l, Forall P l -> P (JArr l)) ->
  (forall m, Forall (fun kv => P (snd kv)) m -> P (JObj m)) ->
  forall v, P v.
Proof.
  intros HU HN HB HNum HS HA HO.
  fix F 1. intros [| |b|n|s|l|m];
    [exact HU|exact HN|apply HB|apply HNum|apply HS| |].
  - apply HA. induction l as [|x l IH]; constructor; [apply F|exact IH].
  - apply HO. induction m as [|[k x] m IH]; constructor; [apply F|exact IH].
Qed.

Lemma wf_JArr l : wf (JArr l) <-> Forall wf l.
Proof.
  simpl. induction l as [|x l IH]; [split; auto|].
  split.
  - intros [Hx Hl]. constructor; [exact Hx|apply IH; exact Hl].
  - intros H. inversion H; subst. split; [assumption|apply IH; assumption].
Qed.

Lemma wf_JObj m :
  wf (JObj m) <-> ordered_keys (map fst m) /\ Forall (fun kv => wf (snd kv)) m.
Proof.
  simpl. apply and_iff_compat_l.
  induction m as [|[k x] m IH]; [split; auto|].
  split.
  - intros [Hx Hl]. constructor; [exact Hx|apply IH; exact Hl].
  - intros H. inversion H; subst. split; [assumption|apply IH; assumption].
Qed.

Lemma all_finite_JArr l :
  all_finite (JArr l) = true <-> Forall (fun x => all_finite x = true) l.
Proof.
  simpl. induction l as [|x l IH]; [split; auto|].
  rewrite andb_true_iff, IH. split.
  - intros [Hx Hl]. constructor; assumption.
  - intros H. inversion H; subst. split; assumption.
Qed.

Lemma all_finite_JObj m :
  all_finite (JObj m) = true <-> Forall (fun kv => all_finite (snd kv) = true) m.
Proof.
  simpl. induction m as [|[k x] m IH]; [split; auto|].
  rewrite andb_true_iff, IH. split.
  - intros [Hx Hl]. constructor; assumption.
  - intros H. inversion H; subst. split; assumption.
Qed.

Lemma needed_JArr l : needed (JArr l) = S (needed_elements l).
Proof.
  induction l as [|x l IH]; [reflexivity|].
  simpl in *. congruence.
Qed.

Lemma needed_JObj m : needed (JObj m) = S (needed_members m).
Proof.
  induction m as [|[k x] m IH]; [reflexivity|].
  simpl in *. congruence.
Qed.

Lemma serialize_JObj m :
  Forall (fun kv => wf (snd kv)) m ->
  serialize (JObj m) = u "{" ++ join (u ",") (map member_text m) ++ u "}".
Proof.
  intros H. cbn [serialize]. do 3 f_equal.
  induction H as [|[k x] m Hx _ IH]; [reflexivity|].
  cbn [flat_map map]. rewrite IH.
  destruct x; try reflexivity. simpl in Hx. contradiction.
Qed.

(** *** Keys in enumeration order *)

Lemma lookup_some k m : In k (map fst m) -> exists v, lookup k m = Some v.
Proof.
  induction m as [|[k' v] m IH]; [contradiction|]. simpl. intros [H|H].
  - subst. rewrite text_eqb_refl. eauto.
  - destruct (text_eqb k k'); eauto.
Qed.

Lemma has_own_spec k m : has_own k m = true <-> In k (map fst m).
Proof.
  unfold has_own. split.
  - intros H. destruct (lookup k m) eqn:E; [|discriminate].
    clear H. induction m as [|[k' v'] m IH]; [discriminate|]. simpl in *.
    destruct (text_eqb_spec k k'); [left; congruence|right; auto].
  - intros H. destruct (lookup_some k m H) as [v ->]. reflexivity.
Qed.

Lemma ordered_keys_prefix a b : ordered_keys (a ++ b) -> ordered_keys a.
Proof.
  induction a as [|k a IH]; [exact (fun _ => Logic.I)|].
  cbn [app ordered_keys]. intros (Hin & Hall & Hrest).
  split; [|split].
  - intros H. apply Hin. apply in_or_app. left. exact H.
  - destruct (array_index k); apply Forall_app in Hall; apply Hall.
  - apply IH. exact Hrest.
Qed.

Lemma ordered_keys_last_notin ks k : ordered_keys (ks ++ [k]) -> ~ In k ks.
Proof.
  induction ks as [|k' ks IH]; [auto|].
  cbn [app ordered_keys]. intros (Hin & _ & Hrest) [H|H].
  - subst. apply Hin. apply in_or_app. right. left. reflexivity.
  - exact (IH Hrest H).
Qed.

Lemma insert_index_last n k x m :
  array_index k = Some n ->
  ordered_keys (map fst m ++ [k]) ->
  insert_index n k x m = m ++ [(k, x)].
Proof.
  intros Hk. induction m as [|[k' v'] m IH]; [reflexivity|].
  cbn [map fst app ordered_keys insert_index]. intros (_ & Hall & Hrest).
  destruct (array_index k') as [n'|].
  - apply Forall_app in Hall. destruct Hall as [_ Hall].
    inversion Hall as [|? ? Hlt _]; subst. rewrite Hk in Hlt.
    destruct (N.ltb_spec n' n); [|lia]. rewrite IH by assumption. reflexivity.
  - apply Forall_app in Hall. destruct Hall as [_ Hall].
    inversion Hall as [|? ? Hnone _]; subst. congruence.
Qed.

(** Setting the next key of an ordered object appends it. *)
Lemma obj_set_append m k x :
  ordered_keys (map fst m ++ [k]) -> obj_set m k x = m ++ [(k, x)].
Proof.
  intros H. unfold obj_set.
  assert (Hn : has_own k m = false).
  { destruct (has_own k m) eqn:E; [|reflexivity].
    apply has_own_spec in E. apply ordered_keys_last_notin in H. contradiction. }
  rewrite Hn. destruct (array_index k) eqn:E; [|reflexivity].
  apply insert_index_last; assumption.
Qed.

(** *** Reading back, case by case *)

Lemma parse_number_head s r :
  parse_number s = Some r ->
  exists c t, s = c :: t /\ (c = 45 \/ is_digit c = true).
Proof.
  unfold parse_number. destruct s as [|c t]; [discriminate|].
  intros H. exists c, t. split; [reflexivity|].
  destruct (N.eqb_spec c 45); [left; assumption|right].
  cbn [scan_digits] in H. destruct (is_digit c); [reflexivity|discriminate].
Qed.

Lemma digit_or_minus_start c :
  c = 45 \/ is_digit c = true ->
  value_start c /\ c <> 123 /\ c <> 91 /\ c <> 34 /\
  c <> 116 /\ c <> 102 /\ c <> 110.
Proof.
  unfold value_start, is_digit, is_json_space. intros [->|H].
  - repeat split; discriminate.
  - apply andb_prop in H. destruct H as [H1 H2]. apply N.leb_le in H1, H2.
    repeat split; try lia.
    repeat (apply orb_false_intro); apply N.eqb_neq; lia.
Qed.

Lemma parse_value_number f s n rest :
  parse_number s = Some (n, rest) ->
  parse_value (S f) s = Parsed (JNum n) rest.
Proof.
  intros H. destruct (parse_number_head _ _ H) as (c & t & -> & Hc).
  destruct (digit_or_minus_start c Hc)
    as ((Hs & _ & _) & H1 & H2 & H3 & H4 & H5 & H6).
  cbn [parse_value skip_ws]. rewrite Hs.
  destruct (N.eqb_spec c 123); [congruence|].
  destruct (N.eqb_spec c 91); [congruence|].
  destruct (N.eqb_spec c 34); [congruence|].
  change (u "true") with (116 :: u "rue").
  change (u "false") with (102 :: u "alse").
  change (u "null") with (110 :: u "ull").
  rewrite !match_lit_head by congruence. rewrite H. reflexivity.
Qed.

Lemma serialized_number_parses n rest :
  wf_number n -> finite n = true -> number_stop rest ->
  parse_number (serialize (JNum n) ++ rest) = Some (n, rest).
Proof.
  intros Hwf Hfin Hstop. cbn [serialize]. rewrite Hfin.
  destruct n as [|neg| |neg ds e]; try discriminate.
  - exact (parse_number_literal false [0] [] None rest
             ltac:(discriminate) ltac:(repeat constructor; lia)
             ltac:(constructor) Logic.I Hstop).
  - destruct Hwf as [Hn Hov]. apply Number_toString_reads_back; assumption.
Qed.

Lemma number_reads_back n : wf_number n -> finite n = true -> reads_back (JNum n).
Proof.
  intros Hwf Hfin f rest Hf Hstop.
  destruct f as [|f]; [simpl in Hf; lia|].
  apply parse_value_number. apply serialized_number_parses; assumption.
Qed.

Lemma string_reads_back s : reads_back (JStr s).
Proof.
  intros f rest Hf _. destruct f as [|f]; [simpl in Hf; lia|].
  cbn [serialize]. unfold quote.
  change ((34 :: quote_chars s ++ [34]) ++ rest)
    with (34 :: ((quote_chars s ++ [34]) ++ rest)).
  rewrite <- List.app_assoc. cbn [app parse_value skip_ws].
  change (is_json_space 34) with false. cbv iota.
  change (34 =? 123) with false. change (34 =? 91) with false.
  change (34 =? 34) with true. cbv iota.
  rewrite parse_quote_chars. reflexivity.
Qed.

Lemma serialize_start v :
  wf v -> all_finite v = true ->
  exists c t, serialize v = c :: t /\ value_start c.
Proof.
  destruct v as [| |[|]|n|s|l|m]; intros Hwf Hfin;
    try contradiction;
    try (do 2 eexists; split; [reflexivity|repeat split; discriminate]).
  pose proof (serialized_number_parses n [] Hwf Hfin Logic.I) as H.
  rewrite List.app_nil_r in H.
  destruct (parse_number_head _ _ H) as (c & t & E & Hc).
  exists c, t. split; [exact E|]. apply digit_or_minus_start. exact Hc.
Qed.

Lemma skip_ws_start c t : value_start c -> skip_ws (c :: t) = c :: t.
Proof. intros (H & _). cbn [skip_ws]. rewrite H. reflexivity. Qed.

Lemma join_cons (sep p : text) (q : text) (r : list text) :
  join sep (p :: q :: r) = p ++ sep ++ join sep (q :: r).
Proof. reflexivity. Qed.

(** The elements of an array, after the opening bracket. *)
Lemma elements_read_back l :
  l <> [] -> Forall reads_back l ->
  forall f acc rest, (needed_elements l <= f)%nat ->
    parse_elements f (join (u ",") (map serialize l) ++ u "]" ++ rest) acc =
      Parsed (JArr (rev acc ++ l)) rest.
Proof.
  intros Hne Hall. induction Hall as [|x l Hx Hl IH]; [congruence|].
  intros f acc rest Hf. cbn [needed_elements fold_right] in Hf.
  destruct f as [|f]; [lia|]. cbn [parse_elements].
  destruct l as [|y l].
  - cbn [map join].
    rewrite Hx; [|lia|repeat split; discriminate].
    change (u "]" ++ rest) with (93 :: rest). cbn [skip_ws].
    change (is_json_space 93) with false. cbv iota.
    change (93 =? 44) with false. change (93 =? 93) with true. cbv iota.
    reflexivity.
  - cbn [map]. rewrite join_cons, <- !List.app_assoc.
    rewrite Hx; [|lia|repeat split; discriminate].
    change (u "," ++ join (u ",") (serialize y :: map serialize l) ++ u "]" ++ rest)
      with (44 :: (join (u ",") (map serialize (y :: l)) ++ u "]" ++ rest)).
    cbn [skip_ws]. change (is_json_space 44) with false. cbv iota.
    change (44 =? 44) with true. cbv iota.
    rewrite IH; [|discriminate|].
    + cbn [rev]. rewrite <- List.app_assoc. reflexivity.
    + fold (needed_elements (y :: l)) in Hf. lia.
Qed.

(** The members of an object, after the opening brace: [acc] is the
    object read so far, in front of those still to read. *)
Lemma members_read_back m :
  m <> [] -> Forall (fun kv => reads_back (snd kv)) m ->
  forall f acc rest, (needed_members m <= f)%nat ->
    ordered_keys (map fst (acc ++ m)) ->
    parse_members f (join (u ",") (map member_text m) ++ u "}" ++ rest) acc =
      Parsed (JObj (acc ++ m)) rest.
Proof.
  intros Hne Hall. induction Hall as [|[k x] m Hx Hm IH]; [congruence|].
  intros f acc rest Hf Hord. cbn [needed_members fold_right snd] in Hf.
  destruct f as [|f]; [lia|]. cbn [parse_members].
  assert (Hset : obj_set acc k x = acc ++ [(k, x)]).
  { apply obj_set_append. rewrite map_app in Hord. cbn [map fst] in Hord.
    replace (map fst acc ++ k :: map fst m)
      with ((map fst acc ++ [k]) ++ map fst m) in Hord
      by (rewrite <- List.app_assoc; reflexivity).
    exact (ordered_keys_prefix _ _ Hord). }
  assert (Hkey : forall tail,
    skip_ws ((member_text (k, x) ++ tail)) = 34 :: (quote_chars k ++ 34 :: 58 :: (serialize x ++ tail))).
  { intros tail. unfold member_text, quote. cbn [fst snd].
    change (u ":") with [58]. cbn [app skip_ws].
    change (is_json_space 34) with false. cbv iota.
    rewrite <- !List.app_assoc. reflexivity. }
  simpl in Hx.
  destruct m as [|[k' y] m].
  - cbn [map join]. rewrite Hkey.
    change (34 =? 34) with true. cbv iota. rewrite parse_quote_chars.
    cbn [skip_ws]. change (is_json_space 58) with false. cbv iota.
    change (58 =? 58) with true. cbv iota.
    rewrite Hx; [|lia|repeat split; discriminate].
    change (u "}" ++ rest) with (125 :: rest). cbn [skip_ws].
    change (is_json_space 125) with false. cbv iota.
    change (125 =? 44) with false. change (125 =? 125) with true. cbv iota.
    rewrite Hset. reflexivity.
  - cbn [map]. rewrite join_cons, <- !List.app_assoc. rewrite Hkey.
    change (34 =? 34) with true. cbv iota. rewrite parse_quote_chars.
    cbn [skip_ws]. change (is_json_space 58) with false. cbv iota.
    change (58 =? 58) with true. cbv iota.
    rewrite Hx; [|lia|repeat split; discriminate].
    change (u "," ++ join (u ",") (member_text (k', y) :: map member_text m)
            ++ u "}" ++ rest)
      with (44 :: (join (u ",") (map member_text ((k', y) :: m)) ++ u "}" ++ rest)).
    cbn [skip_ws]. change (is_json_space 44) with false. cbv iota.
    change (44 =? 44) with true. cbv iota.
    rewrite Hset. rewrite IH.
    + rewrite <- List.app_assoc. reflexivity.
    + discriminate.
    + fold (needed_members ((k', y) :: m)) in Hf. lia.
    + rewrite <- List.app_assoc. exact Hord.
Qed.

Lemma Forall_impl2 {A} (P Q R : A -> Prop) l :
  (forall x, P x -> Q x -> R x) -> Forall P l -> Forall Q l -> Forall R l.
Proof.
  intros H HP. induction HP; intros HQ; inversion HQ; subst; constructor; auto.
Qed.

Lemma join_start (x : value) (l : list value) c t :
  serialize x = c :: t ->
  exists t', join (u ",") (map serialize (x :: l)) = c :: t'.
Proof.
  intros E. destruct l as [|y l]; cbn [map join]; rewrite E; cbn [app]; eauto.
Qed.

(** Every well-formed value without infinite number is read back from
    its serialization. *)
Lemma serialize_reads_back v : wf v -> all_finite v = true -> reads_back v.
Proof.
  induction v as [| |b|n|s|l IH|m IH] using value_ind'; intros Hwf Hfin.
  - contradiction.
  - intros [|f] rest Hf _; [simpl in Hf; lia|reflexivity].
  - intros [|f] rest Hf _; [simpl in Hf; lia|]. destruct b; reflexivity.
  - apply number_reads_back; assumption.
  - apply string_reads_back.
  - apply wf_JArr in Hwf. apply all_finite_JArr in Hfin.
    assert (Hall : Forall reads_back l).
    { pose proof (Forall_impl2 _ _ _ l (fun x Hx Hw => Hx Hw) IH Hwf) as H1.
      exact (Forall_impl2 _ _ _ l (fun x Hx Hw => Hx Hw) H1 Hfin). }
    intros f rest Hf _. rewrite needed_JArr in Hf.
    destruct f as [|f]; [lia|].
    destruct l as [|x l]; [reflexivity|].
    inversion Hwf as [|? ? Hwx _]; inversion Hfin as [|? ? Hfx _]; subst.
    destruct (serialize_start x Hwx Hfx) as (c & t & E & Hc).
    destruct (join_start x l c t E) as [t' Ej].
    cbn [serialize].
    change ((u "[" ++ join (u ",") (map serialize (x :: l)) ++ u "]") ++ rest)
      with (91 :: ((join (u ",") (map serialize (x :: l)) ++ u "]") ++ rest)).
    rewrite <- List.app_assoc.
    cbn [parse_value skip_ws]. change (is_json_space 91) with false. cbv iota.
    change (91 =? 123) with false. change (91 =? 91) with true. cbv iota.
    rewrite Ej at 1. cbn [app]. rewrite skip_ws_start by assumption.
    destruct Hc as (_ & Hc & _).
    destruct (N.eqb_spec c 93); [congruence|].
    rewrite elements_read_back; [reflexivity|discriminate|assumption|lia].
  - apply wf_JObj in Hwf. destruct Hwf as [Hord Hwf].
    apply all_finite_JObj in Hfin.
    assert (Hall : Forall (fun kv => reads_back (snd kv)) m).
    { pose proof (Forall_impl2 _ _ _ m (fun x Hx Hw => Hx Hw) IH Hwf) as H1.
      exact (Forall_impl2 _ _ _ m (fun x Hx Hw => Hx Hw) H1 Hfin). }
    intros f rest Hf _. rewrite needed_JObj in Hf.
    destruct f as [|f]; [lia|].
    rewrite serialize_JObj by assumption.
    destruct m as [|[k x] m]; [reflexivity|].
    change ((u "{" ++ join (u ",") (map member_text ((k, x) :: m)) ++ u "}") ++ rest)
      with (123 :: ((join (u ",") (map member_text ((k, x) :: m)) ++ u "}") ++ rest)).
    rewrite <- List.app_assoc.
    cbn [parse_value skip_ws]. change (is_json_space 123) with false. cbv iota.
    change (123 =? 123) with true. cbv iota.
    assert (Ej : exists t', join (u ",") (map member_text ((k, x) :: m)) = 34 :: t').
    { destruct m as [|kv m]; cbn [map join]; unfold member_text, quote;
        cbn [fst app]; eauto. }
    destruct Ej as [t' Ej]. rewrite Ej at 1. cbn [app skip_ws].
    change (is_json_space 34) with false. cbv iota.
    change (34 =? 125) with false. cbv iota.
    rewrite (members_read_back ((k, x) :: m)); [reflexivity|discriminate|assumption|lia|].
    exact Hord.
Qed.

(** ** What [JSON.parse] builds is well formed *)


Lemma strip_leading_spec (P : N -> Prop) ds :
  Forall P ds ->
  Forall P (strip_leading_zeros ds) /\ hd 1 (strip_leading_zeros ds) <> 0.
Proof.
  induction 1 as [|d ds Hd Hds IH]; simpl; [split; [constructor|discriminate]|].
  destruct (N.eqb_spec d 0); [exact IH|].
  split; [constructor; assumption|exact n].
Qed.

Lemma strip_trailing_spec (P : N -> Prop) ds :
  Forall P ds ->
  let r := fst (strip_trailing_zeros ds) in
  Forall P r /\ (r <> [] -> last r 0 <> 0) /\
  (hd 0 ds <> 0 -> r <> [] /\ hd 0 r = hd 0 ds).
Proof.
  induction 1 as [|d ds Hd Hds IH]; simpl;
    [split; [constructor|split; [congruence|congruence]]|].
  destruct (strip_trailing_zeros ds) as [r' t]. simpl in IH.
  destruct IH as (IH1 & IH2 & _).
  destruct r' as [|x r'].
  - destruct (N.eqb_spec d 0); simpl.
    + split; [constructor|split; congruence].
    + split; [repeat constructor; assumption|].
      split; [intros _; assumption|intros _; split; [discriminate|reflexivity]].
  - simpl. split; [constructor; assumption|].
    split; [intros _; apply IH2; discriminate|].
    intros _. split; [discriminate|reflexivity].
Qed.

Lemma make_number_wf neg ds e :
  Forall (fun d => d < 10) ds -> wf_number (make_number neg ds e).
Proof.
  intros H. unfold make_number.
  destruct (strip_leading_spec _ ds H) as [H1 H2].
  destruct (strip_leading_zeros ds) as [|d ds1] eqn:E; [exact Logic.I|].
  pose proof (strip_trailing_spec _ (d :: ds1) H1) as (T1 & T2 & T3).
  destruct (strip_trailing_zeros (d :: ds1)) as [ds2 t]. simpl in T1, T2, T3.
  simpl in H2. destruct (T3 H2) as [T4 T5].
  destruct (overflows ds2 (e + t)) eqn:Ov; [exact Logic.I|].
  simpl. split; [|exact Ov].
  split; [exact T4|]. split; [exact T1|].
  split; [rewrite T5; exact H2|apply T2; exact T4].
Qed.













(** More fuel does not change an outcome. *)
Lemma parse_fuel_mono f :
  (forall s f', (f <= f')%nat -> parse_value f s <> OutOfFuel ->
     parse_value f' s = parse_value f s) /\
  (forall s acc f', (f <= f')%nat -> parse_elements f s acc <> OutOfFuel ->
     parse_elements f' s acc = parse_elements f s acc) /\
  (forall s acc f', (f <= f')%nat -> parse_members f s acc <> OutOfFuel ->
     parse_members f' s acc = parse_members f s acc).
Proof.
  induction f as [|f (IHv & IHe & IHm)];
    [repeat split; intros; simpl in *; congruence|].
  split; [|split].
  - intros s [|f'] Hf; [lia|]. cbn [parse_value].
    destruct (skip_ws s) as [|c r]; [reflexivity|].
    destruct (c =? 123).
    { destruct (skip_ws r) as [|c' r']; [reflexivity|].
      destruct (c' =? 125); [reflexivity|]. apply IHm. lia. }
    destruct (c =? 91).
    { destruct (skip_ws r) as [|c' r']; [reflexivity|].
      destruct (c' =? 93); [reflexivity|]. apply IHe. lia. }
    reflexivity.
  - intros s acc [|f'] Hf; [lia|]. cbn [parse_elements]. intros H.
    assert (Hv : parse_value f s <> OutOfFuel)
      by (intros E; rewrite E in H; congruence).
    rewrite (IHv s f') by (lia || assumption).
    destruct (parse_value f s) as [x rest1| |]; try reflexivity.
    destruct (skip_ws rest1) as [|c r]; [reflexivity|].
    destruct (c =? 44); [apply IHe; [lia|exact H]|reflexivity].
  - intros s acc [|f'] Hf; [lia|]. cbn [parse_members]. intros H.
    destruct (skip_ws s) as [|c r]; [reflexivity|].
    destruct (c =? 34); [|reflexivity].
    destruct (parse_chars r) as [[key rest1]|]; [|reflexivity].
    destruct (skip_ws rest1) as [|c1 r1]; [reflexivity|].
    destruct (c1 =? 58); [|reflexivity].
    assert (Hv : parse_value f r1 <> OutOfFuel)
      by (intros E; rewrite E in H; congruence).
    rewrite (IHv r1 f') by (lia || assumption).
    destruct (parse_value f r1) as [x rest2| |]; try reflexivity.
    destruct (skip_ws rest2) as [|c2 r2]; [reflexivity|].
    destruct (c2 =? 44); [apply IHm; [lia|exact H]|reflexivity].
Qed.

(** [JSON.parse(JSON.stringify(v))] is [v] for a well-formed value
    without infinite number. *)
Lemma JSON_parse_serialize v :
  wf v -> all_finite v = true -> JSON_parse_text (serialize v) = Ok v.
Proof.
  intros Hwf Hfin. unfold JSON_parse_text.
  set (s := serialize v).
  assert (H : parse_value (2 * length s + 1) s = Parsed v []).
  { pose proof (serialize_reads_back v Hwf Hfin) as Hr.
    destruct (Nat.le_gt_cases (needed v) (2 * length s + 1)) as [Hle|Hgt].
    - specialize (Hr _ [] Hle Logic.I). rewrite List.app_nil_r in Hr. exact Hr.
    - specialize (Hr _ [] (le_n _) Logic.I). rewrite List.app_nil_r in Hr.
      fold s in Hr. rewrite <- Hr. symmetry.
      apply (proj1 (parse_fuel_mono _)); [lia|apply JSON_parse_has_fuel]. }
  rewrite H. reflexivity.
Qed.

(** ** Extraction and serialization *)




(** ** The examples of the specification, evaluated *)

(** The fenced sample reply is extracted, with a total of 500; its empty
    item list renders as the placeholder line. *)
Example fenced_meal_extracted :
  total_calories_of (extractJson_text fenced_meal_text) = JNum (Dec false [5] 2) /\
  exists v, displayResults (extractJson_text fenced_meal_text) = Ok v /\
    items_html v = u "<li>No specific items identified.</li>" /\
    confidence_class v = u "high".
Proof.
  split; [vm_compute; reflexivity|].
  eexists. split; [vm_compute; reflexivity|]. split; reflexivity.
Qed.

(** An item renders with its rounded calories. *)
Example water_item_rendered :
  exists v, displayResults (extractJson_text water_text) = Ok v /\
    items_html v = u "<li>Water (~0 kcal)</li>" /\
    confidence_text v = u "High" /\
    health_tips_text v = u "Enjoy your meal mindfully!".
Proof.
  eexists. split; [vm_compute; reflexivity|]. repeat split.
Qed.

(** A calorie count given as a string is converted and shown. *)
Example string_total_shown :
  exists v, displayResults (extractJson_text string_total_text) = Ok v /\
    total_calories_text v = u "500".
Proof. eexists. split; vm_compute; reflexivity. Qed.

(** [Math.round] and [Number::toString] on a few numbers. *)
Example rounding_examples :
  Number_toString (Math_round (StringToNumber (u "2.5"))) = u "3" /\
  Number_toString (Math_round (StringToNumber (u "-2.5"))) = u "-2" /\
  Math_round (StringToNumber (u "0.49")) = Zero /\
  Number_toString (StringToNumber (u "1e21")) = u "1e+21" /\
  Number_toString (StringToNumber (u "0.0000001")) = u "1e-7" /\
  Number_toString (StringToNumber (u "12.50")) = u "12.5".
Proof. repeat split; vm_compute; reflexivity. Qed.

(** A successful analysis shows the results view and resets nothing. *)
Example successful_analysis :
  let p' := analyzeImage (u "sk-live-key") sample_engine_message sample_image
              (Responded 200 (u "OK") (response_body fenced_meal_text))
              busy_page in
  active_view p' = Some ResultsView /\
  (exists v, resultsContent_innerHTML p' = Some v /\ total_calories_text v = u "500") /\
  (exists body, effects p' = [Fetch API_URL (u "Bearer sk-live-key") body]).
Proof.
  cbv zeta. split; [vm_compute; reflexivity|]. split.
  - eexists. split; vm_compute; reflexivity.
  - eexists. vm_compute. reflexivity.
Qed.

(** ** Replies without a container *)

Lemma truthy_extract_no_log t :
  truthy (extractJson_text t) = true -> extractJson_logs_error t = false.
Proof.
  unfold extractJson_text, extractJson_logs_error.
  destruct (candidate t) as [c|]; [|reflexivity].
  destruct (JSON_parse c); [reflexivity | discriminate].
Qed.

(** C3 read on the script: lines 209-210 destructure
    [nutrition_summary] and lines 222-246 read the properties of
    [macronutrients] and [micronutrients] with no guard, while every
    other field has a default.  A result object that lacks one of the
    three containers is therefore not rendered with fallbacks:
    [displayResults] throws a [TypeError], and a reply that carries such
    an object ends in the [catch] block of [analyzeImage], with the
    engine's message for the error in the alert and the page reset. *)
Theorem absent_container_throws (data : value) :
  nullish (nutrition_summary_of data) = true \/
  nullish (macronutrients_of data) = true \/
  nullish (micronutrients_of data) = true ->
  displayResults data = Throw TypeError /\
  forall (API_KEY : text) (em : exn -> text) (img : text) (status : N)
    (statusText body : text) (reply : value) (t : text) (p : page),
    text_eqb API_KEY (u "__API_KEY__") = false ->
    response_ok status = true ->
    JSON_parse_text body = Ok reply ->
    completion_content reply = Ok (JStr t) ->
    extractJson_text t = data ->
    truthy data = true ->
    let p' := analyzeImage API_KEY em img
                (Responded status statusText body) p in
    effects p' =
      effects p
      ++ [Fetch API_URL (u "Bearer " ++ API_KEY) (serialize (payload img));
          ConsoleError (u "Analysis failed:") TypeError;
          Alert (u "Analysis failed: " ++ em TypeError)] /\
    fully_reset p p'.
Proof.
  intros Habsent.
  pose proof (nullish_container_throws data Habsent) as Hthrow.
  split; [exact Hthrow|].
  intros API_KEY em img status statusText body reply t p
    Hk Hok Hb Hc Ht Htruthy. cbv zeta.
  assert (Ha : attempt (Responded status statusText body) = Throw TypeError).
  { unfold attempt. rewrite Hok, Hb. cbn [negb bind].
    rewrite Hc. cbn [bind extractJson]. rewrite Ht, Htruthy. exact Hthrow. }
  assert (Hl : attempt_console (Responded status statusText body) = []).
  { unfold attempt_console. rewrite Hok, Hb. cbn [negb bind].
    rewrite Hc. rewrite truthy_extract_no_log; [reflexivity|].
    now rewrite Ht. }
  split.
  - rewrite analyzeImage_effects by assumption. rewrite Ha, Hl. reflexivity.
  - eapply analyzeImage_catch; eassumption.
Qed.

(** A reply with calories and sugar but no [macronutrients]. *)
Lemma absent_container_throws_witness :
  displayResults (extractJson_text no_macros_text) = Throw TypeError /\
  let p' := analyzeImage (u "sk-live-key") sample_engine_message sample_image
              (Responded 200 (u "OK") (response_body no_macros_text))
              busy_page in
  effects p' =
    effects busy_page
    ++ [Fetch API_URL (u "Bearer " ++ u "sk-live-key")
          (serialize (payload sample_image));
        ConsoleError (u "Analysis failed:") TypeError;
        Alert (u "Analysis failed: " ++ sample_engine_message TypeError)] /\
  fully_reset busy_page p'.
Proof.
  destruct (absent_container_throws (extractJson_text no_macros_text))
    as [H1 H2].
  { right. left. vm_compute. reflexivity. }
  split; [exact H1|].
  eapply (H2 (u "sk-live-key") sample_engine_message sample_image 200
            (u "OK") (response_body no_macros_text) _ no_macros_text
            busy_page eq_refl eq_refl).
  - vm_compute. reflexivity.
  - vm_compute. reflexivity.
  - reflexivity.
  - vm_compute. reflexivity.
Defined.

(** C6 read on the script: a macronutrient of 0, and a missing one,
    show [0] before the unit [g] in every view that is produced; but
    the view is produced only when the other container is there.  For a
    result object with a macronutrient of 0 and no [micronutrients],
    line 245 throws a [TypeError] and nothing is shown. *)
Theorem zero_macronutrient_needs_micronutrients (data : value) :
  (forall v, displayResults data = Ok v ->
     shows_macro (macronutrients_of data) (u "protein_g") (protein_text v) /\
     shows_macro (macronutrients_of data) (u "carbs_g") (carbs_text v) /\
     shows_macro (macronutrients_of data) (u "fat_g") (fat_text v) /\
     shows_macro (macronutrients_of data) (u "fiber_g") (fiber_text v)) /\
  (forall k, field (macronutrients_of data) k = JNum Zero ->
     nullish (micronutrients_of data) = true ->
     displayResults data = Throw TypeError).
Proof.
  split.
  - intros v Hview. apply displayResults_inv in Hview.
    destruct Hview as (_ & _ & _ & _ & Hp & Hc & Hf & Hb & _).
    repeat split; (eapply macro_cell_spec; eassumption).
  - intros k _ Hn. apply nullish_container_throws. right. right. exact Hn.
Qed.

(** The glass of water: protein 0 and the missing fiber both show [0].
    Protein 0 without [micronutrients]: no view. *)
Lemma zero_macronutrient_needs_micronutrients_witness :
  (exists v, displayResults (extractJson_text water_text) = Ok v /\
     protein_text v = u "0" /\ fiber_text v = u "0") /\
  displayResults (extractJson_text zero_protein_text) = Throw TypeError.
Proof.
  split.
  - destruct (displayResults (extractJson_text water_text)) as [v|] eqn:E;
      [|vm_compute in E; discriminate].
    exists v. split; [reflexivity|].
    destruct (proj1 (zero_macronutrient_needs_micronutrients _) v E)
      as ((Hp & _) & _ & _ & (_ & Hf & _)).
    split; [apply Hp | apply Hf]; reflexivity.
  - apply (proj2 (zero_macronutrient_needs_micronutrients
                    (extractJson_text zero_protein_text)) (u "protein_g")).
    + vm_compute. reflexivity.
    + vm_compute. reflexivity.
Defined.

(** C7 read on the script: sugar and sodium show the given value, and
    the marker [N/A] exactly when the value is missing, in every view
    that is produced; but the view is produced only when both inner
    containers are there.  A result object without [micronutrients]
    (so without [sodium_mg]) makes line 245 throw a [TypeError] instead
    of showing [N/A]; one with a micronutrient of 0 and no
    [macronutrients] makes line 222 throw instead of showing [0]. *)
Theorem missing_micronutrient_needs_containers (data : value) :
  (forall v, displayResults data = Ok v ->
     shows_micro (micronutrients_of data) (u "sugar_g") (sugar_text v) /\
     shows_micro (micronutrients_of data) (u "sodium_mg") (sodium_text v)) /\
  (nullish (micronutrients_of data) = true ->
   field (micronutrients_of data) (u "sodium_mg") = JUndefined /\
   displayResults data = Throw TypeError) /\
  (forall k, field (micronutrients_of data) k = JNum Zero ->
     nullish (macronutrients_of data) = true ->
     displayResults data = Throw TypeError).
Proof.
  split; [|split].
  - intros v Hview. apply displayResults_inv in Hview.
    destruct Hview as (_ & _ & _ & _ & _ & _ & _ & _ & Hs & Hn & _).
    split; (eapply micro_cell_spec; eassumption).
  - intros Hn. split.
    + unfold field. destruct (micronutrients_of data); try discriminate Hn;
        reflexivity.
    + apply nullish_container_throws. right. right. exact Hn.
  - intros k _ Hn. apply nullish_container_throws. right. left. exact Hn.
Qed.

(** The glass of water: sugar 0 shows [0], the missing sodium [N/A].
    No [micronutrients], and sugar 0 without [macronutrients]: no
    view. *)
Lemma missing_micronutrient_needs_containers_witness :
  (exists v, displayResults (extractJson_text water_text) = Ok v /\
     sugar_text v = u "0" /\ sodium_text v = u "N/A") /\
  (field (micronutrients_of (extractJson_text no_micros_text))
     (u "sodium_mg") = JUndefined /\
   displayResults (extractJson_text no_micros_text) = Throw TypeError) /\
  displayResults (extractJson_text zero_sugar_text) = Throw TypeError.
Proof.
  split; [|split].
  - destruct (displayResults (extractJson_text water_text)) as [v|] eqn:E;
      [|vm_compute in E; discriminate].
    exists v. split; [reflexivity|].
    destruct (proj1 (missing_micronutrient_needs_containers _) v E)
      as ((_ & _ & _ & Hs & _) & (Hn & _)).
    split; [apply Hs | apply Hn]; reflexivity.
  - apply (proj1 (proj2 (missing_micronutrient_needs_containers
                           (extractJson_text no_micros_text)))).
    vm_compute. reflexivity.
  - apply (proj2 (proj2 (missing_micronutrient_needs_containers
                           (extractJson_text zero_sugar_text)))
             (u "sugar_g")).
    + vm_compute. reflexivity.
    + vm_compute. reflexivity.
Defined.

(** ** The leftmost match *)

Lemma search_here re pos s s' c :
  match_here re s = Some (s', c) ->
  search re pos s =
    Some {| index := pos; groups := set_capture 0 (consumed s s') c |}.
Proof. intros H. destruct s; simpl; rewrite H; reflexivity. Qed.







(** ** Extracting twice *)



(** ** The PIN gate *)

Lemma updatePinDisplay_shows (l : lock) :
  dots_show_length (updatePinDisplay l).
Proof.
  unfold dots_show_length, updatePinDisplay. simpl.
  now rewrite length_map, length_seq.
Qed.

Lemma removelast_length (A : Type) (l : list A) :
  length (removelast l) = Nat.pred (length l).
Proof.
  induction l as [|x [|y l] IH]; try reflexivity.
  change (removelast (x :: y :: l)) with (x :: removelast (y :: l)).
  change (length (x :: removelast (y :: l)))
    with (S (length (removelast (y :: l)))).
  rewrite IH. reflexivity.
Qed.

Lemma checkPin_enteredPin (pin : text) (l : lock) :
  enteredPin (checkPin pin l) = enteredPin l /\
  pinDots (checkPin pin l) = pinDots l.
Proof. unfold checkPin. now destruct (text_eqb _ _). Qed.

Lemma text_eqb_length (a b : text) :
  text_eqb a b = true -> length a = length b.
Proof. intros H. destruct (text_eqb_spec a b); [now subst | discriminate H]. Qed.

Lemma single_key_not_backspace (k : text) :
  length k = 1%nat -> text_eqb k (u "backspace") = false.
Proof.
  intros H. destruct (text_eqb k (u "backspace")) eqn:E; [|reflexivity].
  apply text_eqb_length in E. rewrite H in E. discriminate E.
Qed.

Lemma handleKeypadClick_key (pin k : text) (l : lock) :
  k <> [] ->
  handleKeypadClick pin (Some k) l =
    let l1 :=
      if text_eqb k (u "backspace") then
        set_enteredPin (removelast (enteredPin l)) l
      else if Nat.ltb (length (enteredPin l)) 4 then
        set_enteredPin (enteredPin l ++ k) l
      else l in
    let l2 := updatePinDisplay l1 in
    if Nat.eqb (length (enteredPin l2)) 4 then checkPin pin l2 else l2.
Proof. intros H. destruct k; [congruence | reflexivity]. Qed.

(** One step keeps at most four digits and the dots in agreement. *)
Lemma lock_step_keeps_four (pin : text) (l : lock) (ev : lock_event) :
  keypad_key ev ->
  (length (enteredPin l) <= 4)%nat /\ dots_show_length l ->
  (length (enteredPin (lock_step pin l ev)) <= 4)%nat /\
  dots_show_length (lock_step pin l ev).
Proof.
  intros Hk [Hlen Hdots]. destruct ev as [[[|c k]|]|]; unfold lock_step.
  - now split.
  - rewrite handleKeypadClick_key by discriminate. cbv zeta.
    set (l1 := if text_eqb (c :: k) (u "backspace") then _ else _).
    assert (H1 : (length (enteredPin l1) <= 4)%nat).
    { subst l1. destruct (text_eqb (c :: k) (u "backspace")) eqn:E.
      - simpl. rewrite removelast_length. lia.
      - destruct (Nat.ltb (length (enteredPin l)) 4) eqn:L; [|exact Hlen].
        apply Nat.ltb_lt in L. simpl enteredPin. rewrite length_app.
        unfold keypad_key in Hk. destruct Hk as [Hk|Hk].
        + lia.
        + rewrite Hk in E. rewrite text_eqb_refl in E. discriminate E. }
    assert (H2 : (length (enteredPin (updatePinDisplay l1)) <= 4)%nat /\
                 dots_show_length (updatePinDisplay l1)).
    { split; [exact H1 | apply updatePinDisplay_shows]. }
    destruct (Nat.eqb _ 4); [|exact H2].
    unfold dots_show_length.
    destruct (checkPin_enteredPin pin (updatePinDisplay l1)) as [-> ->].
    exact H2.
  - now split.
  - destruct (shake_timers l); [now split|].
    split; [simpl; lia | apply updatePinDisplay_shows].
Qed.

Lemma initial_lock_shows (n : nat) : dots_show_length (initial_lock n).
Proof.
  unfold dots_show_length, initial_lock. simpl.
  rewrite repeat_length. induction n as [|n IH]; [reflexivity|].
  simpl. f_equal. rewrite <- seq_shift, map_map. exact IH.
Qed.

(** X1. With a keypad of one-character keys and a backspace key, no
    sequence of clicks and timers ever leaves more than four digits
    entered, and the dots always show how many digits there are. *)
Theorem entered_pin_at_most_four
  (pin : text) (n : nat) (evs : list lock_event) :
  Forall keypad_key evs ->
  (length (enteredPin (lock_run pin (initial_lock n) evs)) <= 4)%nat /\
  dots_show_length (lock_run pin (initial_lock n) evs).
Proof.
  intros Hk. unfold lock_run.
  assert (H0 : (length (enteredPin (initial_lock n)) <= 4)%nat /\
               dots_show_length (initial_lock n)).
  { split; [simpl; lia | apply initial_lock_shows]. }
  revert H0. generalize (initial_lock n).
  induction Hk as [|ev evs Hev _ IH]; intros l H0; [exact H0|].
  simpl. apply IH. now apply lock_step_keeps_four.
Qed.

Lemma entered_pin_at_most_four_witness :
  (length (enteredPin
     (lock_run (u "1234") (initial_lock 4)
        [KeyClick (Some (u "1")); KeyClick (Some (u "2"));
         KeyClick (Some (u "backspace")); KeyClick None;
         KeyClick (Some (u "7")); KeyClick (Some (u "8"));
         KeyClick (Some (u "9")); KeyClick (Some (u "0"));
         ShakeTimeout; KeyClick (Some (u "5"))])) <= 4)%nat /\
  dots_show_length
    (lock_run (u "1234") (initial_lock 4)
        [KeyClick (Some (u "1")); KeyClick (Some (u "2"));
         KeyClick (Some (u "backspace")); KeyClick None;
         KeyClick (Some (u "7")); KeyClick (Some (u "8"));
         KeyClick (Some (u "9")); KeyClick (Some (u "0"));
         ShakeTimeout; KeyClick (Some (u "5"))]).
Proof.
  apply (entered_pin_at_most_four (u "1234") 4).
  repeat (apply Forall_cons;
          [first [exact I | left; reflexivity | right; reflexivity]|]).
  apply Forall_nil.
Defined.

Lemma click_digit (pin : text) (a : N) (l : lock) :
  (length (enteredPin l) < 4)%nat ->
  handleKeypadClick pin (Some [a]) l =
    let l2 := updatePinDisplay (set_enteredPin (enteredPin l ++ [a]) l) in
    if Nat.eqb (length (enteredPin l2)) 4 then checkPin pin l2 else l2.
Proof.
  intros H. rewrite handleKeypadClick_key by discriminate.
  rewrite single_key_not_backspace by reflexivity.
  apply Nat.ltb_lt in H. rewrite H. reflexivity.
Qed.

Lemma click_digit_early
  (pin : text) (a : N) (e : text) (ds : list bool) (h v s : bool)
  (t : nat) :
  (length e < 3)%nat ->
  handleKeypadClick pin (Some [a]) (Build_lock e ds h v s t) =
    Build_lock (e ++ [a])
      (map (fun index => Nat.ltb index (length (e ++ [a])))
           (seq 0 (length ds))) h v s t.
Proof.
  intros H. rewrite click_digit by (simpl; lia). cbv zeta.
  unfold updatePinDisplay, set_enteredPin. cbn [enteredPin].
  replace (Nat.eqb (length (e ++ [a])) 4) with false; [reflexivity|].
  symmetry. apply Nat.eqb_neq. rewrite length_app. simpl. lia.
Qed.

Lemma click_digit_fourth
  (pin : text) (a : N) (e : text) (ds : list bool) (h v s : bool)
  (t : nat) :
  length e = 3%nat ->
  handleKeypadClick pin (Some [a]) (Build_lock e ds h v s t) =
    checkPin pin
      (Build_lock (e ++ [a])
         (map (fun index => Nat.ltb index (length (e ++ [a])))
              (seq 0 (length ds))) h v s t).
Proof.
  intros H. rewrite click_digit by (simpl; lia). cbv zeta.
  unfold updatePinDisplay, set_enteredPin. cbn [enteredPin].
  replace (Nat.eqb (length (e ++ [a])) 4) with true; [reflexivity|].
  symmetry. apply Nat.eqb_eq. rewrite length_app. simpl. lia.
Qed.

Lemma lock_step_click (pin : text) (l : lock) (key : option text) :
  lock_step pin l (KeyClick key) = handleKeypadClick pin key l.
Proof. reflexivity. Qed.

Ltac clicks :=
  unfold lock_run, fold_left; rewrite !lock_step_click;
  rewrite !click_digit_early by (simpl; lia);
  rewrite click_digit_fourth by (rewrite ?length_map, ?length_seq; reflexivity);
  rewrite ?length_map, ?length_seq; unfold checkPin; cbn -[text_eqb].

Lemma lock_step_stays_locked (pin : text) (l : lock) (ev : lock_event) :
  length pin <> 4%nat ->
  appContainer_visible l = false /\ lockScreen_hidden l = false ->
  appContainer_visible (lock_step pin l ev) = false /\
  lockScreen_hidden (lock_step pin l ev) = false.
Proof.
  intros Hpin Hl. destruct ev as [[[|c k]|]|]; unfold lock_step;
    try exact Hl.
  - rewrite handleKeypadClick_key by discriminate. cbv zeta.
    set (l1 := if text_eqb (c :: k) (u "backspace") then _ else _).
    assert (H1 : appContainer_visible l1 = false /\
                 lockScreen_hidden l1 = false).
    { subst l1. destruct (text_eqb (c :: k) (u "backspace")); [exact Hl|].
      destruct (Nat.ltb _ 4); exact Hl. }
    destruct (Nat.eqb _ 4) eqn:E; [|exact H1].
    apply Nat.eqb_eq in E. unfold checkPin.
    destruct (text_eqb _ pin) eqn:P; [|exact H1].
    apply text_eqb_length in P. congruence.
  - destruct (shake_timers l); exact Hl.
Qed.

(** X2. The gate opens only on a four-character PIN: where the
    configured PIN has another length, as the placeholder has, no
    sequence of clicks and timers, whatever the keys carry, hides the
    lock screen or shows the application. *)
Theorem pin_of_other_length_never_unlocks
  (pin : text) (n : nat) (evs : list lock_event) :
  length pin <> 4%nat ->
  appContainer_visible (lock_run pin (initial_lock n) evs) = false /\
  lockScreen_hidden (lock_run pin (initial_lock n) evs) = false.
Proof.
  intros Hpin. unfold lock_run.
  assert (H0 : appContainer_visible (initial_lock n) = false /\
               lockScreen_hidden (initial_lock n) = false) by now split.
  revert H0. generalize (initial_lock n).
  induction evs as [|ev evs IH]; intros l H0; [exact H0|].
  simpl. apply IH. now apply lock_step_stays_locked.
Qed.

Lemma pin_of_other_length_never_unlocks_witness :
  appContainer_visible
    (lock_run CORRECT_PIN_placeholder (initial_lock 4)
       [KeyClick (Some (u "_")); KeyClick (Some (u "_"));
        KeyClick (Some (u "N")); KeyClick (Some (u "U"));
        ShakeTimeout; KeyClick (Some CORRECT_PIN_placeholder)]) = false /\
  lockScreen_hidden
    (lock_run CORRECT_PIN_placeholder (initial_lock 4)
       [KeyClick (Some (u "_")); KeyClick (Some (u "_"));
        KeyClick (Some (u "N")); KeyClick (Some (u "U"));
        ShakeTimeout; KeyClick (Some CORRECT_PIN_placeholder)]) = false.
Proof.
  apply (pin_of_other_length_never_unlocks CORRECT_PIN_placeholder 4).
  vm_compute. lia.
Defined.

(** X3. Entering the four characters of the configured PIN on an empty
    display hides the lock screen and shows the application, and sets
    no timer. *)
Theorem correct_pin_unlocks (a b c d : N) (l : lock) :
  enteredPin l = [] ->
  let l' := lock_run [a; b; c; d] l
              [KeyClick (Some [a]); KeyClick (Some [b]);
               KeyClick (Some [c]); KeyClick (Some [d])] in
  lockScreen_hidden l' = true /\
  appContainer_visible l' = true /\
  enteredPin l' = [a; b; c; d] /\
  pinDisplay_shake l' = pinDisplay_shake l /\
  shake_timers l' = shake_timers l.
Proof.
  intros H. destruct l as [pin0 dots hid vis shake timers].
  simpl in H. subst pin0. cbv zeta. clicks. rewrite text_eqb_refl.
  repeat split.
Qed.

Lemma correct_pin_unlocks_witness :
  let l' := lock_run (u "4071") (initial_lock 4)
              [KeyClick (Some (u "4")); KeyClick (Some (u "0"));
               KeyClick (Some (u "7")); KeyClick (Some (u "1"))] in
  lockScreen_hidden l' = true /\
  appContainer_visible l' = true /\
  enteredPin l' = u "4071" /\
  pinDisplay_shake l' = false /\
  shake_timers l' = O.
Proof.
  exact (correct_pin_unlocks 52 48 55 49 (initial_lock 4) eq_refl).
Defined.

(** X4. Four characters that are not the configured PIN leave the gate
    as it was, set the class [shake] and one timer; when the timer fires
    the entry is emptied, every dot is cleared and [shake] is removed. *)
Theorem wrong_pin_is_cleared (pin : text) (a b c d : N) (l : lock) :
  enteredPin l = [] ->
  [a; b; c; d] <> pin ->
  let l1 := lock_run pin l
              [KeyClick (Some [a]); KeyClick (Some [b]);
               KeyClick (Some [c]); KeyClick (Some [d])] in
  let l2 := lock_step pin l1 ShakeTimeout in
  (enteredPin l1 = [a; b; c; d] /\
   pinDisplay_shake l1 = true /\
   shake_timers l1 = S (shake_timers l) /\
   lockScreen_hidden l1 = lockScreen_hidden l /\
   appContainer_visible l1 = appContainer_visible l) /\
  (enteredPin l2 = [] /\
   pinDots l2 = repeat false (length (pinDots l)) /\
   pinDisplay_shake l2 = false /\
   shake_timers l2 = shake_timers l /\
   lockScreen_hidden l2 = lockScreen_hidden l /\
   appContainer_visible l2 = appContainer_visible l).
Proof.
  intros H Hpin. destruct l as [pin0 dots hid vis shake timers].
  simpl in H. subst pin0. cbv zeta. clicks.
  destruct (text_eqb_spec [a; b; c; d] pin) as [E|_]; [contradiction|].
  cbn. rewrite !length_map, !length_seq. repeat split.
  clear. generalize 0%nat. induction (length dots) as [|m IH]; intros s.
  - reflexivity.
  - simpl. f_equal. apply IH.
Qed.

Lemma wrong_pin_is_cleared_witness :
  let l1 := lock_run (u "4071") (initial_lock 4)
              [KeyClick (Some (u "4")); KeyClick (Some (u "0"));
               KeyClick (Some (u "1")); KeyClick (Some (u "7"))] in
  let l2 := lock_step (u "4071") l1 ShakeTimeout in
  (enteredPin l1 = u "4017" /\
   pinDisplay_shake l1 = true /\
   shake_timers l1 = 1%nat /\
   lockScreen_hidden l1 = false /\
   appContainer_visible l1 = false) /\
  (enteredPin l2 = [] /\
   pinDots l2 = [false; false; false; false] /\
   pinDisplay_shake l2 = false /\
   shake_timers l2 = O /\
   lockScreen_hidden l2 = false /\
   appContainer_visible l2 = false).
Proof.
  apply (wrong_pin_is_cleared (u "4071") 52 48 49 55 (initial_lock 4)).
  - reflexivity.
  - vm_compute. intros X; discriminate X.
Defined.

Lemma lock_step_stays_open (pin : text) (l : lock) (ev : lock_event) :
  appContainer_visible l = true /\ lockScreen_hidden l = true ->
  appContainer_visible (lock_step pin l ev) = true /\
  lockScreen_hidden (lock_step pin l ev) = true.
Proof.
  intros Hl. destruct ev as [[[|c k]|]|]; unfold lock_step;
    try exact Hl.
  - rewrite handleKeypadClick_key by discriminate. cbv zeta.
    set (l1 := if text_eqb (c :: k) (u "backspace") then _ else _).
    assert (H1 : appContainer_visible l1 = true /\
                 lockScreen_hidden l1 = true).
    { subst l1. destruct (text_eqb (c :: k) (u "backspace")); [exact Hl|].
      destruct (Nat.ltb _ 4); exact Hl. }
    destruct (Nat.eqb _ 4); [|exact H1].
    unfold checkPin. destruct (text_eqb _ pin); [now split | exact H1].
  - destruct (shake_timers l); exact Hl.
Qed.

(** X5. Once open the gate stays open: no click and no timer removes
    [hidden] from the lock screen or [visible] from the application. *)
Theorem unlocked_stays_unlocked
  (pin : text) (l : lock) (evs : list lock_event) :
  appContainer_visible l = true /\ lockScreen_hidden l = true ->
  appContainer_visible (lock_run pin l evs) = true /\
  lockScreen_hidden (lock_run pin l evs) = true.
Proof.
  unfold lock_run. revert l.
  induction evs as [|ev evs IH]; intros l H0; [exact H0|].
  simpl. apply IH. now apply lock_step_stays_open.
Qed.

Lemma unlocked_stays_unlocked_witness :
  appContainer_visible
    (lock_run (u "4071")
       (lock_run (u "4071") (initial_lock 4)
          [KeyClick (Some (u "4")); KeyClick (Some (u "0"));
           KeyClick (Some (u "7")); KeyClick (Some (u "1"))])
       [KeyClick (Some (u "backspace")); KeyClick (Some (u "9"));
        ShakeTimeout]) = true /\
  lockScreen_hidden
    (lock_run (u "4071")
       (lock_run (u "4071") (initial_lock 4)
          [KeyClick (Some (u "4")); KeyClick (Some (u "0"));
           KeyClick (Some (u "7")); KeyClick (Some (u "1"))])
       [KeyClick (Some (u "backspace")); KeyClick (Some (u "9"));
        ShakeTimeout]) = true.
Proof.
  apply (unlocked_stays_unlocked (u "4071")). split; reflexivity.
Defined.

(** ** The camera and the views *)

Lemma stop_tracks_other (i j : nat) (ss : list (list bool)) :
  i <> j -> nth_error (stop_tracks i ss) j = nth_error ss j.
Proof.
  revert j ss. induction i as [|i IH]; intros [|j] [|t r] H;
    try reflexivity; try congruence.
  simpl. apply IH. congruence.
Qed.

Lemma stop_tracks_length (i : nat) (ss : list (list bool)) :
  length (stop_tracks i ss) = length ss.
Proof.
  revert ss. induction i as [|i IH]; intros [|t r]; try reflexivity.
  simpl. now rewrite IH.
Qed.

(** X6. [resetToInitialView] is idempotent, touches no stream other than
    the one held, and reports nothing. *)
Theorem reset_is_idempotent (p : page) :
  resetToInitialView (resetToInitialView p) = resetToInitialView p /\
  effects (resetToInitialView p) = effects p /\
  length (streams (resetToInitialView p)) = length (streams p) /\
  (forall j, currentStream p <> Some j ->
     nth_error (streams (resetToInitialView p)) j =
     nth_error (streams p) j).
Proof.
  destruct p as [ss cur src img up html vis act eff].
  unfold resetToInitialView, showView. simpl. repeat split.
  - destruct cur as [i|]; [apply stop_tracks_length | reflexivity].
  - intros j Hj. destruct cur as [i|]; [|reflexivity].
    apply stop_tracks_other. congruence.
Qed.

(** X7. A refused camera changes nothing on the page: the refusal is
    logged, one alert is raised, the screen stays, no stream is held and
    no request is sent. *)
Theorem camera_refusal_is_reported (err : exn) (p : page) :
  let p' := startCamera (Refused err) p in
  effects p' =
    effects p ++
    [ConsoleError (u "Error accessing camera: ") err;
     Alert (u "Could not access the camera. Please ensure permissions are granted.")] /\
  active_view p' = active_view p /\
  streams p' = streams p /\
  currentStream p' = currentStream p /\
  cameraStream_srcObject p' = cameraStream_srcObject p /\
  resultsContent_innerHTML p' = resultsContent_innerHTML p.
Proof.
  cbv zeta. unfold startCamera, emit. simpl.
  rewrite <- List.app_assoc. repeat split.
Qed.

(** X8. The stream that [startCamera] acquires is released by the back
    button: every one of its tracks is stopped, the page holds no
    stream, and the streams that were there are untouched. *)
Theorem back_releases_camera (tracks : nat) (p : page) :
  let held := length (streams p) in
  let p1 := startCamera (Granted tracks) p in
  let p2 := resetToInitialView p1 in
  (active_view p1 = Some CameraView /\ currentStream p1 = Some held /\
   cameraStream_srcObject p1 = Some held /\
   nth_error (streams p1) held = Some (repeat true tracks)) /\
  (active_view p2 = Some InitialView /\ currentStream p2 = None /\
   cameraStream_srcObject p2 = None /\
   nth_error (streams p2) held = Some (repeat false tracks) /\
   forall j, (j < held)%nat ->
     nth_error (streams p2) j = nth_error (streams p) j).
Proof.
  cbv zeta. unfold startCamera, resetToInitialView, showView. simpl.
  repeat split.
  - rewrite nth_error_app2 by lia. now rewrite Nat.sub_diag.
  - rewrite (stop_tracks_nth _ _ (repeat true tracks)).
    + now rewrite repeat_length.
    + rewrite nth_error_app2 by lia. now rewrite Nat.sub_diag.
  - intros j Hj. rewrite stop_tracks_other by lia.
    now rewrite nth_error_app1 by lia.
Qed.

(** The two ways in which [analyzeImage] ends. *)
Lemma analyzeImage_cases API_KEY em img net p :
  (exists q,
     analyzeImage API_KEY em img net p = resetToInitialView q /\
     streams q = streams p /\ currentStream q = currentStream p /\
     (text_eqb API_KEY (u "__API_KEY__") = true \/
      exists e, attempt net = Throw e)) \/
  (exists v q,
     analyzeImage API_KEY em img net p = show_results v q /\
     text_eqb API_KEY (u "__API_KEY__") = false /\
     attempt net = Ok v /\
     streams q = streams p /\ currentStream q = currentStream p /\
     cameraStream_srcObject q = cameraStream_srcObject p /\
     imagePreview_src q = imagePreview_src p /\
     uploadPhotoInput_value q = uploadPhotoInput_value p).
Proof.
  unfold analyzeImage.
  destruct (text_eqb API_KEY (u "__API_KEY__")).
  - left. eexists. split; [reflexivity|]. repeat split. now left.
  - destruct (attempt net) as [v|e].
    + right. exists v. eexists. split; [reflexivity|]. repeat split.
    + left. eexists. split; [reflexivity|]. repeat split.
      right. now exists e.
Qed.

Lemma analyzeImage_without_stream API_KEY em img net q :
  currentStream q = None ->
  let q' := analyzeImage API_KEY em img net q in
  streams q' = streams q /\ currentStream q' = None /\
  (cameraStream_srcObject q = None -> cameraStream_srcObject q' = None).
Proof.
  intros H. cbv zeta.
  destruct (analyzeImage_cases API_KEY em img net q)
    as [(r & -> & Hs & Hc & _)|(v & r & -> & _ & _ & Hs & Hc & Ho & _)].
  - cbn [resetToInitialView showView streams currentStream
         cameraStream_srcObject].
    rewrite Hc, H. repeat split. exact Hs.
  - cbn [show_results showView streams currentStream
         cameraStream_srcObject].
    rewrite Hc, Ho, Hs. repeat split; auto.
Qed.

(** X9. Taking a photo releases the camera whatever becomes of the
    analysis: the stream held is stopped and forgotten before the
    request is made, and it stays so when the results are shown, when
    the analysis fails and when the credential guard fires. *)
Theorem takePhoto_releases_camera
  (API_KEY : text) (em : exn -> text) (img : text) (net : fetch_outcome)
  (p : page) (i : nat) (tracks : list bool) :
  currentStream p = Some i ->
  nth_error (streams p) i = Some tracks ->
  let p' := takePhoto API_KEY em img net p in
  currentStream p' = None /\
  cameraStream_srcObject p' = None /\
  nth_error (streams p') i = Some (repeat false (length tracks)) /\
  forall j, j <> i -> nth_error (streams p') j = nth_error (streams p) j.
Proof.
  intros Hcur Hnth. cbv zeta. unfold takePhoto.
  set (q := showView LoadingView (resetToInitialView p)).
  assert (Hq : currentStream q = None) by reflexivity.
  destruct (analyzeImage_without_stream API_KEY em img net q Hq)
    as (Hs & Hc & Ho).
  rewrite Hs. split; [exact Hc|]. split; [apply Ho; reflexivity|].
  subst q. page_fields. rewrite Hcur. split.
  - now apply stop_tracks_nth.
  - intros j Hj. apply stop_tracks_other. congruence.
Qed.

Lemma takePhoto_releases_camera_witness :
  let p' := takePhoto (u "sk-live-key") sample_engine_message sample_image
              (Rejected (u "Failed to fetch")) busy_page in
  currentStream p' = None /\
  cameraStream_srcObject p' = None /\
  nth_error (streams p') 0 = Some (repeat false (length [true])) /\
  forall j, j <> 0%nat ->
    nth_error (streams p') j = nth_error (streams busy_page) j.
Proof.
  exact (takePhoto_releases_camera (u "sk-live-key") sample_engine_message
           sample_image (Rejected (u "Failed to fetch")) busy_page
           0%nat [true] eq_refl eq_refl).
Defined.

(** X10. [startCamera] does not release a stream that is already held:
    the handle is overwritten, and the tracks of the earlier stream stay
    live through every later reset. *)
Theorem replaced_stream_stays_live
  (tracks : nat) (p : page) (i : nat) :
  currentStream p = Some i ->
  live i p ->
  let p1 := startCamera (Granted tracks) p in
  currentStream p1 = Some (length (streams p)) /\
  live i (resetToInitialView p1) /\
  live i (resetToInitialView (resetToInitialView p1)).
Proof.
  intros Hcur (ts & Hnth & Hin). cbv zeta.
  assert (Hi : (i < length (streams p))%nat).
  { apply nth_error_Some. congruence. }
  split; [reflexivity|].
  assert (H1 : live i (resetToInitialView (startCamera (Granted tracks) p))).
  { exists ts. split; [|exact Hin].
    unfold startCamera. page_fields.
    rewrite stop_tracks_other by lia.
    now rewrite nth_error_app1 by lia. }
  split; [exact H1|].
  destruct H1 as (ts' & Hnth' & Hin'). exists ts'. split; [|exact Hin'].
  rewrite <- Hnth'. reflexivity.
Qed.

Lemma replaced_stream_stays_live_witness :
  let p1 := startCamera (Granted 1) busy_page in
  currentStream p1 = Some 1%nat /\
  live 0 (resetToInitialView p1) /\
  live 0 (resetToInitialView (resetToInitialView p1)).
Proof.
  apply (replaced_stream_stays_live 1 busy_page 0 eq_refl).
  exists [true]. split; [reflexivity | simpl; auto].
Defined.

(** X11. Where an analysis ends once its request has settled (or its
    guard has fired): it has left the loading screen and has not ended
    silently.  Either the results are shown, with one request and no
    alert, or the page is back on the initial screen without results,
    with exactly one alert and at most one request.  (A request that
    never settles is no [fetch_outcome]: the script sets no timeout.) *)
Theorem analysis_ends_on_results_or_initial
  (API_KEY : text) (em : exn -> text) (img : text) (net : fetch_outcome)
  (p : page) :
  let p' := handleFileUpload API_KEY em img net p in
  exists new, effects p' = effects p ++ new /\
    ((active_view p' = Some ResultsView /\
      (exists v, attempt net = Ok v /\
                 resultsContent_innerHTML p' = Some v) /\
      length (filter is_fetch new) = 1%nat /\
      filter is_alert new = []) \/
     (active_view p' = Some InitialView /\
      resultsContent_innerHTML p' = None /\
      (length (filter is_fetch new) <= 1)%nat /\
      length (filter is_alert new) = 1%nat)).
Proof.
  cbv zeta. unfold handleFileUpload.
  assert (Hc : forall l, (forall msg, ~ In (Alert msg) l) ->
                 filter is_alert l = []).
  { induction l as [|e l IH]; intros H; [reflexivity|].
    simpl. destruct e as [msg| |]; simpl.
    - exfalso. apply (H msg). now left.
    - apply IH. intros msg Hin. apply (H msg). now right.
    - apply IH. intros msg Hin. apply (H msg). now right. }
  assert (Hf : filter is_fetch (attempt_console net) = []).
  { unfold attempt_console.
    repeat match goal with
    | |- filter _ (match ?x with _ => _ end) = _ => destruct x
    | |- filter _ (if ?x then _ else _) = _ => destruct x
    end; reflexivity. }
  pose proof (Hc _ (attempt_console_no_alert net)) as Ha.
  set (q := showView LoadingView p).
  destruct (text_eqb API_KEY (u "__API_KEY__")) eqn:Hk.
  - destruct (text_eqb_spec API_KEY (u "__API_KEY__")) as [->|];
      [|discriminate Hk].
    destruct (guard_constant_blocks em img net q) as [He Hr].
    eexists. split; [rewrite He; reflexivity|]. right.
    destruct Hr as (H1 & _ & _ & _ & _ & H2 & _).
    split; [exact H1|]. split; [exact H2|]. split; [simpl; lia|reflexivity].
  - eexists. split.
    + rewrite (analyzeImage_effects _ em img net q Hk). reflexivity.
    + destruct (analyzeImage_cases API_KEY em img net q)
        as [(r & -> & _ & _ & [E|[e E]])|(v & r & -> & _ & E & _)];
        [congruence| |]; rewrite E.
      * right. split; [reflexivity|]. split; [reflexivity|].
        rewrite !filter_app. cbn [filter is_fetch is_alert app].
        rewrite Hf, Ha. simpl. split; [lia | reflexivity].
      * left. split; [reflexivity|]. split; [exists v; now split|].
        rewrite !filter_app. cbn [filter is_fetch is_alert app].
        rewrite Hf, Ha. split; reflexivity.
Qed.

Lemma get_first_TypeError o e : get_first o = Throw e -> e = TypeError.
Proof.
  destruct o as [| | | |[|? ?]|[|? ?]|]; simpl; intros H;
    try discriminate H; congruence.
Qed.

Lemma completion_content_TypeError data e :
  completion_content data = Throw e -> e = TypeError.
Proof.
  unfold completion_content. intros H.
  destruct (get data (u "choices")) as [c|e1] eqn:E1; simpl in H;
    [|injection H as <-; eapply get_TypeError; eassumption].
  destruct (get_first c) as [c1|e2] eqn:E2; simpl in H;
    [|injection H as <-; eapply get_first_TypeError; eassumption].
  destruct (get c1 (u "message")) as [m|e3] eqn:E3; simpl in H;
    [|injection H as <-; eapply get_TypeError; eassumption].
  eapply get_TypeError; eassumption.
Qed.




(** X13. A reply that the extractor reads as a renderable value is
    shown: one request, no alert and no console output, the results on
    the results screen, and the rest of the page (the streams, the
    preview, the file input) as it was. *)
Theorem renderable_reply_is_shown (API_KEY : text) (em : exn -> text)
  (img : text) (status : N) (statusText body : text) (data : value)
  (t : text) (p : page) :
  text_eqb API_KEY (u "__API_KEY__") = false ->
  response_ok status = true ->
  JSON_parse_text body = Ok data ->
  completion_content data = Ok (JStr t) ->
  truthy (extractJson_text t) = true ->
  renderable (extractJson_text t) = true ->
  let p' := analyzeImage API_KEY em img
              (Responded status statusText body) p in
  exists v,
    displayResults (extractJson_text t) = Ok v /\
    resultsContent_innerHTML p' = Some v /\
    active_view p' = Some ResultsView /\
    effects p' =
      effects p ++
      [Fetch API_URL (u "Bearer " ++ API_KEY) (serialize (payload img))] /\
    streams p' = streams p /\
    currentStream p' = currentStream p /\
    imagePreview_src p' = imagePreview_src p /\
    uploadPhotoInput_value p' = uploadPhotoInput_value p.
Proof.
  intros Hk Hok Hb Hc Ht Hr.
  destruct (displayResults_renderable _ Hr) as [v Hv].
  assert (Ha : attempt (Responded status statusText body) = Ok v).
  { unfold attempt. rewrite Hok, Hb. cbn [negb bind].
    rewrite Hc. cbn [bind extractJson]. rewrite Ht. exact Hv. }
  assert (Hl : attempt_console (Responded status statusText body) = []).
  { unfold attempt_console. rewrite Hok, Hb. cbn [negb bind].
    rewrite Hc. now rewrite truthy_extract_no_log. }
  cbv zeta. exists v. split; [exact Hv|].
  unfold analyzeImage. rewrite Hk, Ha, Hl. page_fields.
  rewrite List.app_nil_r. repeat split.
Qed.

Lemma renderable_reply_is_shown_witness :
  let p' := analyzeImage (u "sk-live-key") sample_engine_message sample_image
              (Responded 200 (u "OK") (response_body fenced_meal_text))
              busy_page in
  exists v,
    displayResults (extractJson_text fenced_meal_text) = Ok v /\
    resultsContent_innerHTML p' = Some v /\
    active_view p' = Some ResultsView /\
    effects p' =
      effects busy_page ++
      [Fetch API_URL (u "Bearer " ++ u "sk-live-key")
         (serialize (payload sample_image))] /\
    streams p' = streams busy_page /\
    currentStream p' = currentStream busy_page /\
    imagePreview_src p' = imagePreview_src busy_page /\
    uploadPhotoInput_value p' = uploadPhotoInput_value busy_page.
Proof.
  eapply (renderable_reply_is_shown (u "sk-live-key") sample_engine_message
            sample_image 200 (u "OK") (response_body fenced_meal_text)
            _ fenced_meal_text busy_page eq_refl eq_refl).
  - vm_compute. reflexivity.
  - vm_compute. reflexivity.
  - vm_compute. reflexivity.
  - vm_compute. reflexivity.
Defined.

(** X14. A reply whose JSON is read without error but is falsy (0,
    false, null, the empty string) is treated as no JSON at all: nothing
    about parsing is logged, the generic failure is logged and alerted,
    and the page is reset. *)
Theorem falsy_json_is_a_failure (API_KEY : text) (em : exn -> text)
  (img : text) (status : N) (statusText body : text) (data : value)
  (t : text) (c v : value) (p : page) :
  text_eqb API_KEY (u "__API_KEY__") = false ->
  response_ok status = true ->
  JSON_parse_text body = Ok data ->
  completion_content data = Ok (JStr t) ->
  candidate t = Some c ->
  JSON_parse c = Ok v ->
  truthy v = false ->
  let p' := analyzeImage API_KEY em img
              (Responded status statusText body) p in
  extractJson (JStr t) = Ok v /\
  effects p' =
    effects p
    ++ [Fetch API_URL (u "Bearer " ++ API_KEY) (serialize (payload img));
        ConsoleError (u "Analysis failed:")
          (Error (u "Failed to parse JSON from AI response."));
        Alert (u "Analysis failed: Failed to parse JSON from AI response.")] /\
  fully_reset p p'.
Proof.
  intros Hk Hok Hb Hc Hcand Hparse Hv.
  assert (Hx : extractJson_text t = v).
  { unfold extractJson_text. now rewrite Hcand, Hparse. }
  assert (Ha : attempt (Responded status statusText body) =
               Throw (Error (u "Failed to parse JSON from AI response."))).
  { unfold attempt. rewrite Hok, Hb. cbn [negb bind].
    rewrite Hc. cbn [bind extractJson]. now rewrite Hx, Hv. }
  assert (Hl : attempt_console (Responded status statusText body) = []).
  { unfold attempt_console. rewrite Hok, Hb. cbn [negb bind].
    rewrite Hc. unfold extractJson_logs_error. now rewrite Hcand, Hparse. }
  cbv zeta. split; [simpl; congruence|]. split.
  - rewrite analyzeImage_effects by assumption. rewrite Ha, Hl. reflexivity.
  - eapply analyzeImage_catch; eassumption.
Qed.

Lemma falsy_json_is_a_failure_witness :
  let p' := analyzeImage (u "sk-live-key") sample_engine_message sample_image
              (Responded 200 (u "OK") (response_body zero_reply))
              busy_page in
  extractJson (JStr zero_reply) = Ok (JNum Zero) /\
  effects p' =
    effects busy_page
    ++ [Fetch API_URL (u "Bearer " ++ u "sk-live-key")
          (serialize (payload sample_image));
        ConsoleError (u "Analysis failed:")
          (Error (u "Failed to parse JSON from AI response."));
        Alert (u "Analysis failed: Failed to parse JSON from AI response.")] /\
  fully_reset busy_page p'.
Proof.
  eapply (falsy_json_is_a_failure (u "sk-live-key") sample_engine_message
            sample_image 200 (u "OK") (response_body zero_reply)
            _ zero_reply (JStr (u "0")) (JNum Zero) busy_page
            eq_refl eq_refl).
  - vm_compute. reflexivity.
  - vm_compute. reflexivity.
  - vm_compute. reflexivity.
  - vm_compute. reflexivity.
  - reflexivity.
Defined.

(** ** The extractor and the request *)

Lemma empty_fence_match_here ws post :
  Forall (fun c => is_space c = true) ws ->
  match_here json_regex (u "```json" ++ ws ++ u "```" ++ post) =
    Some (post, [None; Some []; None]).
Proof.
  intros Hws. unfold match_here, json_regex. cbn [run].
  rewrite match_lit_app.
  erewrite star_greedy_run; [reflexivity|exact Hws|reflexivity|].
  apply star_lazy_first with (a := []) (s := u "```" ++ post).
  - intros a1 c a2 H. destruct a1; discriminate H.
  - apply star_greedy_run with (ws := []) (s := u "```" ++ post);
      [constructor | reflexivity |].
    cbv beta. rewrite match_lit_app. unfold consumed.
    rewrite Nat.sub_diag. reflexivity.
Qed.

(** X15. A fenced block with nothing but white space in it yields no
    JSON, even when an object follows the block: the script hands
    [undefined] to [JSON.parse], logs the syntax error and returns
    null. *)
Theorem empty_fence_yields_null (pre ws post : text) :
  ~ In 96 pre -> ~ In 123 pre ->
  Forall (fun c => is_space c = true) ws ->
  let t := pre ++ u "```json" ++ ws ++ u "```" ++ post in
  candidate t = Some JUndefined /\
  extractJson (JStr t) = Ok JNull /\
  extractJson_logs_error t = true.
Proof.
  intros H1 H2 Hws. cbv zeta.
  assert (Hc : candidate (pre ++ u "```json" ++ ws ++ u "```" ++ post) =
               Some JUndefined).
  { unfold candidate, String_match. rewrite search_skip.
    - rewrite (search_here _ _ _ _ _ (empty_fence_match_here ws post Hws)).
      reflexivity.
    - apply Forall_forall. intros c Hc r.
      apply json_regex_needs_opener; intros ->; contradiction. }
  split; [exact Hc|]. unfold extractJson, extractJson_text,
    extractJson_logs_error. rewrite Hc. split; reflexivity.
Qed.

Lemma empty_fence_yields_null_witness :
  candidate empty_fence_reply = Some JUndefined /\
  extractJson (JStr empty_fence_reply) = Ok JNull /\
  extractJson_logs_error empty_fence_reply = true.
Proof.
  apply (empty_fence_yields_null [] nl (nl ++ js "{'items':[]}")).
  - intros [].
  - intros [].
  - repeat constructor.
Defined.



Lemma payload_wf (img : text) :
  wf (payload img) /\ all_finite (payload img) = true.
Proof.
  split; [|reflexivity].
  unfold payload. cbn [wf map fst ordered_keys].
  repeat match goal with
  | |- _ /\ _ => split
  | |- True => exact I
  | |- ~ In _ _ => not_in
  | |- Forall _ [] => constructor
  | |- Forall _ (_ :: _) =>
      constructor; [cbv beta; vm_compute; reflexivity|]
  | |- match array_index ?k with _ => _ end =>
      replace (array_index k) with (@None N) by (vm_compute; reflexivity)
  | |- wf_number (number_of_Z _) =>
      apply make_number_wf; apply uint_digits_lt10
  end.
Qed.

(** X17. The body of the request is JSON that reads back as the payload
    it was made from, whatever characters the data URL of the image
    holds; so two images never give the same body. *)
Theorem request_body_reads_back (img : text) :
  JSON_parse_text (serialize (payload img)) = Ok (payload img) /\
  (forall img', serialize (payload img') = serialize (payload img) ->
     img' = img).
Proof.
  assert (H : forall i, JSON_parse_text (serialize (payload i)) =
                        Ok (payload i)).
  { intros i. destruct (payload_wf i) as [Hwf Hfin].
    now apply JSON_parse_serialize. }
  split; [apply H|]. intros img' E.
  pose proof (H img') as H'. rewrite E, H in H'.
  unfold payload in H'. congruence.
Qed.

(** ** The renderer *)

Lemma displayResults_labels data v :
  displayResults data = Ok v ->
  confidence_class_of (field data (u "confidence_score")) =
    Ok (confidence_class v) /\
  ToString (or_else (field data (u "confidence_score")) (JStr (u "Medium"))) =
    Ok (confidence_text v) /\
  ToString (or_else (field data (u "health_tips"))
              (JStr (u "Enjoy your meal mindfully!"))) =
    Ok (health_tips_text v).
Proof.
  unfold displayResults. intros H. bind_inv H. injection H as <-. simpl.
  repeat match goal with
  | G : get _ _ = Ok _ |- _ => apply get_field in G
  end.
  subst. repeat split; assumption.
Qed.

(** X18. The two labels of the results fall back on fixed texts: a
    missing or empty confidence is written as [Medium], a missing or
    empty tip as the stock tip; a confidence or a tip that is a
    non-empty string is written into the markup as it came. *)
Theorem labels_fall_back (data : value) (v : view) :
  displayResults data = Ok v ->
  (truthy (field data (u "confidence_score")) = false ->
   confidence_text v = u "Medium") /\
  (forall s, field data (u "confidence_score") = JStr s -> s <> [] ->
   confidence_text v = s) /\
  (truthy (field data (u "health_tips")) = false ->
   health_tips_text v = u "Enjoy your meal mindfully!") /\
  (forall s, field data (u "health_tips") = JStr s -> s <> [] ->
   health_tips_text v = s).
Proof.
  intros H. destruct (displayResults_labels _ _ H) as (_ & Ht & Hh).
  unfold or_else in *.
  split; [|split; [|split]].
  - intros E. rewrite E in Ht. simpl in Ht. congruence.
  - intros s E Hs. rewrite E in Ht. destruct s; [congruence|].
    simpl in Ht. congruence.
  - intros E. rewrite E in Hh. simpl in Hh. congruence.
  - intros s E Hs. rewrite E in Hh. destruct s; [congruence|].
    simpl in Hh. congruence.
Qed.

Lemma labels_fall_back_witness :
  exists v,
    displayResults (extractJson_text water_text) = Ok v /\
    confidence_text v = u "High" /\
    health_tips_text v = u "Enjoy your meal mindfully!".
Proof.
  eexists. split; [vm_compute; reflexivity|].
  match goal with
  | |- confidence_text ?v = _ /\ _ =>
      pose proof (labels_fall_back (extractJson_text water_text) v) as H
  end.
  destruct H as (_ & H2 & H3 & _); [vm_compute; reflexivity|].
  split.
  - apply (H2 (u "High")); [vm_compute; reflexivity | discriminate].
  - apply H3. vm_compute. reflexivity.
Defined.

Lemma strip_leading_all_zero ds :
  strip_leading_zeros ds = [] -> digits_N ds = 0.
Proof.
  unfold digits_N. induction ds as [|d ds IH]; [reflexivity|].
  simpl. destruct (d =? 0) eqn:E; [|discriminate].
  intros H. simpl. exact (IH H).
Qed.

Lemma number_of_nat_positive n :
  (0 < n)%nat -> number_gt_zero (number_of_nat n) = true.
Proof.
  intros Hn. unfold number_of_nat, number_of_Z, make_number.
  replace (Z.of_nat n <? 0)%Z with false by (symmetry; apply Z.ltb_ge; lia).
  destruct (strip_leading_zeros _) as [|d ds] eqn:E.
  - apply strip_leading_all_zero in E. rewrite digits_N_digits in E. lia.
  - destruct (strip_trailing_zeros (d :: ds)) as [ds2 t].
    destruct (overflows ds2 (0 + t)); reflexivity.
Qed.

Lemma join_nil_concat (parts : list text) : join [] parts = concat parts.
Proof.
  induction parts as [|p [|q r] IH]; simpl in *.
  - reflexivity.
  - now rewrite List.app_nil_r.
  - now rewrite IH.
Qed.

Lemma render_item_row it row :
  item_row it row ->
  render_item it = Ok (item_line (fst row) (snd row)).
Proof.
  intros (Hn & Hi & Hc). unfold render_item.
  rewrite !(get_present it) by assumption. rewrite Hi, Hc. reflexivity.
Qed.

Lemma render_items_array l :
  l <> [] ->
  render_items (JArr l) =
    (lis <- sequence (map render_item l) ;; Ok (join [] lis)).
Proof.
  intros Hl. unfold render_items. cbn [truthy get].
  rewrite text_eqb_refl. cbn [bind ToNumber].
  rewrite number_of_nat_positive; [reflexivity|].
  destruct l; [congruence | simpl; lia].
Qed.

(** X19. The list of items: the stock line when there are no items
    (the field missing, null, otherwise falsy, or an empty array); for
    an array of items that name a dish and give a number, one line for
    each, in order, with the name as it came (markup included) and the
    calories rounded. *)
Theorem items_are_listed (data : value) (v : view) :
  displayResults data = Ok v ->
  (truthy (field data (u "items")) = false \/
   field data (u "items") = JArr [] ->
   items_html v = u "<li>No specific items identified.</li>") /\
  (forall l rows,
     field data (u "items") = JArr l -> l <> [] ->
     Forall2 item_row l rows ->
     items_html v =
       concat (map (fun row => item_line (fst row) (snd row)) rows)).
Proof.
  intros H. apply displayResults_inv in H.
  destruct H as (_ & _ & _ & _ & _ & _ & _ & _ & _ & _ & H). split.
  - intros [E|E].
    + unfold render_items in H. rewrite E in H. cbn [bind] in H. congruence.
    + rewrite E in H.
      assert (H0 : render_items (JArr []) =
                   Ok (u "<li>No specific items identified.</li>"))
        by (vm_compute; reflexivity).
      congruence.
  - intros l rows E Hl Hrows. rewrite E, render_items_array in H by exact Hl.
    assert (Hs : sequence (map render_item l) =
                 Ok (map (fun row => item_line (fst row) (snd row)) rows)).
    { clear -Hrows. induction Hrows as [|it row l rows Hr _ IH];
        [reflexivity|].
      simpl. rewrite (render_item_row _ _ Hr). cbn [bind].
      rewrite IH. reflexivity. }
    rewrite Hs in H. cbn [bind] in H. rewrite join_nil_concat in H.
    congruence.
Qed.

Lemma items_are_listed_witness :
  exists v,
    displayResults (extractJson_text two_items_text) = Ok v /\
    items_html v =
      u "<li>Rice <b>bowl</b> (~321 kcal)</li><li>Tea (~2 kcal)</li>".
Proof.
  eexists. split; [vm_compute; reflexivity|].
  match goal with
  | |- items_html ?v = _ =>
      pose proof (items_are_listed (extractJson_text two_items_text) v) as H
  end.
  destruct H as (_ & H); [vm_compute; reflexivity|].
  rewrite (H _ [(u "Rice <b>bowl</b>", Dec false [3; 2; 0; 5] (-1));
                (u "Tea", Dec false [2] 0)] eq_refl).
  - vm_compute. reflexivity.
  - discriminate.
  - repeat constructor.
Defined.

Lemma sequence_Ok {A} (l : list (result A)) xs :
  sequence l = Ok xs -> Forall (fun r => exists x, r = Ok x) l.
Proof.
  revert xs. induction l as [|r l IH]; intros xs H; [constructor|].
  simpl in H. destruct r as [x|e]; [|discriminate H]. cbn [bind] in H.
  destruct (sequence l) as [ys|e] eqn:E; [|discriminate H].
  constructor; [now exists x | now apply (IH ys)].
Qed.

(** X20. Replies that the renderer cannot show, and that end in the
    alert of a [TypeError]: a confidence that is truthy and not a
    string (a number, say); items given as a non-empty string; an array
    of items with null among them. *)
Theorem unrenderable_replies (data : value) :
  (truthy (field data (u "confidence_score")) = true /\
   forall s, field data (u "confidence_score") <> JStr s) \/
  (exists s, field data (u "items") = JStr s /\ s <> []) \/
  (exists l, field data (u "items") = JArr l /\
             Exists (fun it => nullish it = true) l) ->
  displayResults data = Throw TypeError.
Proof.
  intros Hbad. destruct (displayResults data) as [v|e] eqn:E;
    [exfalso | f_equal; eapply displayResults_TypeError; eassumption].
  destruct (displayResults_labels _ _ E) as (Hc & _ & _).
  apply displayResults_inv in E.
  destruct E as (_ & _ & _ & _ & _ & _ & _ & _ & _ & _ & Hi).
  destruct Hbad as [[Ht Hs]|[(s & Es & Hs)|(l & El & Hl)]].
  - unfold confidence_class_of, or_else in Hc. rewrite Ht in Hc.
    destruct (field data (u "confidence_score")); try discriminate Hc.
    eapply Hs. reflexivity.
  - rewrite Es in Hi. unfold render_items in Hi.
    destruct s as [|c s]; [congruence|].
    cbn [truthy get] in Hi. rewrite text_eqb_refl in Hi.
    cbn [bind ToNumber] in Hi.
    rewrite number_of_nat_positive in Hi by (simpl; lia).
    discriminate Hi.
  - rewrite El in Hi.
    assert (Hne : l <> []) by (intros ->; inversion Hl).
    rewrite render_items_array in Hi by exact Hne.
    destruct (sequence (map render_item l)) as [lis|e] eqn:Es;
      [|discriminate Hi].
    apply sequence_Ok in Es. rewrite Forall_map in Es.
    apply Exists_exists in Hl. destruct Hl as (it & Hin & Hn).
    rewrite Forall_forall in Es. destruct (Es it Hin) as [x Hx].
    unfold render_item in Hx.
    destruct it; try discriminate Hn; discriminate Hx.
Qed.

Lemma unrenderable_replies_witness :
  displayResults (extractJson_text numeric_confidence_text) = Throw TypeError.
Proof.
  apply unrenderable_replies. left. split.
  - vm_compute. reflexivity.
  - intros s. vm_compute. intros X; discriminate X.
Defined.

(** ** Timers and the guard *)

(** X21. The timer that [displayResults] sets is never cancelled: when
    the back button is used before it fires, the results view is marked
    [visible] on the initial screen, which the reset had cleared; used
    after it, the reset clears the mark.  The contents are emptied
    either way. *)
Theorem results_timer_outlives_reset (v : view) (p : page) :
  let shown := show_results v p in
  let early := results_timer (resetToInitialView shown) in
  let late := resetToInitialView (results_timer shown) in
  (active_view early = Some InitialView /\
   resultsContent_innerHTML early = None /\
   results_view_visible early = true) /\
  (active_view late = Some InitialView /\
   resultsContent_innerHTML late = None /\
   results_view_visible late = false /\
   fully_reset p late).
Proof.
  cbv zeta. repeat split.
  intros i tracks Hc Hn. page_fields. unfold results_timer. page_fields.
  rewrite Hc. now apply stop_tracks_nth.
Qed.

(** X22. The credential leaves the page in one way only: every request
    that [analyzeImage] adds goes to [API_URL], carries the key as a
    bearer token and the serialized payload as its body, and is made
    only when the key differs from the constant of the guard; with any
    other key, the empty one included, the request is made. *)
Theorem request_is_guarded
  (API_KEY : text) (em : exn -> text) (img : text) (net : fetch_outcome)
  (p : page) :
  let p' := analyzeImage API_KEY em img net p in
  (forall url auth body,
     In (Fetch url auth body) (effects p') ->
     In (Fetch url auth body) (effects p) \/
     (API_KEY <> u "__API_KEY__" /\ url = API_URL /\
      auth = u "Bearer " ++ API_KEY /\ body = serialize (payload img))) /\
  (API_KEY <> u "__API_KEY__" ->
   In (Fetch API_URL (u "Bearer " ++ API_KEY) (serialize (payload img)))
      (effects p')).
Proof.
  cbv zeta. destruct (text_eqb_spec API_KEY (u "__API_KEY__")) as [E|E].
  - split; [|contradiction]. subst API_KEY.
    destruct (guard_constant_blocks em img net p) as [-> _].
    intros url auth body Hin. apply in_app_or in Hin.
    destruct Hin as [Hin|[Hin|[]]]; [now left | discriminate Hin].
  - assert (Hk : text_eqb API_KEY (u "__API_KEY__") = false).
    { destruct (text_eqb_spec API_KEY (u "__API_KEY__")); congruence. }
    rewrite (analyzeImage_effects _ em img net p Hk). split.
    + intros url auth body Hin.
      apply in_app_or in Hin. destruct Hin as [Hin|Hin]; [now left|].
      apply in_app_or in Hin. destruct Hin as [[Hin|[]]|Hin].
      * injection Hin as <- <- <-. right. repeat split. exact E.
      * exfalso. apply in_app_or in Hin. destruct Hin as [Hin|Hin].
        -- unfold attempt_console in Hin.
           repeat match type of Hin with
           | In _ (match ?x with _ => _ end) => destruct x
           | In _ (if ?x then _ else _) => destruct x
           end; cbn [In] in Hin; intuition discriminate.
        -- destruct (attempt net); cbn [In] in Hin; intuition discriminate.
    + intros _. apply in_or_app. right. now left.
Qed.

(** ** Sessions *)

Lemma streams_tidy_same (p q : page) :
  streams q = streams p -> currentStream q = currentStream p ->
  streams_tidy p -> streams_tidy q.
Proof. unfold streams_tidy. intros -> ->. exact (fun H => H). Qed.

Lemma repeat_false_all (n : nat) :
  Forall (fun track => track = false) (repeat false n).
Proof. induction n; simpl; constructor; auto. Qed.

Lemma reset_tidy (p : page) :
  streams_tidy p -> streams_tidy (resetToInitialView p).
Proof.
  intros [Hin Hothers]. split; [discriminate|].
  intros j tracks _. page_fields.
  destruct (currentStream p) as [i|] eqn:Hc.
  - destruct (Nat.eq_dec i j) as [<-|Hij].
    + specialize (Hin i eq_refl). apply nth_error_Some in Hin.
      destruct (nth_error (streams p) i) as [ts|] eqn:Hn; [|congruence].
      rewrite (stop_tracks_nth _ _ _ Hn). intros [= <-].
      apply repeat_false_all.
    + rewrite stop_tracks_other by exact Hij.
      apply Hothers. congruence.
  - apply Hothers. discriminate.
Qed.

(** The two halves make the whole. *)
Lemma analyzeImage_resumes API_KEY em img net p :
  analyzeImage API_KEY em img net p =
    if text_eqb API_KEY (u "__API_KEY__") then analyzeImage_begin API_KEY img p
    else analyzeImage_end em net (analyzeImage_begin API_KEY img p).
Proof.
  unfold analyzeImage, analyzeImage_begin, analyzeImage_end.
  destruct (text_eqb API_KEY (u "__API_KEY__")); reflexivity.
Qed.

Lemma analyzeImage_begin_tidy API_KEY img p :
  streams_tidy p -> streams_tidy (analyzeImage_begin API_KEY img p).
Proof.
  intros H. unfold analyzeImage_begin.
  destruct (text_eqb API_KEY (u "__API_KEY__")).
  - apply reset_tidy. now apply (streams_tidy_same p).
  - now apply (streams_tidy_same p).
Qed.

Lemma analyzeImage_end_tidy em net p :
  streams_tidy p -> streams_tidy (analyzeImage_end em net p).
Proof.
  intros H. unfold analyzeImage_end. destruct (attempt net).
  - now apply (streams_tidy_same p).
  - apply reset_tidy. now apply (streams_tidy_same p).
Qed.

Lemma startCamera_tidy o p :
  match o with Granted _ => currentStream p = None | Refused _ => True end ->
  streams_tidy p -> streams_tidy (startCamera o p).
Proof.
  intros Hc [Hheld Hothers]. destruct o as [n|err].
  - unfold startCamera. split; page_fields.
    + intros i [= <-]. rewrite length_app. simpl. lia.
    + intros j tracks Hj Hn.
      destruct (Nat.lt_ge_cases j (length (streams p))) as [Hlt|Hge].
      * rewrite nth_error_app1 in Hn by exact Hlt.
        apply (Hothers j); [rewrite Hc; discriminate | exact Hn].
      * rewrite nth_error_app2 in Hn by exact Hge.
        destruct (j - length (streams p))%nat as [|k] eqn:Hk.
        -- exfalso. apply Hj. f_equal. lia.
        -- destruct k; discriminate Hn.
  - apply (streams_tidy_same p); [reflexivity | reflexivity |].
    now split.
Qed.

Lemma page_step_tidy API_KEY em p ev :
  match ev with
  | CameraSettles (Granted _) => currentStream p = None
  | _ => True
  end ->
  streams_tidy p -> streams_tidy (page_step API_KEY em p ev).
Proof.
  intros Hfree H. destruct ev as [o|img|img|net|]; simpl.
  - apply startCamera_tidy; [|exact H]. destruct o; [exact Hfree | exact I].
  - apply analyzeImage_begin_tidy.
    apply (streams_tidy_same (resetToInitialView p));
      [reflexivity | reflexivity | now apply reset_tidy].
  - apply analyzeImage_begin_tidy. now apply (streams_tidy_same p).
  - now apply analyzeImage_end_tidy.
  - now apply reset_tidy.
Qed.

(** X23. No camera is left running behind the page's back: along any
    interleaving of the uninterrupted runs of the handlers (a camera
    request settling, a photo taken, a file read, an analysis request
    settling, the back button) in which every grant of the camera
    arrives while no stream is held, the stream held exists and every
    other stream ever acquired has all its tracks stopped; and when
    nothing is held, no track is live at all. *)
Theorem no_stream_is_left_running
  (API_KEY : text) (em : exn -> text) (p : page) (evs : list page_event) :
  streams_tidy p ->
  granted_when_free API_KEY em p evs ->
  let p' := page_run API_KEY em p evs in
  streams_tidy p' /\
  (currentStream p' = None ->
   forall j tracks, nth_error (streams p') j = Some tracks ->
     Forall (fun track => track = false) tracks).
Proof.
  intros Hp Hev. cbv zeta.
  assert (H : streams_tidy (page_run API_KEY em p evs)).
  { unfold page_run. revert p Hp Hev.
    induction evs as [|ev evs IH]; intros p Hp Hev; [exact Hp|].
    destruct Hev as [Hfree Hrest]. simpl. apply IH; [|exact Hrest].
    apply page_step_tidy; [|exact Hp].
    destruct ev as [[n|err]| | | |]; try exact I. exact Hfree. }
  split; [exact H|]. intros Hc j tracks. apply (proj2 H).
  rewrite Hc. discriminate.
Qed.

Lemma no_stream_is_left_running_witness :
  let p' := page_run (u "sk-live-key") sample_engine_message fresh_page
              sample_session in
  streams_tidy p' /\
  (currentStream p' = None ->
   forall j tracks, nth_error (streams p') j = Some tracks ->
     Forall (fun track => track = false) tracks).
Proof.
  apply (no_stream_is_left_running (u "sk-live-key") sample_engine_message
           fresh_page sample_session).
  - split; [discriminate|]. intros [|j] tracks _ H; discriminate H.
  - simpl. repeat split; reflexivity.
Defined.

(** ** Reading a value that is followed by more text *)

Lemma skip_ws_app s c r x :
  skip_ws s = c :: r -> skip_ws (s ++ x) = c :: r ++ x.
Proof.
  induction s as [|a s IH]; simpl; [discriminate|].
  destruct (is_json_space a); [exact IH|]. now intros [= <- <-].
Qed.

Lemma skip_ws_app_nil s x : skip_ws s = [] -> skip_ws (s ++ x) = skip_ws x.
Proof.
  induction s as [|a s IH]; simpl; [reflexivity|].
  destruct (is_json_space a); [exact IH | discriminate].
Qed.

Lemma skip_ws_finds c x :
  In c x -> is_json_space c = false -> skip_ws x <> [].
Proof.
  intros Hin Hc. induction x as [|a x IH]; [destruct Hin|].
  simpl. destruct (is_json_space a) eqn:E; [|discriminate].
  apply IH. destruct Hin as [->|Hin]; [congruence | exact Hin].
Qed.

Lemma match_lit_extend l s rest x :
  match_lit l s = Some rest -> match_lit l (s ++ x) = Some (rest ++ x).
Proof.
  revert s. induction l as [|a l IH]; intros s.
  - destruct s; simpl; now intros [= <-].
  - destruct s as [|b s]; simpl; [discriminate|].
    destruct (a =? b); [apply IH | discriminate].
Qed.

Lemma scan_digits_app s ds rest x :
  scan_digits s = (ds, rest) -> rest <> [] ->
  scan_digits (s ++ x) = (ds, rest ++ x).
Proof.
  revert ds. induction s as [|c s IH]; intros ds; simpl.
  - intros [= <- <-]. congruence.
  - destruct (is_digit c).
    + destruct (scan_digits s) as [ds' r'] eqn:E. intros [= <- <-] Hr.
      now rewrite (IH ds' eq_refl Hr).
    + now intros [= <- <-].
Qed.

Lemma scan_exponent_app s e rest x :
  scan_exponent s = Some (e, rest) -> rest <> [] ->
  scan_exponent (s ++ x) = Some (e, rest ++ x).
Proof.
  destruct s as [|c r]; [simpl; intros [= <- <-]; congruence|].
  cbn [scan_exponent app]. destruct ((c =? 101) || (c =? 69));
    [|now intros [= <- <-]].
  destruct r as [|d r']; [simpl; discriminate|].
  cbn [app].
  assert (Hd : forall (g : list N -> Z) r1,
            (let '(xs, r2) := scan_digits r1 in
             match xs with
             | [] => None
             | _ => Some (g xs, r2)
             end) = Some (e, rest) -> rest <> [] ->
            (let '(xs, r2) := scan_digits (r1 ++ x) in
             match xs with
             | [] => None
             | _ => Some (g xs, r2)
             end) = Some (e, rest ++ x)).
  { intros g r1. destruct (scan_digits r1) as [xs r2] eqn:E.
    destruct xs as [|y xs]; [discriminate|]. intros [= <- <-] Hr.
    now rewrite (scan_digits_app _ _ _ x E Hr). }
  destruct (d =? 43);
    [exact (Hd (fun xs => Z.of_N (digits_N xs)) r')|].
  destruct (d =? 45);
    [exact (Hd (fun xs => (- Z.of_N (digits_N xs))%Z) r')|].
  exact (Hd (fun xs => Z.of_N (digits_N xs)) (d :: r')).
Qed.

Lemma parse_number_app s n rest x :
  parse_number s = Some (n, rest) -> rest <> [] ->
  parse_number (s ++ x) = Some (n, rest ++ x).
Proof.
  unfold parse_number. intros H Hr.
  destruct s as [|c0 r0]; [discriminate H|]. cbn [app].
  assert (Htail : forall neg ip s1,
    match
      match s1 with
      | [] => Some ([], [])
      | c :: r =>
          if c =? 46
          then
            let (fp, s2) := scan_digits r in
            match fp with
            | [] => None
            | _ :: _ => Some (fp, s2)
            end
          else Some ([], s1)
      end
    with
    | Some (fp, s2) =>
        match scan_exponent s2 with
        | Some (e, s3) =>
            Some (make_number neg (ip ++ fp) (e - Z.of_nat (length fp)), s3)
        | None => None
        end
    | None => None
    end = Some (n, rest) ->
    match
      match s1 ++ x with
      | [] => Some ([], [])
      | c :: r =>
          if c =? 46
          then
            let (fp, s2) := scan_digits r in
            match fp with
            | [] => None
            | _ :: _ => Some (fp, s2)
            end
          else Some ([], s1 ++ x)
      end
    with
    | Some (fp, s2) =>
        match scan_exponent s2 with
        | Some (e, s3) =>
            Some (make_number neg (ip ++ fp) (e - Z.of_nat (length fp)), s3)
        | None => None
        end
    | None => None
    end = Some (n, rest ++ x)).
  { intros neg ip s1 H1.
    destruct s1 as [|c r];
      [simpl in H1; injection H1 as _ H1; congruence|].
    cbn [app]. destruct (c =? 46).
    - destruct (scan_digits r) as [fp s2] eqn:Ef.
      destruct fp as [|y fp]; [discriminate H1|].
      destruct (scan_exponent s2) as [[e s3]|] eqn:Ee; [|discriminate H1].
      injection H1 as <- <-.
      assert (Hs2 : s2 <> []).
      { intros ->. simpl in Ee. injection Ee as _ <-. congruence. }
      rewrite (scan_digits_app _ _ _ x Ef Hs2).
      now rewrite (scan_exponent_app _ _ _ x Ee Hr).
    - destruct (scan_exponent (c :: r)) as [[e s3]|] eqn:Ee;
        [|discriminate H1].
      injection H1 as <- <-.
      change (c :: r ++ x) with ((c :: r) ++ x).
      now rewrite (scan_exponent_app _ _ _ x Ee Hr). }
  destruct (c0 =? 45); cbv beta iota zeta in H |- *.
  - destruct (scan_digits r0) as [ip s1] eqn:Ei.
    destruct ip as [|d ip]; [discriminate H|].
    destruct (match d :: ip with y :: _ :: _ => y =? 0 | _ => false end)
      eqn:Ez; [discriminate H|].
    assert (Hs1 : s1 <> []).
    { intros ->. simpl in H. injection H as _ H. congruence. }
    rewrite (scan_digits_app _ _ _ x Ei Hs1). rewrite Ez.
    now apply Htail.
  - change (c0 :: r0 ++ x) with ((c0 :: r0) ++ x).
    destruct (scan_digits (c0 :: r0)) as [ip s1] eqn:Ei.
    destruct ip as [|d ip]; [discriminate H|].
    destruct (match d :: ip with y :: _ :: _ => y =? 0 | _ => false end)
      eqn:Ez; [discriminate H|].
    assert (Hs1 : s1 <> []).
    { intros ->. simpl in H. injection H as _ H. congruence. }
    rewrite (scan_digits_app _ _ _ x Ei Hs1). rewrite Ez.
    now apply Htail.
Qed.

Lemma parse_chars_app s str rest x :
  parse_chars s = Some (str, rest) ->
  parse_chars (s ++ x) = Some (str, rest ++ x).
Proof.
  remember (length s) as n eqn:En. revert s str rest En.
  induction n as [n IH] using lt_wf_ind. intros s str rest En. subst n.
  destruct s as [|c s]; [discriminate|]. cbn [app parse_chars].
  destruct (c =? 34); [now intros [= <- <-]|].
  destruct (c =? 92).
  - destruct s as [|e r1]; [discriminate|]. cbn [app].
    destruct (e =? 117).
    + destruct r1 as [|h1 [|h2 [|h3 [|h4 r2]]]]; try discriminate.
      cbn [app]. destruct (hex4 h1 h2 h3 h4); [|discriminate].
      destruct (parse_chars r2) as [[str' rest']|] eqn:E; [|discriminate].
      intros [= <- <-].
      now rewrite (IH (length r2) ltac:(simpl; lia) r2 str' rest' eq_refl E).
    + destruct (unescape e); [|discriminate].
      destruct (parse_chars r1) as [[str' rest']|] eqn:E; [|discriminate].
      intros [= <- <-].
      now rewrite (IH (length r1) ltac:(simpl; lia) r1 str' rest' eq_refl E).
  - destruct (c <? 32); [discriminate|].
    destruct (parse_chars s) as [[str' rest']|] eqn:E; [|discriminate].
    intros [= <- <-].
    now rewrite (IH (length s) ltac:(simpl; lia) s str' rest' eq_refl E).
Qed.

(** The literals and the numbers. *)
Lemma literal_app c r x v rest :
  match match_lit (u "true") (c :: r), match_lit (u "false") (c :: r),
        match_lit (u "null") (c :: r) with
  | Some rest, _, _ => Parsed (JBool true) rest
  | _, Some rest, _ => Parsed (JBool false) rest
  | _, _, Some rest => Parsed JNull rest
  | None, None, None =>
      match parse_number (c :: r) with
      | Some (n, rest) => Parsed (JNum n) rest
      | None => Invalid
      end
  end = Parsed v rest ->
  (c <> 45 /\ is_digit c = false) \/ rest <> [] ->
  match match_lit (u "true") ((c :: r) ++ x),
        match_lit (u "false") ((c :: r) ++ x),
        match_lit (u "null") ((c :: r) ++ x) with
  | Some rest, _, _ => Parsed (JBool true) rest
  | _, Some rest, _ => Parsed (JBool false) rest
  | _, _, Some rest => Parsed JNull rest
  | None, None, None =>
      match parse_number ((c :: r) ++ x) with
      | Some (n, rest) => Parsed (JNum n) rest
      | None => Invalid
      end
  end = Parsed v (rest ++ x).
Proof.
  intros H Hc.
  destruct (match_lit (u "true") (c :: r)) as [r1|] eqn:E1.
  { rewrite (match_lit_extend _ _ _ x E1). now injection H as <- <-. }
  destruct (match_lit (u "false") (c :: r)) as [r2|] eqn:E2.
  { rewrite (match_lit_extend _ _ _ x E2). injection H as <- <-.
    change (u "true") with (116 :: u "rue").
    change (u "false") with (102 :: u "alse") in E2.
    cbn [match_lit app] in E2 |- *.
    destruct (N.eqb_spec 102 c) as [<-|]; [reflexivity | discriminate E2]. }
  destruct (match_lit (u "null") (c :: r)) as [r3|] eqn:E3.
  { rewrite (match_lit_extend _ _ _ x E3). injection H as <- <-.
    change (u "true") with (116 :: u "rue").
    change (u "false") with (102 :: u "alse").
    change (u "null") with (110 :: u "ull") in E3.
    cbn [match_lit app] in E3 |- *.
    destruct (N.eqb_spec 110 c) as [<-|]; [reflexivity | discriminate E3]. }
  destruct (parse_number (c :: r)) as [[n rest']|] eqn:En; [|discriminate H].
  injection H as <- <-.
  destruct (parse_number_head _ _ En) as (c' & t & [= <- <-] & Hstart).
  assert (Hr : rest' <> []).
  { destruct Hc as [[H1 H2]|Hr]; [|exact Hr].
    destruct Hstart; congruence. }
  rewrite (parse_number_app _ _ _ x En Hr).
  change (u "true") with (116 :: u "rue").
  change (u "false") with (102 :: u "alse").
  change (u "null") with (110 :: u "ull").
  cbn [match_lit app].
  destruct (N.eqb_spec 116 c) as [<-|];
    [destruct Hstart as [H|H]; discriminate H|].
  destruct (N.eqb_spec 102 c) as [<-|];
    [destruct Hstart as [H|H]; discriminate H|].
  destruct (N.eqb_spec 110 c) as [<-|];
    [destruct Hstart as [H|H]; discriminate H|].
  reflexivity.
Qed.

(** A value that was read is read the same when more text follows,
    unless it is a number that ends the text. *)
Lemma parse_app f :
  (forall s v rest x,
     parse_value f s = Parsed v rest ->
     no_number_start s \/ rest <> [] ->
     parse_value f (s ++ x) = Parsed v (rest ++ x)) /\
  (forall s acc v rest x,
     parse_elements f s acc = Parsed v rest ->
     parse_elements f (s ++ x) acc = Parsed v (rest ++ x)) /\
  (forall s acc v rest x,
     parse_members f s acc = Parsed v rest ->
     parse_members f (s ++ x) acc = Parsed v (rest ++ x)).
Proof.
  induction f as [|f (IHv & IHe & IHm)];
    [repeat split; intros; simpl in *; discriminate|].
  split; [|split].
  - intros s v rest x H Hc. cbn [parse_value] in *.
    unfold no_number_start in Hc.
    destruct (skip_ws s) as [|c r] eqn:Ews; [discriminate H|].
    rewrite (skip_ws_app _ _ _ x Ews).
    destruct (c =? 123).
    { destruct (skip_ws r) as [|c' r'] eqn:E2; [discriminate H|].
      rewrite (skip_ws_app _ _ _ x E2).
      destruct (c' =? 125); [now injection H as <- <- | now apply IHm]. }
    destruct (c =? 91).
    { destruct (skip_ws r) as [|c' r'] eqn:E2; [discriminate H|].
      rewrite (skip_ws_app _ _ _ x E2).
      destruct (c' =? 93); [now injection H as <- <- | now apply IHe]. }
    destruct (c =? 34).
    { destruct (parse_chars r) as [[str rest']|] eqn:E; [|discriminate H].
      rewrite (parse_chars_app _ _ _ x E). now injection H as <- <-. }
    change (c :: r ++ x) with ((c :: r) ++ x).
    now apply literal_app.
  - intros s acc v rest x H. cbn [parse_elements] in *.
    destruct (parse_value f s) as [v1 rest1| |] eqn:Ev; try discriminate H.
    destruct (skip_ws rest1) as [|c r] eqn:Ews; [discriminate H|].
    rewrite (IHv s v1 rest1 x Ev)
      by (right; intros ->; discriminate Ews).
    rewrite (skip_ws_app _ _ _ x Ews).
    destruct (c =? 44); [now apply IHe|].
    destruct (c =? 93); [now injection H as <- <- | discriminate H].
  - intros s acc v rest x H. cbn [parse_members] in *.
    destruct (skip_ws s) as [|c r] eqn:Ews; [discriminate H|].
    rewrite (skip_ws_app _ _ _ x Ews).
    destruct (c =? 34); [|discriminate H].
    destruct (parse_chars r) as [[key rest1]|] eqn:Ek; [|discriminate H].
    rewrite (parse_chars_app _ _ _ x Ek).
    destruct (skip_ws rest1) as [|c1 r1] eqn:E1; [discriminate H|].
    rewrite (skip_ws_app _ _ _ x E1).
    destruct (c1 =? 58); [|discriminate H].
    destruct (parse_value f r1) as [v1 rest2| |] eqn:Ev; try discriminate H.
    destruct (skip_ws rest2) as [|c2 r2] eqn:E2; [discriminate H|].
    rewrite (IHv r1 v1 rest2 x Ev)
      by (right; intros ->; discriminate E2).
    rewrite (skip_ws_app _ _ _ x E2).
    destruct (c2 =? 44); [now apply IHm|].
    destruct (c2 =? 125); [now injection H as <- <- | discriminate H].
Qed.

Lemma JSON_parse_text_trailing obj x v c :
  JSON_parse_text obj = Ok v ->
  no_number_start obj ->
  In c x -> is_json_space c = false ->
  JSON_parse_text (obj ++ x) = Throw SyntaxError.
Proof.
  unfold JSON_parse_text. intros H Hstart Hin Hc.
  destruct (parse_value (2 * length obj + 1) obj) as [v0 rest| |] eqn:Ep;
    try discriminate H.
  destruct (skip_ws rest) eqn:Ews; [|discriminate H].
  assert (Hf : parse_value (2 * length (obj ++ x) + 1) obj =
               Parsed v0 rest).
  { rewrite <- Ep. apply (proj1 (parse_fuel_mono _)).
    - rewrite length_app. lia.
    - rewrite Ep. discriminate. }
  rewrite (proj1 (parse_app _) obj v0 rest x Hf (or_introl Hstart)).
  rewrite (skip_ws_app_nil _ x Ews).
  destruct (skip_ws x) eqn:Ex; [|reflexivity].
  exfalso. eapply skip_ws_finds; eassumption.
Qed.

(** X24. Prose with a closing brace after a bare object defeats the
    extraction: the pattern runs to the last closing brace of the
    reply, the text handed to [JSON.parse] is the object and the prose
    up to that brace, the syntax error is logged and null is returned,
    although the object alone is valid JSON. *)
Theorem trailing_brace_defeats_extraction
  (pre mid between post : text) (v : value) :
  ~ In 96 pre -> ~ In 123 pre -> ~ In 125 post ->
  JSON_parse_text (123 :: mid ++ [125]) = Ok v ->
  let t := pre ++ (123 :: mid ++ [125]) ++ between ++ 125 :: post in
  candidate t = Some (JStr ((123 :: mid ++ [125]) ++ between ++ [125])) /\
  extractJson (JStr t) = Ok JNull /\
  extractJson_logs_error t = true.
Proof.
  intros H1 H2 H3 Hv. cbv zeta.
  assert (Hc : candidate
                 (pre ++ (123 :: mid ++ [125]) ++ between ++ 125 :: post) =
               Some (JStr ((123 :: mid ++ [125]) ++ between ++ [125]))).
  { replace ((123 :: mid ++ [125]) ++ between ++ 125 :: post)
      with (123 :: (mid ++ 125 :: between) ++ 125 :: post)
      by (simpl; now rewrite <- !List.app_assoc).
    replace ((123 :: mid ++ [125]) ++ between ++ [125])
      with (123 :: (mid ++ 125 :: between) ++ [125])
      by (simpl; now rewrite <- !List.app_assoc).
    now apply candidate_brace_span. }
  assert (Hp : JSON_parse_text ((123 :: mid ++ [125]) ++ between ++ [125]) =
               Throw SyntaxError).
  { apply (JSON_parse_text_trailing _ _ v 125); [exact Hv| | |reflexivity].
    - unfold no_number_start. cbn. split; [discriminate | reflexivity].
    - apply in_or_app. right. now left. }
  split; [exact Hc|].
  unfold extractJson, extractJson_text, extractJson_logs_error.
  rewrite Hc. cbn [JSON_parse ToString bind]. rewrite Hp. now split.
Qed.

Lemma trailing_brace_defeats_extraction_witness :
  candidate trailing_brace_reply =
    Some (JStr (js "{'items':[]}" ++ u " (all values are estimates :-}")) /\
  extractJson (JStr trailing_brace_reply) = Ok JNull /\
  extractJson_logs_error trailing_brace_reply = true.
Proof.
  apply (trailing_brace_defeats_extraction []
           (js "'items':[]") (u " (all values are estimates :-") (u ")")
           (JObj [(u "items", JArr [])])).
  - intros [].
  - intros [].
  - vm_compute. intuition discriminate.
  - vm_compute. reflexivity.
Defined.

(** ** Fences with another label *)

Lemma search_step re pos c r :
  match_here re (c :: r) = None ->
  search re pos (c :: r) = search re (S pos) r.
Proof. intros H. simpl. now rewrite H. Qed.

Lemma space_no_opener c : is_space c = true -> c <> 96 /\ c <> 123.
Proof. intros H. split; intros ->; discriminate H. Qed.

(** Backticks that do not open a fence labelled json. *)
Lemma ticks_fail t :
  match t with c :: _ => c <> 96 /\ c <> 106 | [] => True end ->
  match_here json_regex (96 :: 96 :: 96 :: t) = None /\
  match_here json_regex (96 :: 96 :: t) = None /\
  match_here json_regex (96 :: t) = None.
Proof.
  intros Ht. unfold match_here, json_regex. cbn [run].
  change (u "```json") with [96; 96; 96; 106; 115; 111; 110].
  change (u "{") with [123].
  destruct t as [|c t]; cbn [match_lit]; rewrite ?N.eqb_refl;
    [repeat split; reflexivity|].
  destruct Ht as [H1 H2].
  destruct (N.eqb_spec 106 c) as [E|_]; [congruence|].
  destruct (N.eqb_spec 96 c) as [E|_]; [congruence|].
  change (123 =? 96) with false. repeat split; reflexivity.
Qed.

(** X25. A fence with no label, or with a label that does not begin
    with j, is not taken for the fence of the pattern.  With no backtick
    and no opening brace in the prose before the fence or in its label,
    white space between the label and the object, and no closing brace
    after the object, the object inside the fence is found by the brace
    alternative and parsed. *)
Theorem other_fence_is_read
  (prose lab ws mid post : text) (v : value) :
  ~ In 96 prose -> ~ In 123 prose ->
  ~ In 96 lab -> ~ In 123 lab ->
  match lab with c :: _ => c <> 106 | [] => True end ->
  Forall (fun c => is_space c = true) ws ->
  ~ In 125 post ->
  JSON_parse_text (123 :: mid ++ [125]) = Ok v ->
  let t := prose ++ u "```" ++ lab ++ ws ++ 123 :: mid ++ 125 :: post in
  candidate t = Some (JStr (123 :: mid ++ [125])) /\
  extractJson (JStr t) = Ok v /\
  extractJson_logs_error t = false.
Proof.
  intros Hp1 Hp2 Hl1 Hl2 Hj Hws Hpost Hv. cbv zeta.
  assert (Hc : candidate
                 (prose ++ u "```" ++ lab ++ ws ++ 123 :: mid ++ 125 :: post) =
               Some (JStr (123 :: mid ++ [125]))).
  { unfold candidate, String_match.
    rewrite search_skip
      by (apply Forall_forall; intros c Hc r;
          apply json_regex_needs_opener; intros ->; contradiction).
    change (u "```" ++ lab ++ ws ++ 123 :: mid ++ 125 :: post)
      with (96 :: 96 :: 96 :: lab ++ ws ++ 123 :: mid ++ 125 :: post).
    assert (Ht : match lab ++ ws ++ 123 :: mid ++ 125 :: post with
                 | c :: _ => c <> 96 /\ c <> 106
                 | [] => True
                 end).
    { destruct lab as [|c lab]; cbn [app].
      - destruct ws as [|c ws]; cbn [app].
        + split; discriminate.
        + inversion Hws as [|? ? Hc _]. subst.
          split; intros ->; discriminate Hc.
      - split; [intros ->; apply Hl1; now left | exact Hj]. }
    destruct (ticks_fail _ Ht) as (T3 & T2 & T1).
    rewrite (search_step _ _ _ _ T3), (search_step _ _ _ _ T2),
      (search_step _ _ _ _ T1).
    rewrite List.app_assoc.
    rewrite search_skip.
    - rewrite (search_here _ _ _ _ _ (brace_match_here mid post Hpost)).
      reflexivity.
    - apply Forall_app. split.
      + apply Forall_forall. intros c Hc r.
        apply json_regex_needs_opener; intros ->; contradiction.
      + apply Forall_forall. intros c Hc r.
        rewrite Forall_forall in Hws.
        destruct (space_no_opener c (Hws c Hc)).
        now apply json_regex_needs_opener. }
  split; [exact Hc|].
  unfold extractJson, extractJson_text, extractJson_logs_error.
  rewrite Hc. cbn [JSON_parse ToString bind]. rewrite Hv. now split.
Qed.

Lemma other_fence_is_read_witness :
  candidate plain_fence_reply = Some (JStr (js "{'items':[]}")) /\
  extractJson (JStr plain_fence_reply) = Ok (JObj [(u "items", JArr [])]) /\
  extractJson_logs_error plain_fence_reply = false.
Proof.
  apply (other_fence_is_read [] [] nl (js "'items':[]") (nl ++ u "```")
           (JObj [(u "items", JArr [])])).
  - intros [].
  - intros [].
  - intros [].
  - intros [].
  - exact I.
  - repeat constructor.
  - vm_compute. intuition discriminate.
  - vm_compute. reflexivity.
Defined.

(** ** Responses without a text *)

(** X26. A 2xx response that is JSON but carries no text to read (no
    [choices], an empty [choices], no [message], or a content that is
    not a string, such as null) ends in a [TypeError]: it is logged,
    the alert shows the engine's message for it, and the page is
    reset; nothing is rendered. *)
Theorem reply_without_text_fails (API_KEY : text) (em : exn -> text)
  (img : text) (status : N) (statusText body : text) (data : value)
  (p : page) :
  text_eqb API_KEY (u "__API_KEY__") = false ->
  response_ok status = true ->
  JSON_parse_text body = Ok data ->
  (exists e, completion_content data = Throw e) \/
  (exists c, completion_content data = Ok c /\ forall t, c <> JStr t) ->
  let net := Responded status statusText body in
  let p' := analyzeImage API_KEY em img net p in
  attempt net = Throw TypeError /\
  effects p' =
    effects p
    ++ [Fetch API_URL (u "Bearer " ++ API_KEY) (serialize (payload img));
        ConsoleError (u "Analysis failed:") TypeError;
        Alert (u "Analysis failed: " ++ em TypeError)] /\
  fully_reset p p'.
Proof.
  intros Hk Hok Hb Hbad. cbv zeta.
  assert (Ha : attempt (Responded status statusText body) = Throw TypeError).
  { unfold attempt. rewrite Hok, Hb. cbn [negb bind].
    destruct Hbad as [[e He]|(c & Hc & Hstr)].
    - rewrite He. cbn [bind]. f_equal.
      eapply completion_content_TypeError. eassumption.
    - rewrite Hc. cbn [bind].
      destruct c; try reflexivity. exfalso. eapply Hstr. reflexivity. }
  assert (Hl : attempt_console (Responded status statusText body) = []).
  { unfold attempt_console. rewrite Hok, Hb. cbn [negb bind].
    destruct Hbad as [[e He]|(c & Hc & Hstr)].
    - now rewrite He.
    - rewrite Hc. destruct c; try reflexivity.
      exfalso. eapply Hstr. reflexivity. }
  split; [exact Ha|]. split.
  - rewrite analyzeImage_effects by assumption. rewrite Ha, Hl. reflexivity.
  - eapply analyzeImage_catch; eassumption.
Qed.

Lemma reply_without_text_fails_witness :
  let net := Responded 200 (u "OK") refusal_body in
  let p' := analyzeImage (u "sk-live-key") sample_engine_message sample_image
              net busy_page in
  attempt net = Throw TypeError /\
  effects p' =
    effects busy_page
    ++ [Fetch API_URL (u "Bearer " ++ u "sk-live-key")
          (serialize (payload sample_image));
        ConsoleError (u "Analysis failed:") TypeError;
        Alert (u "Analysis failed: " ++ sample_engine_message TypeError)] /\
  fully_reset busy_page p'.
Proof.
  eapply (reply_without_text_fails (u "sk-live-key") sample_engine_message
            sample_image 200 (u "OK") refusal_body _ busy_page
            eq_refl eq_refl).
  - vm_compute. reflexivity.
  - right. exists JNull. split; [vm_compute; reflexivity|].
    intros t X. discriminate X.
Defined.
